(** * The quantitative scanning engine of nba_bettor.py, embedded in Rocq

    The engine's arithmetic is Python [float] arithmetic.  Throughout this
    development a float is idealised as an exact rational ([Q]); the two
    transcendental functions the engine calls ([math.exp], [math.tanh]) are
    the real functions of the Standard Library, so the two definitions that
    use them live in [R].  Python [int]s are [Z], [str]s are [string],
    a [dict] keyed by strings is a [gmap], a [dict] whose iteration order or
    whose tuple keys matter is an insertion-ordered association list.
    One scenario is additionally replayed in binary64 (module [Binary64]). *)

From Stdlib Require Import ZArith QArith Qround Qabs Qminmax Qpower Qreals Reals.
From Stdlib Require Import Lia Lra Lqa List Bool String PrimFloat Sorted.
From stdpp Require Import gmap strings.
Import ListNotations.

(* ================================================================== *)
(** ** Python numerics *)
(* ================================================================== *)
Module PyNum.
Local Open Scope Q_scope.

(** [clamp(x, lo, hi) = max(lo, min(hi, x))]. *)
Definition clamp (x lo hi : Q) : Q := Qmax lo (Qmin hi x).

(** Python's one-argument [round]: nearest integer, ties to the even one. *)
Definition py_round (x : Q) : Z :=
  let f := Qfloor x in
  let d := x - inject_Z f in
  match Qcompare d (1 # 2) with
  | Lt => f
  | Gt => (f + 1)%Z
  | Eq => if Z.even f then f else (f + 1)%Z
  end.

(** [round(x, 2)]: nearest multiple of 0.01, ties to even. *)
Definition py_round2 (x : Q) : Q := inject_Z (py_round (x * 100)) / 100.

(** [sum(...)] over a list of floats. *)
Definition qsum (l : list Q) : Q := fold_left Qplus l 0.

(** Truthiness of a float: [if den] is false exactly for zero. *)
Definition truthy (x : Q) : bool := negb (Qeq_bool x 0).

End PyNum.
Export PyNum.

(* ================================================================== *)
(** ** Odds helpers *)
(* ================================================================== *)
Module Odds.
Local Open Scope Q_scope.

(** [american_to_implied_prob]; the argument is already an [int], so the
    [int(a)] conversion cannot fail. *)
Definition american_to_implied_prob (a : Z) : Q :=
  if (100 <=? a)%Z then 100 / (inject_Z a + 100)
  else inject_Z (Z.abs a) / (inject_Z (Z.abs a) + 100).

Definition implied_prob_to_american (p : Q) : Z :=
  let p := Qmax (1 # 1000000) (Qmin (1 - (1 # 1000000)) p) in
  if Qle_bool (1 # 2) p
  then py_round ((-100) * p / (1 - p))
  else py_round (100 * (1 - p) / p).

(** [american_to_decimal]; [None] is the [ZeroDivisionError] that
    [100.0/abs(a)] raises at [a = 0] (the division is outside the [try]). *)
Definition american_to_decimal (a : Z) : option Q :=
  if (100 <=? a)%Z then Some (1 + inject_Z a / 100)
  else if (a =? 0)%Z then None
  else Some (1 + 100 / inject_Z (Z.abs a)).

Definition price_better_for_bettor (fd other : Z) : bool :=
  if (0 <=? fd)%Z && (0 <=? other)%Z then (other <? fd)%Z
  else if (fd <=? 0)%Z && (other <=? 0)%Z then (Z.abs fd <? Z.abs other)%Z
  else (other <? fd)%Z.

Definition cents_diff (fd : Z) (other : option Z) : Z :=
  match other with
  | None => 0%Z
  | Some other =>
      if (0 <=? fd)%Z && (0 <=? other)%Z then (fd - other)%Z
      else if (fd <=? 0)%Z && (other <=? 0)%Z then (Z.abs other - Z.abs fd)%Z
      else ((if (0 <? fd)%Z then fd else 0) +
            (if (other <? 0)%Z then Z.abs other else 0))%Z
  end.

End Odds.
Export Odds.

(* ================================================================== *)
(** ** Consensus probability: [trimmed_weighted_mean] *)
(* ================================================================== *)
Module Consensus.
Local Open Scope Q_scope.

Inductive exn := ZeroDivisionError | StatisticsError.

(** What a call produces: a float, Python's [None], or a raised exception. *)
Inductive result :=
| Ret (q : Q)
| RetNone
| Raise (e : exn).

(** [sorted(l, key=...)]: Python's sort is stable, so is this insertion:
    an element goes in front of the first element that is not smaller. *)
Fixpoint insert_by {A : Type} (key : A -> Q) (x : A) (l : list A) : list A :=
  match l with
  | [] => [x]
  | y :: l' =>
      if Qle_bool (key x) (key y) then x :: l else y :: insert_by key x l'
  end.

Definition sorted_by {A : Type} (key : A -> Q) (l : list A) : list A :=
  fold_right (insert_by key) [] l.

(** [statistics.median]: middle element of the sorted data, or the mean of
    the two middle ones; [None] is the [StatisticsError] on empty data. *)
Definition median (data : list Q) : option Q :=
  let s := sorted_by (fun v => v) data in
  let n := length s in
  if (n =? 0)%nat then None
  else if Nat.odd n then nth_error s (n / 2)
  else match nth_error s (n / 2 - 1), nth_error s (n / 2) with
       | Some a, Some b => Some ((a + b) / 2)
       | _, _ => None
       end.

(** [min(values)] and [max(values)] of a non-empty list (first extremum
    wins ties); the default is only returned for the empty list. *)
Definition py_min (l : list Q) : Q :=
  match l with
  | [] => 0
  | x :: l' => fold_left (fun m v => if Qlt_le_dec v m then v else m) l' x
  end.

Definition py_max (l : list Q) : Q :=
  match l with
  | [] => 0
  | x :: l' => fold_left (fun m v => if Qlt_le_dec m v then v else m) l' x
  end.

(** [int(x)] on a float truncates toward zero. *)
Definition py_int (x : Q) : Z :=
  if Qlt_le_dec x 0 then Qceiling x else Qfloor x.

(** Normalisation of a slice bound against a list of length [n]. *)
Definition slice_bound (n : nat) (i : Z) : nat :=
  if (i <? 0)%Z then Z.to_nat (Z.max 0 (i + Z.of_nat n))
  else Z.to_nat (Z.min i (Z.of_nat n)).

(** [l[i:j]]. *)
Definition py_slice {A : Type} (l : list A) (i j : Z) : list A :=
  let a := slice_bound (length l) i in
  let b := slice_bound (length l) j in
  firstn (b - a) (skipn a l).

(** The [weights] argument is a list, or a scalar that is replicated. *)
Inductive weights_arg :=
| WScalar (w : Q)
| WList (ws : list Q).

(** [num/den if den else None] over a list of (value, weight) pairs. *)
Definition weighted_ratio (pairs : list (Q * Q)) : result :=
  let num := qsum (map (fun p => fst p * snd p) pairs) in
  let den := qsum (map snd pairs) in
  if truthy den then Ret (num / den) else RetNone.

(** One turn of the outlier loop: the state is [(cleaned_pairs, outlier_count)]. *)
Definition outlier_step (m_z_scores : list Q) (st : list (Q * Q) * nat)
           (ivw : nat * (Q * Q)) : list (Q * Q) * nat :=
  let '(cleaned_pairs, outlier_count) := st in
  let '(i, (v, w)) := ivw in
  if Qlt_le_dec (5 # 2) (Qabs (nth i m_z_scores 0))
  then (cleaned_pairs ++ [(v, w * (1 # 10))], S outlier_count)
  else (cleaned_pairs ++ [(v, w)], outlier_count).

(** The winsorising assignments [pairs[0] = ...; pairs[-1] = ...]. *)
Definition winsorize (pairs : list (Q * Q)) : list (Q * Q) :=
  let n := length pairs in
  let at_ i := nth i pairs (0, 0) in
  let pairs1 :=
    <[ 0%nat := (fst (at_ 0%nat) * (3 # 4) + fst (at_ 1%nat) * (1 # 4),
                 snd (at_ 0%nat)) ]> pairs in
  let at1 i := nth i pairs1 (0, 0) in
  <[ (n - 1)%nat := (fst (at1 (n - 1)%nat) * (3 # 4) + fst (at1 (n - 2)%nat) * (1 # 4),
                     snd (at1 (n - 1)%nat)) ]> pairs1.

(** The pairs averaged when too many samples are flagged: the body of the
    [if outlier_count > n * 0.4] branch up to the two sums. *)
Definition hard_pairs (values weights : list Q) (trim : Q) : list (Q * Q) :=
  let n := length values in
  let pairs := sorted_by fst (combine values weights) in
  if (n <=? 6)%nat then
    if (4 <=? n)%nat then winsorize pairs else pairs
  else
    let k := py_int (inject_Z (Z.of_nat n) * trim) in
    if (0 <? Z.of_nat n - 2 * k)%Z
    then py_slice pairs k (Z.of_nat n - k)
    else pairs.

Definition trimmed_weighted_mean
           (values : list Q) (weights : weights_arg) (trim : Q) : result :=
  match values with
  | [] => RetNone
  | _ :: _ =>
    let weights :=
      match weights with
      | WScalar w => repeat w (length values)
      | WList ws => ws
      end in
    let '(values, weights) :=
      if (length weights =? length values)%nat then (values, weights)
      else let m := Nat.min (length values) (length weights) in
           (firstn m values, firstn m weights) in
    match values with
    | [] => RetNone
    | _ :: _ =>
      let n := length values in
      if (n <=? 3)%nat then
        match median values with
        | Some m => Ret m
        | None => Raise StatisticsError
        end
      else
        match median values with
        | None => Raise StatisticsError
        | Some med =>
          match median (map (fun v => Qabs (v - med)) values) with
          | None => Raise StatisticsError
          | Some mad =>
            if Qlt_le_dec mad (1 # 1000) then
              let den := qsum weights in
              if truthy den
              then Ret (qsum (map (fun p => fst p * snd p) (combine values weights)) / den)
              else Raise ZeroDivisionError
            else
              let m_z_scores := map (fun v => (6745 # 10000) * (v - med) / mad) values in
              let '(cleaned_pairs, outlier_count) :=
                fold_left (outlier_step m_z_scores)
                          (combine (seq 0 n) (combine values weights)) ([], 0%nat) in
              if Qlt_le_dec (inject_Z (Z.of_nat n) * (2 # 5))
                            (inject_Z (Z.of_nat outlier_count)) then
                weighted_ratio (hard_pairs values weights trim)
              else weighted_ratio cleaned_pairs
          end
        end
    end
  end.

End Consensus.
Export Consensus.

(* ================================================================== *)
(** ** The consensus algorithm as the design document words it *)
(* ================================================================== *)
(** Section 4.3 of the design document, step by step; this is the reference
    the embedded [trimmed_weighted_mean] is compared with. *)
Module ConsensusSpec.
Local Open Scope Q_scope.

(** A weighted mean exists when the total weight is not zero. *)
Definition weighted_mean (pairs : list (Q * Q)) : option Q :=
  let total := qsum (map snd pairs) in
  if Qeq_bool total 0 then None
  else Some (qsum (map (fun p => fst p * snd p) pairs) / total).

(** Modified Z-score [0.6745 (x - median) / MAD]. *)
Definition modified_z (med mad x : Q) : Q := (6745 # 10000) * (x - med) / mad.

(** A sample is flagged when its score is beyond 2.5 in absolute value. *)
Definition is_outlier (med mad x : Q) : bool :=
  if Qlt_le_dec (5 # 2) (Qabs (modified_z med mad x)) then true else false.

(** A flagged sample keeps its value and a tenth of its weight. *)
Definition down_weight (med mad : Q) (p : Q * Q) : Q * Q :=
  if is_outlier med mad (fst p) then (fst p, snd p * (1 # 10)) else p.

Definition outlier_fraction (med mad : Q) (values : list Q) : Q :=
  inject_Z (Z.of_nat (length (List.filter (is_outlier med mad) values)))
  / inject_Z (Z.of_nat (length values)).





Definition mad_of (med : Q) (values : list Q) : option Q :=
  median (map (fun x => Qabs (x - med)) values).


(** Two pairs with equal values and equal weights. *)
Definition pair_eq (p q : Q * Q) : Prop := fst p == fst q /\ snd p == snd q.

(** Whether step 4 (hard trimming) is the one taken. *)
Definition hard_trim_applies (values : list Q) : bool :=
  match median values with
  | None => false
  | Some med =>
    match mad_of med values with
    | None => false
    | Some mad =>
      if Qlt_le_dec mad (1 # 1000) then false
      else if Qlt_le_dec (2 # 5) (outlier_fraction med mad values) then true
      else false
    end
  end.

(** A returned float agrees with the reference value; no value is returned
    where the reference has none. *)
Definition agrees (r : result) (o : option Q) : Prop :=
  match r, o with
  | Ret q, Some q' => q == q'
  | RetNone, None => True
  | Raise ZeroDivisionError, None => True
  | _, _ => False
  end.

End ConsensusSpec.

(* ================================================================== *)
(** ** Confidence, badges and Kelly sizing *)
(* ================================================================== *)
Module Scoring.
Local Open Scope Q_scope.

Inductive badge := HIGH | MED | LOW | PASS.


Definition KELLY_CAP_PCT : Q := 5 # 2.

(** The module-level table of badge cut-offs. *)
Definition BADGE_THRESHOLDS : gmap string Z :=
  <[ "HIGH"%string := 70%Z ]> (<[ "MED"%string := 60%Z ]> (<[ "LOW"%string := 55%Z ]> ∅)).

(** [table.get(k, d)]. *)
Definition get_default {V : Type} (table : gmap string V) (k : string) (d : V) : V :=
  default d (table !! k).

Definition kelly_fraction (p_true dec_odds : Q) : Q :=
  let b := dec_odds - 1 in
  let q := 1 - p_true in
  if Qlt_le_dec 0 b then Qmax 0 ((b * p_true - q) / b) else 0.

(** [confidence_score_from_prob]; the threshold table is the global
    [BADGE_THRESHOLDS] at the time of the call. *)
Definition confidence_score_from_prob (thresholds : gmap string Z)
           (true_prob inj_adj min_adj steam_adj : Q) : Z * badge :=
  let adjusted_prob := clamp (true_prob + (inj_adj + min_adj + steam_adj) * (1 # 100)) 0 1 in
  let adjusted_prob := clamp adjusted_prob 0 1 in
  let conf := py_round (adjusted_prob * 100) in
  let hi := get_default thresholds "HIGH" 70%Z in
  let med := get_default thresholds "MED" 60%Z in
  let lo := get_default thresholds "LOW" 55%Z in
  let badge :=
    if (hi <=? conf)%Z then HIGH
    else if (med <=? conf)%Z then MED
    else if (lo <=? conf)%Z then LOW
    else PASS in
  (conf, badge).

Definition plus_odds_confidence_score
           (true_prob : Q) (fd_odds gap_cents books_used : Z) (inj_adj min_adj : Q)
  : Z * badge :=
  let base_conf := true_prob * 100 in
  let gap_bonus := Qmin 15 (inject_Z gap_cents / 2) in
  let books_bonus := Z.min 10 ((books_used - 3) * 2) in
  let odds_penalty :=
    if (250 <? fd_odds)%Z then inject_Z (fd_odds - 250) / 20 else 0 in
  let inj_scaled := inj_adj * (5 # 10) in
  let min_scaled := min_adj * (7 # 10) in
  let adjusted_conf :=
    base_conf + gap_bonus + inject_Z books_bonus - odds_penalty + inj_scaled + min_scaled in
  let adjusted_conf := clamp adjusted_conf 0 100 in
  let conf := py_round adjusted_conf in
  let badge :=
    if (55 <=? conf)%Z then HIGH
    else if (48 <=? conf)%Z then MED
    else if (42 <=? conf)%Z then LOW
    else PASS in
  (conf, badge).

(** The haircut of the ranking stage:
    [clamp(1.0 - (corr_pts / 100.0), 0.5, 1.0)]. *)
Definition corr_haircut (corr_pts : Z) : Q :=
  clamp (1 - inject_Z corr_pts / 100) (1 # 2) 1.

(** The fractional Kelly stake before the haircut:
    [kelly_fraction(...) * CURRENT_KELLY_MULT], reset to 0 when negative. *)
Definition base_stake (kelly_mult true_prob fd_dec : Q) : Q :=
  let k_frac := kelly_fraction true_prob fd_dec * kelly_mult in
  if Qlt_le_dec k_frac 0 then 0 else k_frac.

(** The Kelly% that the ranking loop of [scan_props] writes into a row,
    from the row's "True Prob %" and "FD Odds" and its penalty points. *)
Definition corr_kelly_pct (kelly_mult true_prob_pct : Q) (fd_odds corr_pts : Z) : Q :=
  let '(true_prob, fd_dec) :=
    match american_to_decimal fd_odds with
    | Some d => (true_prob_pct / 100, d)
    | None => (0, 1)
    end in
  let k_frac := base_stake kelly_mult true_prob fd_dec in
  let k_frac := k_frac * corr_haircut corr_pts in
  let k_frac := Qmin k_frac (KELLY_CAP_PCT / 100) in
  py_round2 (k_frac * 100).

(** [round((true_prob * fd_dec - 1.0) * 100.0, 2)], the EV% of every market path. *)
Definition ev_pct (true_prob fd_dec : Q) : Q :=
  py_round2 ((true_prob * fd_dec - 1) * 100).

End Scoring.
Export Scoring.

(* ================================================================== *)
(** ** Team injury pressure *)
(* ================================================================== *)
Module TeamPressure.
Local Open Scope R_scope.

Definition Rclamp (x lo hi : R) : R := Rmax lo (Rmin hi x).

Section WithTeamKey.
(** [team_key] canonicalises a team name through the alias table. *)
Variable team_key : string -> string.

(** [team_pressure_scores]; [m] is the map that [team_injury_pressure_map]
    returns. *)
Definition team_pressure_scores (m : gmap string Z) (team_name opponent_name : string)
  : Z * Z * Z * R :=
  let t := get_default m (team_key team_name) 0%Z in
  let o := get_default m (team_key opponent_name) 0%Z in
  let diff := (o - t)%Z in
  if ((t =? 0) && (o =? 0))%Z then (0%Z, 0%Z, 0%Z, 0)
  else
    let max_pressure := Z.max 1 (Z.max t o) in
    let relative_diff := IZR diff / IZR max_pressure in
    let bump := tanh (relative_diff * 1) * (4 / 100) in
    let bump := Rclamp bump (- (5 / 100)) (5 / 100) in
    (t, o, diff, bump).

End WithTeamKey.
End TeamPressure.
Export TeamPressure.

(* ================================================================== *)
(** ** Candidate rows and insertion-ordered dictionaries *)
(* ================================================================== *)
Module Rows.
Local Open Scope Q_scope.

(** The correlation flag strings ["P<n>"], ["G<n>"] and ["OK"]. *)
Inductive corr_flag := FlagP (n : nat) | FlagG (n : nat) | FlagOK.

(** The minutes tag ["<med>/<iqr>(n=<n>)"], kept unformatted. *)
Definition minutes_tag : Type := Q * Q * nat.

(** A candidate row: the columns of the row dictionary that scoring, ranking
    and the parlay builder read or write.  Columns that are only displayed
    (tip time, best book, line advantage, injury text, event id) are not
    carried. *)
Record row := {
  Matchup : string;
  Player : string;
  Market : string;
  Side : string;
  Line : Q;
  FD_Odds : Z;
  Gap_cents : Z;
  Avg_Gap_cents : Z;
  Books_Used : nat;
  Fair_Prob_pct : Q;
  True_Prob_pct : Q;
  EV_pct : Q;
  Confidence : Z;
  Badge : badge;
  Kelly_pct : Q;
  Corr : corr_flag;
  Min_Med_IQR : option minutes_tag;
  Steam : bool
}.

(** The tuple [(Matchup, Player, Market, Side, Line)] that keys a bet. *)
Definition key : Type := string * string * string * string * Q.

Definition row_key (r : row) : key :=
  (Matchup r, Player r, Market r, Side r, Line r).

Definition key_player (k : key) : string := let '(_, p, _, _, _) := k in p.
Definition key_market (k : key) : string := let '(_, _, m, _, _) := k in m.

(** Equality of two key tuples: strings by characters, the line by value. *)
Definition key_eqb (a b : key) : bool :=
  let '(m1, p1, k1, s1, l1) := a in
  let '(m2, p2, k2, s2, l2) := b in
  String.eqb m1 m2 && String.eqb p1 p2 && String.eqb k1 k2 && String.eqb s1 s2
  && Qeq_bool l1 l2.

Section Dict.
Context {K V : Type} (eqb : K -> K -> bool).

(** A [dict] as the list of its items in insertion order. *)
Fixpoint dict_get (d : list (K * V)) (k : K) : option V :=
  match d with
  | [] => None
  | (k', v) :: d' => if eqb k' k then Some v else dict_get d' k
  end.

(** [d[k] = v]: an existing key keeps its place, a new one goes last. *)
Fixpoint dict_set (d : list (K * V)) (k : K) (v : V) : list (K * V) :=
  match d with
  | [] => [(k, v)]
  | (k', v') :: d' =>
      if eqb k' k then (k', v) :: d' else (k', v') :: dict_set d' k v
  end.

(** [d.setdefault(k, v)] used as a statement. *)
Definition dict_setdefault (d : list (K * V)) (k : K) (v : V) : list (K * V) :=
  match dict_get d k with
  | Some _ => d
  | None => dict_set d k v
  end.

End Dict.

End Rows.
Export Rows.

(* ================================================================== *)
(** ** Correlation penalties *)
(* ================================================================== *)
Module Correlation.
Local Open Scope Q_scope.

Definition pen_dict : Type := list (key * Z).
Definition flag_dict : Type := list (key * corr_flag).
Definition groups : Type := list (string * list key).

(** [groups.setdefault(g, []).append(k)]. *)
Definition group_append (d : groups) (g : string) (k : key) : groups :=
  dict_set String.eqb d g (default [] (dict_get String.eqb d g) ++ [k]).

(** [len(set(...))] of a list of strings. *)
Definition distinct (l : list string) : nat :=
  size (list_to_set l : gset string).

(** The body of [for player, keys in by_player.items()]. *)
Definition player_step (st : pen_dict * flag_dict) (entry : string * list key)
  : pen_dict * flag_dict :=
  let keys := snd entry in
  if (1 <? length keys)%nat then
    let penalty_mult : Q :=
      if (1 <? distinct (map key_market keys))%nat then 1 # 2 else 1 in
    fold_left
      (fun (st : pen_dict * flag_dict) (ik : nat * key) =>
         let '(pen, flag) := st in
         let '(i, k) := ik in
         let base_penalty := Z.min 20 (Z.of_nat i * 5) in
         (dict_set key_eqb pen k
            (default 0%Z (dict_get key_eqb pen k)
             + py_int (inject_Z base_penalty * penalty_mult))%Z,
          dict_set key_eqb flag k (FlagP (length keys))))
      (combine (seq 0 (length keys)) keys) st
  else st.

(** The body of [for game, keys in by_game.items()]. *)
Definition game_step (st : pen_dict * flag_dict) (entry : string * list key)
  : pen_dict * flag_dict :=
  let keys := snd entry in
  if (2 <? length keys)%nat then
    let unique_players := distinct (map key_player keys) in
    let unique_markets := distinct (map key_market keys) in
    let diversity_factor :=
      Qmin 1 (inject_Z (Z.of_nat (unique_players + unique_markets))
              / inject_Z (Z.of_nat (length keys * 2))) in
    fold_left
      (fun (st : pen_dict * flag_dict) (k : key) =>
         let '(pen, flag) := st in
         let penalty :=
           Z.max 0 (py_int (inject_Z ((Z.of_nat (length keys) - 2) * 3)
                            * (1 - diversity_factor * (1 # 2)))) in
         let pen := dict_set key_eqb pen k
                             (default 0%Z (dict_get key_eqb pen k) + penalty)%Z in
         let flag :=
           match dict_get key_eqb flag k with
           | Some (FlagP _) => flag
           | _ => dict_set key_eqb flag k (FlagG (length keys))
           end in
         (pen, flag))
      keys st
  else st.

Definition correlation_penalty (rows : list row) : pen_dict * flag_dict :=
  let by_player :=
    fold_left (fun d r => group_append d (Player r) (row_key r)) rows [] in
  let by_game :=
    fold_left (fun d r => group_append d (Matchup r) (row_key r)) rows [] in
  let st := fold_left player_step by_player ([], []) in
  let st := fold_left game_step by_game st in
  fold_left
    (fun (st : pen_dict * flag_dict) r =>
       let '(pen, flag) := st in
       (dict_setdefault key_eqb pen (row_key r) 0%Z,
        dict_setdefault key_eqb flag (row_key r) FlagOK))
    rows st.

(** No stored penalty is negative. *)
Definition nonneg_dict (pen : pen_dict) : Prop :=
  Forall (fun kv => (0 <= snd kv)%Z) pen.

End Correlation.
Export Correlation.

(* ================================================================== *)
(** ** Parlay helpers *)
(* ================================================================== *)
Module Parlay.

Definition _row_true_prob (r : row) : Q := (True_Prob_pct r / 100)%Q.

(** A raising [american_to_decimal] is caught and replaced by 1.0. *)
Definition _row_dec_odds (r : row) : Q :=
  match american_to_decimal (FD_Odds r) with
  | Some d => d
  | None => 1%Q
  end.

(** The sum of the legs' penalty points. *)
Definition total_penalty_points (legs : list row) : Z :=
  let pen_map := fst (correlation_penalty legs) in
  fold_left (fun total r => (total + default 0 (dict_get key_eqb pen_map (row_key r)))%Z)
            legs 0%Z.

(** [_parlay_independence_discount]: [max(0.30, exp(-total_pts / 20.0))]. *)
Definition _parlay_independence_discount (legs : list row) : R :=
  Rmax (3 / 10) (exp (IZR (- total_penalty_points legs) / 20)).

(** Python's [round], half to even, on a real. *)
Definition py_round_R (x : R) : Z :=
  let f := Int_part x in
  let d := (x - IZR f)%R in
  if Rlt_dec d (1 / 2) then f
  else if Rlt_dec (1 / 2) d then (f + 1)%Z
  else if Z.even f then f else (f + 1)%Z.

Definition py_round2_R (x : R) : R := (IZR (py_round_R (x * 100)) / 100)%R.

(** [_parlay_metrics]: hit probability, decimal odds, EV%. *)
Definition _parlay_metrics (legs : list row) : R * Q * R :=
  match legs with
  | [] => (0%R, 1%Q, (-100)%R)
  | _ :: _ =>
      let '(p, dec) :=
        fold_left (fun (acc : Q * Q) r =>
                     (fst acc * _row_true_prob r, snd acc * _row_dec_odds r)%Q)
                  legs (1%Q, 1%Q) in
      let p := (Q2R p * _parlay_independence_discount legs)%R in
      let ev := (p * Q2R dec - 1)%R in
      (p, dec, py_round2_R (ev * 100))
  end.

(** The product of a list of floats. *)
Definition qprod (l : list Q) : Q := fold_right Qmult 1%Q l.

End Parlay.
Export Parlay.

(* ================================================================== *)
(** ** Situational adjustments read by the prop scorer *)
(* ================================================================== *)
Module Adjust.
Local Open Scope Q_scope.

(** The normalised injury status of a player, when the report has one. *)
Inductive injury_status := Out | Doubtful | QGTD | Probable | OtherStatus.

(** [injury_confidence_adjust(player)], for the bet's own player; the
    argument is what [injury_status_for_name] found. *)
Definition injury_confidence_adjust (status : option injury_status) : Q :=
  match status with
  | None => 0
  | Some Out => -50
  | Some Doubtful => -30
  | Some QGTD => -15
  | Some Probable => -5
  | Some OtherStatus => 0
  end.

(** [minutes_confidence_adjust(player)]; the argument is [None] when no
    player id is found or the lookup raised, otherwise the [(med, iqr, n)]
    that [bdl_recent_minutes] returns. *)
Definition minutes_confidence_adjust (read : option (Q * Q * nat))
  : Q * option minutes_tag :=
  match read with
  | None => (0, None)
  | Some (med, iqr, n) =>
      let tag := if (0 <? n)%nat then Some (med, iqr, n) else None in
      if (n <? 5)%nat then (-5, tag)
      else if (n <? 7)%nat then
        if Qle_bool 32 med && Qle_bool iqr 3 then (2, tag)
        else if Qle_bool 28 med && Qle_bool iqr 4 then (1, tag)
        else if negb (Qle_bool 18 med) || Qle_bool 10 iqr then (-4, tag)
        else (-1, tag)
      else
        if Qle_bool 32 med && Qle_bool iqr 4 then (3, tag)
        else if Qle_bool 28 med && Qle_bool iqr 5 then (2, tag)
        else if Qle_bool 24 med && Qle_bool iqr 6 then (1, tag)
        else if negb (Qle_bool 16 med) || Qle_bool 12 iqr then (-3, tag)
        else if negb (Qle_bool 20 med) || Qle_bool 9 iqr then (-2, tag)
        else (0, tag)
  end.

End Adjust.
Export Adjust.

(* ================================================================== *)
(** ** Scanning: one prop side, then ranking *)
(* ================================================================== *)
Module Scan.
Local Open Scope Q_scope.

Definition FANDUEL_KEY : string := "fanduel".
Definition CURRENT_KELLY_MULT : Q := 1 # 2.

Record preset := {
  sort_label : string;
  min_books_delta : Z;
  trim : Q;
  ml_bump_scale : Q;
  spread_bump_scale : Q;
  require_ev : bool;
  require_gap : bool;
  min_gap_cents : Z;
  min_avg_gap_cents : Z;
  min_true_prob_pct : Q;
  steam_window_sec : Z;
  fd_odds_min : option Z;
  fd_odds_max : option Z;
  mode : option string
}.

Definition morning : preset :=
  {| sort_label := "EV"; min_books_delta := -1; trim := 20 # 100;
     ml_bump_scale := 5 # 10; spread_bump_scale := 4 # 10;
     require_ev := true; require_gap := true;
     min_gap_cents := 5; min_avg_gap_cents := 5; min_true_prob_pct := 52;
     steam_window_sec := 14400;
     fd_odds_min := None; fd_odds_max := None; mode := None |}.

Definition pretip : preset :=
  {| sort_label := "CONF"; min_books_delta := -2; trim := 15 # 100;
     ml_bump_scale := 1; spread_bump_scale := 6 # 10;
     require_ev := false; require_gap := false;
     min_gap_cents := 0; min_avg_gap_cents := 0; min_true_prob_pct := 55;
     steam_window_sec := 1800;
     fd_odds_min := Some (-240)%Z; fd_odds_max := Some (-140)%Z;
     mode := Some "confidence"%string |}.

Definition plus_odds : preset :=
  {| sort_label := "EV"; min_books_delta := 0; trim := 18 # 100;
     ml_bump_scale := 7 # 10; spread_bump_scale := 5 # 10;
     require_ev := true; require_gap := true;
     min_gap_cents := 8; min_avg_gap_cents := 6; min_true_prob_pct := 45;
     steam_window_sec := 7200;
     fd_odds_min := Some 100%Z; fd_odds_max := Some 400%Z;
     mode := Some "plus_odds"%string |}.

Definition WINDOW_PRESETS : gmap string preset :=
  <[ "morning"%string := morning ]>
    (<[ "pretip"%string := pretip ]> (<[ "plus_odds"%string := plus_odds ]> ∅)).

(** The arguments [scan_props] passes down to every event worker. *)
Record worker_args := {
  w_min_books : Z;
  w_trim_used : Q;
  w_min_ev : Q;
  w_window_mode : string;
  w_require_ev : bool;
  w_require_gap : bool;
  w_min_gap_cents : Z;
  w_min_avg_gap_cents : Z;
  w_min_true_prob_pct : Q
}.

(** [effective_min_books = max(1, int(min_books) + int(preset["min_books_delta"]))]. *)
Definition effective_min_books (p : preset) (min_books : Z) : Z :=
  Z.max 1 (min_books + min_books_delta p).

(** The head of [scan_props]: an unknown window name falls back to "pretip". *)
Definition worker_args_of (window_mode : string) (min_books : Z) (min_ev : Q)
  : worker_args :=
  let p := default pretip (WINDOW_PRESETS !! window_mode) in
  {| w_min_books := effective_min_books p min_books;
     w_trim_used := trim p;
     w_min_ev := min_ev;
     w_window_mode := window_mode;
     w_require_ev := require_ev p;
     w_require_gap := require_gap p;
     w_min_gap_cents := min_gap_cents p;
     w_min_avg_gap_cents := min_avg_gap_cents p;
     w_min_true_prob_pct := min_true_prob_pct p |}.

(** The two prices one book quotes on a prop line. *)
Record sides := { Over : option Z; Under : option Z }.

Inductive side := SOver | SUnder.

Definition side_name (sd : side) : string :=
  match sd with SOver => "Over" | SUnder => "Under" end.

Definition side_price (sd : side) (s : sides) : option Z :=
  match sd with SOver => Over s | SUnder => Under s end.

(** One market of one event: book key to quoted sides, in feed order. *)
Definition book_map : Type := list (string * sides).

(** [book_weight(b)]: the weight table, 1.0 for an unknown book. *)
Definition book_weight (weights : gmap string Q) (b : string) : Q :=
  get_default weights b 1.

(** [_best_and_avg_gap(fd_price, side_key)]: best gap, best book, best
    price, average gap. *)
Definition _best_and_avg_gap (bm : book_map) (fd_price : Z) (sd : side)
  : Z * option string * option Z * Z :=
  let fd_sign_positive := (0 <=? fd_price)%Z in
  let '(best_other_book, best_other_price, others) :=
    fold_left
      (fun (st : option string * option Z * list Z) (entry : string * sides) =>
         let '(best_book, best_price, others) := st in
         let '(b, s) := entry in
         if String.eqb b FANDUEL_KEY then st
         else match side_price sd s with
              | None => st
              | Some p =>
                  if negb (Bool.eqb (0 <=? p)%Z fd_sign_positive) then st
                  else
                    let better :=
                      match best_book, best_price with
                      | None, _ => true
                      | Some _, Some bp => price_better_for_bettor p bp
                      | Some _, None => true
                      end in
                    if better then (Some b, Some p, others ++ [p])
                    else (best_book, best_price, others ++ [p])
              end)
      bm (None, None, []) in
  let cents_delta_best :=
    match best_other_book with
    | Some b => if String.eqb b "" then 0%Z else cents_diff fd_price best_other_price
    | None => 0%Z
    end in
  let cents_delta_avg :=
    match others with
    | [] => 0%Z
    | _ :: _ =>
        let avg_other :=
          py_round (inject_Z (fold_left Z.add others 0%Z)
                    / inject_Z (Z.of_nat (length others))) in
        cents_diff fd_price (Some avg_other)
    end in
  (cents_delta_best, best_other_book, best_other_price, cents_delta_avg).

(** The no-vig samples of one side and their weights: every book but the
    reference book that quotes both sides. *)
Definition fair_samples (weights : gmap string Q) (bm : book_map) (sd : side)
  : list Q * list Q :=
  fold_left
    (fun (st : list Q * list Q) (entry : string * sides) =>
       let '(fair_probs, fair_wgts) := st in
       let '(b, s) := entry in
       if String.eqb b FANDUEL_KEY then st
       else match Over s, Under s with
            | Some over, Some under =>
                let p_over := american_to_implied_prob over in
                let p_under := american_to_implied_prob under in
                let denom := p_over + p_under in
                if Qlt_le_dec 0 denom then
                  let fair_over := p_over / denom in
                  let fair_under := 1 - fair_over in
                  (fair_probs ++ [match sd with SOver => fair_over | SUnder => fair_under end],
                   fair_wgts ++ [book_weight weights b])
                else st
            | _, _ => st
            end)
    bm ([], []).

(** [statistics.quantiles(data, n=4)] (exclusive method), cut point [i]. *)
Definition quartile (data : list Q) (i : nat) : Q :=
  let d := sorted_by (fun v => v) data in
  let ld := length d in
  let m := (ld + 1)%nat in
  let j := (i * m / 4)%nat in
  let j := if (j <? 1)%nat then 1%nat
           else if (ld - 1 <? j)%nat then (ld - 1)%nat else j in
  let delta := (Z.of_nat (i * m) - Z.of_nat j * 4)%Z in
  (nth (j - 1) d 0 * inject_Z (4 - delta) + nth j d 0 * inject_Z delta) / 4.

(** The dispersion that feeds the blend weight. *)
Definition dispersion (fair_probs : list Q) : Q :=
  if (4 <=? length fair_probs)%nat then
    Qmax (1 # 1000000) (quartile fair_probs 3 - quartile fair_probs 1)
  else if (length fair_probs =? 3)%nat then
    let qs := sorted_by (fun v => v) fair_probs in
    Qmax (1 # 1000000) ((nth 2 qs 0 - nth 0 qs 0) * (1 # 2))
  else 20 # 100.

(** What the statistics feed and the tick store contribute to one prop
    side: the coefficient of variation and the two model probabilities of
    the usage model, the injury status, the minutes read, the steam boost. *)
Record signals := {
  sig_cv : Q;
  sig_negative_binomial : Q;
  sig_poisson : Q;
  sig_injury : option injury_status;
  sig_minutes : option (Q * Q * nat);
  sig_steam : Q
}.

(** The blended and clamped true probability of the prop branch. *)
Definition blended_true_prob (fair_probs : list Q) (market_prob : Q) (sg : signals)
  : option Q :=
  let iqr := dispersion fair_probs in
  let cv := sig_cv sg in
  let p_model :=
    if Qlt_le_dec (6 # 10) cv
    then sig_negative_binomial sg * (1 - Qmin (15 # 100) (cv * (1 # 10)))
    else sig_poisson sg in
  let alpha_market :=
    if Qlt_le_dec (6 # 10) cv then 90 # 100
    else if Qlt_le_dec (4 # 10) cv then 85 # 100
    else Qmax (75 # 100) (Qmin (90 # 100) ((90 # 100) - iqr / (35 # 100))) in
  let true_prob := alpha_market * market_prob + (1 - alpha_market) * p_model in
  let p_lo := py_min fair_probs in
  let p_hi := py_max fair_probs in
  let buffer := 5 # 100 in
  let true_prob := Qmax (p_lo - buffer) (Qmin (p_hi + buffer) true_prob) in
  match median fair_probs with
  | None => None
  | Some p_med =>
      let true_prob := Qmin true_prob (p_med + (10 # 100)) in
      Some (Qmax true_prob (p_med - (10 # 100)))
  end.

(** What one pass through the prop loop body does. *)
Inductive outcome :=
| Emit (r : row)
| Skip
| Crash (e : exn).

Definition market_label (market_key : string) : option string :=
  if String.eqb market_key "player_points" then Some "Points"%string
  else if String.eqb market_key "player_rebounds" then Some "Rebounds"%string
  else if String.eqb market_key "player_assists" then Some "Assists"%string
  else if String.eqb market_key "player_threes" then Some "3PM"%string
  else None.

(** The reference-price window of the "pretip" and "plus_odds" presets. *)
Definition odds_filter_rejects (window_mode : string) (fd_price : Z) : bool :=
  if String.eqb window_mode "pretip" || String.eqb window_mode "plus_odds" then
    match WINDOW_PRESETS !! window_mode with
    | None => false
    | Some p =>
        match mode p with
        | Some md =>
            if String.eqb md "confidence" || String.eqb md "plus_odds" then
              let lo := default (-999)%Z (fd_odds_min p) in
              let hi := default 999%Z (fd_odds_max p) in
              negb ((lo <=? fd_price)%Z && (fd_price <=? hi)%Z)
            else false
        | None => false
        end
    end
  else false.

(** The stages of the prop branch after the samples are in: filters,
    confidence, Kelly, row. *)
Definition score_prop_side (a : worker_args) (thresholds : gmap string Z)
           (matchup who label : string) (sd : side) (line : Q) (fd_price : Z)
           (gaps : Z * option string * option Z * Z)
           (books_used : nat) (market_prob true_prob : Q) (sg : signals) : outcome :=
  let '(cents_delta, _, _, cents_delta_avg) := gaps in
  let inj_adj := injury_confidence_adjust (sig_injury sg) in
  let '(min_adj, min_tag) := minutes_confidence_adjust (sig_minutes sg) in
  let steam_adj := sig_steam sg in
  match american_to_decimal fd_price with
  | None => Crash ZeroDivisionError
  | Some fd_dec =>
      let ev := ev_pct true_prob fd_dec in
      let edge_ok :=
        if w_require_gap a then
          if String.eqb (w_window_mode a) "morning"
          then (w_min_gap_cents a <=? cents_delta)%Z
               && (w_min_avg_gap_cents a <=? cents_delta_avg)%Z
          else (w_min_gap_cents a <=? cents_delta)%Z
        else true in
      let prob_ok :=
        if Qlt_le_dec 0 (w_min_true_prob_pct a)
        then Qle_bool (w_min_true_prob_pct a) (py_round2 (true_prob * 100))
        else true in
      let ev_ok := if w_require_ev a then Qle_bool (w_min_ev a) ev else true in
      if negb (edge_ok && prob_ok && ev_ok) then Skip
      else
        let '(conf, badge) :=
          if String.eqb (w_window_mode a) "plus_odds"
          then plus_odds_confidence_score true_prob fd_price cents_delta
                                          (Z.of_nat books_used) inj_adj min_adj
          else confidence_score_from_prob thresholds true_prob inj_adj min_adj steam_adj in
        if Qlt_le_dec (inject_Z conf) (w_min_true_prob_pct a) then Skip
        else
          let k_frac := kelly_fraction true_prob fd_dec * CURRENT_KELLY_MULT in
          let kelly_pct := py_round2 (Qmin KELLY_CAP_PCT (Qmax 0 (k_frac * 100))) in
          Emit {| Matchup := matchup; Player := who; Market := label;
                  Side := side_name sd; Line := line; FD_Odds := fd_price;
                  Gap_cents := cents_delta; Avg_Gap_cents := cents_delta_avg;
                  Books_Used := books_used;
                  Fair_Prob_pct := py_round2 (market_prob * 100);
                  True_Prob_pct := py_round2 (true_prob * 100);
                  EV_pct := ev;
                  Confidence := conf; Badge := badge; Kelly_pct := kelly_pct;
                  Corr := FlagOK;
                  Min_Med_IQR := min_tag;
                  Steam := negb (Qle_bool steam_adj 0) |}
  end.

(** The prop branch of [_process_one_event] for one [(who, market_key, line)]
    entry of the quote map and one side. *)
Definition process_prop_side (a : worker_args) (thresholds : gmap string Z)
           (weights : gmap string Q) (matchup who market_key : string) (line : Q)
           (bm : book_map) (sd : side) (sg : signals) : outcome :=
  match market_label market_key with
  | None => Skip
  | Some label =>
    match dict_get String.eqb bm FANDUEL_KEY with
    | None => Skip
    | Some fd_sides =>
      match side_price sd fd_sides with
      | None => Skip
      | Some fd_price =>
        if odds_filter_rejects (w_window_mode a) fd_price then Skip
        else
          let gaps := _best_and_avg_gap bm fd_price sd in
          let '(fair_probs, fair_wgts) := fair_samples weights bm sd in
          let books_used := length fair_probs in
          if (Z.of_nat books_used <? w_min_books a)%Z then Skip
          else
            match trimmed_weighted_mean fair_probs (WList fair_wgts) (w_trim_used a) with
            | RetNone => Skip
            | Raise e => Crash e
            | Ret market_prob =>
                match blended_true_prob fair_probs market_prob sg with
                | None => Crash StatisticsError
                | Some true_prob =>
                    score_prop_side a thresholds matchup who label sd line fd_price
                                    gaps books_used market_prob true_prob sg
                end
            end
      end
    end
  end.

(** [enforce_portfolio_caps]: greedy per-game and per-player counters. *)
Definition enforce_portfolio_caps (rows : list row) (max_per_game max_per_player : Z)
  : list row :=
  let step (st : list row * gmap string Z * gmap string Z) (r : row) :=
    let '(out, by_game, by_player) := st in
    let g := Matchup r in
    let p := Player r in
    if (max_per_game <=? get_default by_game g 0)%Z then st
    else if (max_per_player <=? get_default by_player p 0)%Z then st
    else (out ++ [r],
          <[ g := (get_default by_game g 0 + 1)%Z ]> by_game,
          <[ p := (get_default by_player p 0 + 1)%Z ]> by_player) in
  let '(out, _, _) := fold_left step rows ([], ∅, ∅) in
  out.

(** The ranking stage of [scan_props]: penalties, Kelly overwrite, sort by
    confidence (descending, stable), caps, truncation to [top_n]. *)
Definition rank_candidates (kelly_mult : Q) (candidates : list row)
           (max_per_game max_per_player top_n : Z) : list row :=
  let '(pen_map, flag_map) := correlation_penalty candidates in
  let final :=
    map (fun r =>
           let k := row_key r in
           let corr_pts := default 0%Z (dict_get key_eqb pen_map k) in
           let corr_flag := default FlagOK (dict_get key_eqb flag_map k) in
           {| Matchup := Matchup r; Player := Player r; Market := Market r;
              Side := Side r; Line := Line r; FD_Odds := FD_Odds r;
              Gap_cents := Gap_cents r; Avg_Gap_cents := Avg_Gap_cents r;
              Books_Used := Books_Used r;
              Fair_Prob_pct := Fair_Prob_pct r;
              True_Prob_pct := True_Prob_pct r;
              EV_pct := EV_pct r;
              Confidence := Confidence r; Badge := Badge r;
              Kelly_pct := corr_kelly_pct kelly_mult (True_Prob_pct r) (FD_Odds r) corr_pts;
              Corr := corr_flag;
              Min_Med_IQR := Min_Med_IQR r;
              Steam := Steam r |})
        candidates in
  let final := sorted_by (fun r => - inject_Z (Confidence r)) final in
  let final := enforce_portfolio_caps final max_per_game max_per_player in
  py_slice final 0 top_n.

(** The candidate pool: worker results appended in completion order. *)
Definition merge_results (completed : list (list row)) : list row :=
  concat completed.

(** What [scan_props] returns for a given completion order of the workers. *)
Definition scan_output (kelly_mult : Q) (completed : list (list row))
           (max_per_game max_per_player top_n : Z) : list row :=
  rank_candidates kelly_mult (merge_results completed) max_per_game max_per_player top_n.

End Scan.
Export Scan.

(* ================================================================== *)
(** ** Sample data *)
(* ================================================================== *)
(** Concrete quotes, signals and rows on which the properties below are
    exercised. *)
Module Samples.
Local Open Scope Q_scope.

(** Four books on "Over 24.5 points"; the reference book quotes -150. *)
Definition points_books : book_map :=
  [ ("fanduel"%string,    {| Over := Some (-150)%Z; Under := Some 120%Z |});
    ("draftkings"%string, {| Over := Some (-190)%Z; Under := Some 150%Z |});
    ("betmgm"%string,     {| Over := Some (-185)%Z; Under := Some 145%Z |});
    ("caesars"%string,    {| Over := Some (-195)%Z; Under := Some 155%Z |}) ].

(** A healthy player whose minutes log holds only four recent games. *)
Definition four_game_signals : signals :=
  {| sig_cv := 3 # 10; sig_negative_binomial := 60 # 100; sig_poisson := 62 # 100;
     sig_injury := None; sig_minutes := Some (30, 4, 4%nat); sig_steam := 0 |}.

Definition no_weights : gmap string Q := ∅.

Definition pretip_args : worker_args := worker_args_of "pretip" 3 2.

Definition scored_row (matchup player market : string) (line : Q) (fd : Z)
           (true_prob_pct ev : Q) (conf : Z) (b : badge) : row :=
  {| Matchup := matchup; Player := player; Market := market; Side := "Over";
     Line := line; FD_Odds := fd; Gap_cents := 0; Avg_Gap_cents := 0;
     Books_Used := 4; Fair_Prob_pct := true_prob_pct; True_Prob_pct := true_prob_pct;
     EV_pct := ev; Confidence := conf; Badge := b; Kelly_pct := 0;
     Corr := FlagOK; Min_Med_IQR := None; Steam := false |}.

(** Two candidates of two different games with the same confidence 62:
    the first at -150 (EV 3.33%), the second at -120 (EV 13.67%). *)
Definition cand_a : row :=
  scored_row "BOS @ NYK" "Jalen Brunson" "Points" (49 # 2) (-150) 62 (333 # 100) 62 MED.
Definition cand_b : row :=
  scored_row "LAL @ DEN" "Nikola Jokic" "Rebounds" (23 # 2) (-120) 62 (1367 # 100) 62 MED.

End Samples.

(* ================================================================== *)
(** ** The break-even scenario in binary64 *)
(* ================================================================== *)
(** The same arithmetic on IEEE doubles, for the one scenario whose
    statement is about a rounding artifact. *)
Module Binary64.
Local Open Scope float_scope.

(** The branch [1 + (100.0/abs(a))] of [american_to_decimal]. *)
Definition decimal_of_negative (abs_a : float) : float := 1 + 100 / abs_a.

(** [ev_val * 100.0] with [ev_val = true_prob * fd_dec - 1.0]. *)
Definition ev_times_100 (true_prob fd_dec : float) : float :=
  (true_prob * fd_dec - 1) * 100.

#[warnings="-inexact-float"] Definition breakeven_ev : float := ev_times_100 0.6 (decimal_of_negative 150).

#[warnings="-inexact-float"] Definition half_cent : float := 0.005.

End Binary64.

(* ================================================================== *)
(** ** Further signal producers *)
(* ================================================================== *)
Module Signals.
Local Open Scope Q_scope.

(** What the minutes lookup of a player name comes to: no player id, a
    lookup that raised, or the [(med, iqr, n)] of [bdl_recent_minutes]. *)
Inductive minutes_lookup :=
| NoPlayer
| LookupFailed
| MinutesRead (med iqr : Q) (n : nat).

(** The argument [minutes_confidence_adjust] is given above: both failures
    end in its [(0.0, "")] result. *)
Definition minutes_read_of (lk : minutes_lookup) : option (Q * Q * nat) :=
  match lk with
  | MinutesRead med iqr n => Some (med, iqr, n)
  | NoPlayer | LookupFailed => None
  end.

(** [is_high_variance_player]. *)
Definition is_high_variance_player (lk : minutes_lookup) : bool :=
  match lk with
  | NoPlayer => false
  | LookupFailed => true
  | MinutesRead med iqr n =>
      if (n <? 5)%nat then true
      else
        let variance_ratio := iqr / Qmax 1 med in
        if Qlt_le_dec (4 # 10) variance_ratio then true else false
  end.

(** [side in ("Over", "Cover")]. *)
Definition over_like (side : string) : bool :=
  String.eqb side "Over" || String.eqb side "Cover".

(** [line_advantage]. *)
Definition line_advantage (fd_line : Q) (other_lines : list Q) (side : string) : Q :=
  match other_lines with
  | [] => 0
  | _ :: _ =>
      let mean_other := qsum other_lines / inject_Z (Z.of_nat (length other_lines)) in
      if over_like side then mean_other - fd_line else fd_line - mean_other
  end.

(** [count_worse_line]. *)
Definition count_worse_line (fd_line : Q) (other_lines : list Q) (side : string) : Z :=
  fold_left
    (fun (worse : Z) (ol : Q) =>
       let worse :=
         if over_like side && (if Qlt_le_dec (fd_line + (1 # 1000000000)) ol then true else false)
         then (worse + 1)%Z else worse in
       if String.eqb side "Under"
          && (if Qlt_le_dec ol (fd_line - (1 # 1000000000)) then true else false)
       then (worse + 1)%Z else worse)
    other_lines 0%Z.

(** A tick of the store, as the steam query returns it: [(ts, book, price)]. *)
Definition tick : Type := Z * string * Z.

Definition tick_dict : Type := list (string * (Z * Z)).

(** The loop of [steam_boost] over the query rows: first tick seen and
    tick of greatest time stamp, per sharp book. *)
Definition steam_scan (sharp_set : list string) (rows : list tick)
  : tick_dict * tick_dict :=
  fold_left
    (fun (st : tick_dict * tick_dict) (row : tick) =>
       let '(earliest, latest) := st in
       let '(ts, book, price) := row in
       if negb (existsb (String.eqb book) sharp_set) then st
       else
         let earliest := dict_setdefault String.eqb earliest book (ts, price) in
         let latest :=
           match dict_get String.eqb latest book with
           | None => dict_set String.eqb latest book (ts, price)
           | Some (t0, _) =>
               if (t0 <? ts)%Z then dict_set String.eqb latest book (ts, price)
               else latest
           end in
         (earliest, latest))
    rows ([], []).

(** The loop over the sharp books: total favourable move and the number of
    books that moved with the side. *)
Definition steam_moves (sharp_set : list string) (st : tick_dict * tick_dict)
  : Q * Z :=
  fold_left
    (fun (acc : Q * Z) (book : string) =>
       let '(total_move, books_moving_with) := acc in
       match dict_get String.eqb (fst st) book, dict_get String.eqb (snd st) book with
       | Some (_, price0), Some (_, price1) =>
           let delta := american_to_implied_prob price1 - american_to_implied_prob price0 in
           if Qlt_le_dec 0 delta then (total_move + delta, (books_moving_with + 1)%Z)
           else acc
       | _, _ => acc
       end)
    sharp_set (0, 0%Z).

(** [steam_boost], on the rows its query returned; [sharp_set] is the
    iteration order of the set of sharp books. *)
Definition steam_boost (sharp_set : list string) (rows : list tick) : Q :=
  match rows with
  | [] => 0
  | _ :: _ =>
      let '(total_move, books_moving_with) :=
        steam_moves sharp_set (steam_scan sharp_set rows) in
      if (books_moving_with =? 0)%Z then 0
      else
        let avg_move := total_move / inject_Z books_moving_with in
        if Qlt_le_dec avg_move (2 # 100) then 0
        else Qmin 2 (Qmax 0 ((avg_move - (2 # 100)) * 100 * (12 # 10)))
  end.

(** Whether a tick comes from a book of the sharp set. *)
Definition from_sharp_book (sharp_set : list string) (row : tick) : bool :=
  existsb (String.eqb (snd (fst row))) sharp_set.

(** One injury report row as the pressure map reads it: the canonical team
    of [team_key], the bucket of [_injury_bucket] (2 out, 1 doubtful, 0
    otherwise), and the player's recent median minutes (0 when unknown). *)
Record injury_row := {
  inj_team : string;
  inj_bucket : Z;
  inj_minutes : Q
}.

(** The minutes multiplier of an injured player. *)
Definition minutes_mult (med : Q) : Q :=
  if Qle_bool 32 med then 2
  else if Qle_bool 28 med then 16 # 10
  else if Qle_bool 24 med then 13 # 10
  else if Qle_bool 18 med then 1
  else if negb (Qle_bool med 0) then 7 # 10
  else 8 # 10.

(** The aggregation loop of [team_injury_pressure_map] (the rebuild, not
    the cached return); [team_filter] is [None] or the allowed teams. *)
Definition team_injury_pressure_map (team_filter : option (gset string))
           (injuries : list injury_row) : gmap string Z :=
  fold_left
    (fun (agg : gmap string Z) (row : injury_row) =>
       let canon := inj_team row in
       if String.eqb canon "" then agg
       else if match team_filter with
               | Some f => negb (bool_decide (f = ∅)) && negb (bool_decide (canon ∈ f))
               | None => false
               end then agg
       else
         let bucket := inj_bucket row in
         if (bucket =? 0)%Z then agg
         else
           let mult := minutes_mult (inj_minutes row) in
           let score_add := py_round (inject_Z bucket * mult) in
           let score_add := if (score_add <=? 0)%Z then 1%Z else score_add in
           <[ canon := (get_default agg canon 0 + score_add)%Z ]> agg)
    injuries ∅.

End Signals.
Export Signals.

(* ================================================================== *)
(** ** Pairs within a range *)
(* ================================================================== *)
Module PairRange.
Local Open Scope Q_scope.

(** A (value, weight) pair whose value lies in [[lo, hi]] and whose weight
    is positive: what every stage of [trimmed_weighted_mean] preserves. *)
Definition ranged_pair (lo hi : Q) (p : Q * Q) : Prop :=
  (lo <= fst p /\ fst p <= hi) /\ 0 < snd p.

End PairRange.
Export PairRange.

(* ================================================================== *)
(** ** Counting rows per game and per player *)
(* ================================================================== *)
Module Portfolio.

(** The number of rows of a list that belong to one game, or to one player. *)
Definition in_game (g : string) (l : list row) : nat :=
  length (List.filter (fun r => String.eqb (Matchup r) g) l).

Definition of_player (p : string) (l : list row) : nat :=
  length (List.filter (fun r => String.eqb (Player r) p) l).

(** The loop invariant of [enforce_portfolio_caps]: the two counters hold
    the number of kept rows of each game and of each player, and no count
    is above its cap. *)
Definition caps_invariant (max_per_game max_per_player : Z)
           (st : list row * gmap string Z * gmap string Z) : Prop :=
  let '(out, by_game, by_player) := st in
  (forall g, get_default by_game g 0%Z = Z.of_nat (in_game g out))
  /\ (forall p, get_default by_player p 0%Z = Z.of_nat (of_player p out))
  /\ (forall g, (Z.of_nat (in_game g out) <= Z.max 0 max_per_game)%Z)
  /\ (forall p, (Z.of_nat (of_player p out) <= Z.max 0 max_per_player)%Z).

End Portfolio.
Export Portfolio.

(* ================================================================== *)
(** ** Daily picks: [generate_picks.py] *)
(* ================================================================== *)
(** The selection that [generate_picks_json] makes from the rows that
    [scan_props] returned, and the parlays [_build_parlays] builds from
    them.  The pick text of [_format_pick] is display only: a formatted
    pick is kept as its rank and its row. *)
Module Picks.
Local Open Scope Q_scope.

(** Comparison of two-integer tuples, as Python compares sort keys. *)
Definition pair_le (a b : Z * Z) : bool :=
  (fst a <? fst b)%Z || ((fst a =? fst b)%Z && (snd a <=? snd b)%Z).

(** [list.sort(key=...)] with a tuple key; stable, like [sorted_by]. *)
Fixpoint insert_by_pair {A : Type} (key : A -> Z * Z) (x : A) (l : list A) : list A :=
  match l with
  | [] => [x]
  | y :: l' =>
      if pair_le (key x) (key y) then x :: l else y :: insert_by_pair key x l'
  end.

Definition sorted_by_pair {A : Type} (key : A -> Z * Z) (l : list A) : list A :=
  fold_right (insert_by_pair key) [] l.

(** [-250 <= fd_odds < -110 and confidence >= 55]. *)
Definition is_lock (r : row) : bool :=
  (-250 <=? FD_Odds r)%Z && (FD_Odds r <? -110)%Z && (55 <=? Confidence r)%Z.

(** [100 <= fd_odds <= 400 and confidence >= 35]. *)
Definition is_lotto (r : row) : bool :=
  (100 <=? FD_Odds r)%Z && (FD_Odds r <=? 400)%Z && (35 <=? Confidence r)%Z.

(** [-200 <= fd_odds <= 150 and confidence >= 50]. *)
Definition is_parlay_leg (r : row) : bool :=
  (-200 <=? FD_Odds r)%Z && (FD_Odds r <=? 150)%Z && (50 <=? Confidence r)%Z.

Definition locks_of (rows : list row) : list row :=
  let locks_pool := List.filter is_lock rows in
  let locks_pool :=
    sorted_by_pair (fun r => (- Confidence r, Z.abs (FD_Odds r + 150))%Z) locks_pool in
  py_slice locks_pool 0 3.

Definition lotto_tickets_of (rows : list row) : list row :=
  let lotto_pool := List.filter is_lotto rows in
  let lotto_pool := sorted_by (fun r => - inject_Z (Confidence r)) lotto_pool in
  py_slice lotto_pool 0 3.

(** [key in used_keys] for the set of key tuples of the chosen rows. *)
Definition key_in (k : key) (used_keys : list key) : bool :=
  existsb (key_eqb k) used_keys.

Definition parlay_pool_of (rows locks lotto_tickets : list row) : list row :=
  let used_keys := map row_key (locks ++ lotto_tickets) in
  let parlay_pool :=
    List.filter (fun r => negb (key_in (row_key r) used_keys) && is_parlay_leg r) rows in
  sorted_by (fun r => - inject_Z (Confidence r)) parlay_pool.

(** [enumerate(l)] with ranks starting at 1: the formatted picks. *)
Definition ranked (l : list row) : list (nat * row) :=
  combine (seq 1 (length l)) l.

(** The dictionary that [calc_parlay] returns, without the pick texts. *)
Record parlay := {
  legs : nat;
  details : list (nat * row);
  combined_odds : Z;
  confidence : Z;
  true_prob : Q
}.

(** The decimal price of one leg, as [calc_parlay] converts it. *)
Definition leg_decimal (fd_odds : Z) : Q :=
  if (0 <=? fd_odds)%Z then 1 + inject_Z fd_odds / 100
  else 1 + 100 / inject_Z (Z.abs fd_odds).

(** [round(x, 1)]. *)
Definition py_round1 (x : Q) : Q := inject_Z (py_round (x * 10)) / 10.

(** The two running products of [calc_parlay]. *)
Definition leg_products (combo : list row) : Q * Q :=
  fold_left
    (fun (st : Q * Q) (leg : row) =>
       let '(total_decimal, total_prob) := st in
       (total_decimal * leg_decimal (FD_Odds leg),
        total_prob * (inject_Z (Confidence leg) / 100)))
    combo (1, 1).

(** [calc_parlay(legs)]; [None] is the [ZeroDivisionError] of
    [-100 / (total_decimal - 1)] at a total price of exactly 1. *)
Definition calc_parlay (combo : list row) : option parlay :=
  let '(total_decimal, total_prob) := leg_products combo in
  let total_prob :=
    total_prob * Qpower (85 # 100) (Z.of_nat (length combo) - 1) in
  let finish (parlay_odds : Z) :=
    {| legs := length combo;
       details := ranked combo;
       combined_odds := parlay_odds;
       confidence := py_int (total_prob * 100);
       true_prob := py_round1 (total_prob * 100) |} in
  if Qle_bool 2 total_decimal then Some (finish (py_int ((total_decimal - 1) * 100)))
  else if Qeq_bool (total_decimal - 1) 0 then None
  else Some (finish (py_int (-100 / (total_decimal - 1)))).

(** [itertools.combinations(l, k)], in its order. *)
Fixpoint combinations {A : Type} (l : list A) (k : nat) {struct l} : list (list A) :=
  match k with
  | O => [[]]
  | S k' =>
      match l with
      | [] => []
      | x :: l' => map (cons x) (combinations l' k') ++ combinations l' k
      end
  end.

(** One search loop of [_build_parlays]: the first combination of the
    highest confidence above 0; [None] when [calc_parlay] raised. *)
Definition best_parlay (pool : list row) (k : nat) : option (option parlay * Z) :=
  fold_left
    (fun (st : option (option parlay * Z)) (combo : list row) =>
       match st with
       | None => None
       | Some (best, best_conf) =>
           match calc_parlay combo with
           | None => None
           | Some p =>
               if (best_conf <? confidence p)%Z then Some (Some p, confidence p)
               else Some (best, best_conf)
           end
       end)
    (combinations pool k) (Some (None, 0%Z)).

(** [if best: parlays.append(best)]. *)
Definition append_if_found (parlays : list parlay) (best : option parlay) : list parlay :=
  match best with
  | Some p => parlays ++ [p]
  | None => parlays
  end.

(** [_build_parlays(picks)]; [None] when an exception leaves the function. *)
Definition _build_parlays (picks : list row) : option (list parlay) :=
  if (length picks <? 4)%nat then Some []
  else
    match best_parlay (py_slice picks 0 8) 2 with
    | None => None
    | Some (best_2leg, _) =>
        let parlays := append_if_found [] best_2leg in
        match best_parlay (py_slice picks 0 10) 3 with
        | None => None
        | Some (best_3leg, _) =>
            let parlays := append_if_found parlays best_3leg in
            match best_parlay (py_slice picks 0 12) 4 with
            | None => None
            | Some (best_4leg, _) => Some (append_if_found parlays best_4leg)
            end
        end
    end.

(** The result dictionary of [generate_picks_json]. *)
Record picks := {
  locks : list (nat * row);
  lotto_tickets : list (nat * row);
  parlays : list parlay;
  error : bool
}.

(** The body of [generate_picks_json] from the rows [scan_props] returned;
    an exception in the parlay builder gives the error result, whose three
    lists are empty. *)
Definition generate_picks_json (rows : list row) : picks :=
  let locks := locks_of rows in
  let lotto_tickets := lotto_tickets_of rows in
  let parlay_pool := parlay_pool_of rows locks lotto_tickets in
  match _build_parlays (py_slice parlay_pool 0 15) with
  | Some parlays =>
      {| locks := ranked locks; lotto_tickets := ranked lotto_tickets;
         parlays := parlays; error := false |}
  | None =>
      {| locks := []; lotto_tickets := []; parlays := []; error := true |}
  end.

End Picks.

(* ================================================================== *)
(** * Properties *)
(* ================================================================== *)

Section PyNumFacts.
Local Open Scope Q_scope.

Lemma py_round_near (x : Q) :
  x - (1 # 2) <= inject_Z (py_round x) /\ inject_Z (py_round x) <= x + (1 # 2).
Proof.
  unfold py_round.
  pose proof (Qfloor_le x) as Hlo.
  pose proof (Qlt_floor x) as Hhi.
  rewrite inject_Z_plus in Hhi. change (inject_Z 1) with 1 in Hhi.
  destruct (Qcompare_spec (x - inject_Z (Qfloor x)) (1 # 2)) as [He | Hl | Hg].
  - destruct (Z.even (Qfloor x));
      [| rewrite inject_Z_plus; change (inject_Z 1) with 1]; lra.
  - lra.
  - rewrite inject_Z_plus. change (inject_Z 1) with 1. lra.
Qed.

#[local] Instance py_round_proper : Proper (Qeq ==> eq) py_round.
Proof.
  intros x y Hxy. unfold py_round.
  rewrite (Qfloor_comp _ _ Hxy).
  assert (Hd : x - inject_Z (Qfloor y) == y - inject_Z (Qfloor y)) by (rewrite Hxy; reflexivity).
  rewrite (Qcompare_comp _ _ Hd (1 # 2) (1 # 2) (Qeq_refl _)).
  reflexivity.
Qed.

Lemma inject_Z_le_inv (a b : Z) : inject_Z a <= inject_Z b -> (a <= b)%Z.
Proof. rewrite <- Zle_Qle. trivial. Qed.

Lemma inject_Z_lt_inv (a b : Z) : inject_Z a < inject_Z b -> (a < b)%Z.
Proof. rewrite <- Zlt_Qlt. trivial. Qed.

(** An integer is its own rounding. *)
Lemma py_round_inject_Z (z : Z) : py_round (inject_Z z) = z.
Proof.
  destruct (py_round_near (inject_Z z)) as [H1 H2].
  assert (Ha : inject_Z (z - 1) < inject_Z (py_round (inject_Z z))).
  { unfold Z.sub. rewrite inject_Z_plus. change (inject_Z (- (1))) with (- (1)). lra. }
  assert (Hb : inject_Z (py_round (inject_Z z)) < inject_Z (z + 1)).
  { rewrite inject_Z_plus. change (inject_Z 1) with 1. lra. }
  apply inject_Z_lt_inv in Ha, Hb. lia.
Qed.

(** Rounding is monotone. *)
Lemma py_round_mono (x y : Q) : x <= y -> (py_round x <= py_round y)%Z.
Proof.
  intros Hxy.
  destruct (Z_le_gt_dec (py_round x) (py_round y)) as [|Hgt]; [assumption|].
  exfalso.
  destruct (py_round_near x) as [_ Hx], (py_round_near y) as [Hy _].
  assert (H1 : inject_Z (py_round y + 1) <= inject_Z (py_round x)).
  { rewrite <- Zle_Qle. lia. }
  rewrite inject_Z_plus in H1. change (inject_Z 1) with 1 in H1.
  assert (Heq : x == y) by lra.
  rewrite (py_round_proper _ _ Heq) in Hgt. lia.
Qed.

(** Rounding keeps integer bounds. *)
Lemma py_round_between (lo hi : Z) (x : Q) :
  inject_Z lo <= x -> x <= inject_Z hi -> (lo <= py_round x <= hi)%Z.
Proof.
  intros Hlo Hhi.
  pose proof (py_round_mono _ _ Hlo) as H1.
  pose proof (py_round_mono _ _ Hhi) as H2.
  rewrite py_round_inject_Z in H1, H2. lia.
Qed.

End PyNumFacts.

(* ================================================================== *)
(** ** Odds conversions *)
(* ================================================================== *)
Section OddsFacts.
Local Open Scope Q_scope.

#[local] Instance implied_prob_to_american_proper :
  Proper (Qeq ==> eq) implied_prob_to_american.
Proof.
  intros p q Hpq. unfold implied_prob_to_american.
  assert (Hc : Qmax (1 # 1000000) (Qmin (1 - (1 # 1000000)) p) ==
               Qmax (1 # 1000000) (Qmin (1 - (1 # 1000000)) q))
    by (rewrite Hpq; reflexivity).
  set (p' := Qmax _ (Qmin _ p)) in *. set (q' := Qmax _ (Qmin _ q)) in *.
  rewrite (Qleb_comp _ _ (Qeq_refl (1 # 2)) _ _ Hc).
  destruct (Qle_bool (1 # 2) q'); apply py_round_proper; rewrite Hc; reflexivity.
Qed.

(** Inside the clamp window the clamp is the identity. *)
Lemma implied_prob_to_american_unclamped (p : Q) :
  (1 # 1000000) <= p -> p <= 1 - (1 # 1000000) ->
  implied_prob_to_american p =
    if Qle_bool (1 # 2) p then py_round ((-100) * p / (1 - p))
    else py_round (100 * (1 - p) / p).
Proof.
  intros Hlo Hhi. unfold implied_prob_to_american.
  assert (Hc : Qmax (1 # 1000000) (Qmin (1 - (1 # 1000000)) p) == p).
  { rewrite (Q.min_r _ _ Hhi). apply Q.max_r. exact Hlo. }
  set (p' := Qmax _ _) in *.
  rewrite (Qleb_comp _ _ (Qeq_refl (1 # 2)) _ _ Hc).
  destruct (Qle_bool (1 # 2) p); apply py_round_proper; rewrite Hc; reflexivity.
Qed.

Lemma implied_prob_favourite (a : Z) :
  (a <= -100)%Z ->
  american_to_implied_prob a == inject_Z (- a) / (inject_Z (- a) + 100).
Proof.
  intros Ha. unfold american_to_implied_prob.
  destruct (Z.leb_spec 100 a); [lia|].
  rewrite (Z.abs_neq a) by lia. reflexivity.
Qed.

Lemma implied_prob_underdog (a : Z) :
  (100 <= a)%Z -> american_to_implied_prob a == 100 / (inject_Z a + 100).
Proof.
  intros Ha. unfold american_to_implied_prob.
  destruct (Z.leb_spec 100 a); [reflexivity | lia].
Qed.

(** Probability to price, on a price longer than even money. *)
Lemma round_trip_underdog (a : Z) :
  (100 < a <= 99999900)%Z ->
  implied_prob_to_american (american_to_implied_prob a) = a.
Proof.
  intros [Hlo Hhi].
  rewrite (implied_prob_to_american_proper _ _ (implied_prob_underdog a ltac:(lia))).
  assert (Ha : 100 < inject_Z a) by (change 100 with (inject_Z 100); rewrite <- Zlt_Qlt; lia).
  assert (Hb : inject_Z a <= 99999900)
    by (change 99999900 with (inject_Z 99999900); rewrite <- Zle_Qle; lia).
  set (x := inject_Z a) in *.
  assert (Hp : 100 / (x + 100) == 100 * / (x + 100)) by reflexivity.
  assert (Hinv : 0 < / (x + 100)) by (apply Qinv_lt_0_compat; lra).
  assert (Hone : (x + 100) * / (x + 100) == 1) by (apply Qmult_inv_r; lra).
  rewrite implied_prob_to_american_unclamped.
  - assert (Hlt : 100 / (x + 100) < 1 # 2) by (rewrite Hp; nra).
    destruct (Qle_bool (1 # 2) (100 / (x + 100))) eqn:E.
    + apply Qle_bool_iff in E. lra.
    + rewrite <- (py_round_inject_Z a). apply py_round_proper.
      fold x. field; repeat split; lra.
  - rewrite Hp. nra.
  - rewrite Hp. nra.
Qed.

(** Probability to price, on a price shorter than or equal to even money. *)
Lemma round_trip_favourite (a : Z) :
  (-99999900 <= a <= -100)%Z ->
  implied_prob_to_american (american_to_implied_prob a) = a.
Proof.
  intros [Hlo Hhi].
  rewrite (implied_prob_to_american_proper _ _ (implied_prob_favourite a ltac:(lia))).
  assert (Ha : 100 <= inject_Z (- a)) by (change 100 with (inject_Z 100); rewrite <- Zle_Qle; lia).
  assert (Hb : inject_Z (- a) <= 99999900)
    by (change 99999900 with (inject_Z 99999900); rewrite <- Zle_Qle; lia).
  assert (Hx : inject_Z a == - inject_Z (- a)) by (rewrite inject_Z_opp; ring).
  set (x := inject_Z (- a)) in *.
  assert (Hp : x / (x + 100) == x * / (x + 100)) by reflexivity.
  assert (Hinv : 0 < / (x + 100)) by (apply Qinv_lt_0_compat; lra).
  assert (Hone : (x + 100) * / (x + 100) == 1) by (apply Qmult_inv_r; lra).
  rewrite implied_prob_to_american_unclamped.
  - assert (Hge : 1 # 2 <= x / (x + 100)) by (rewrite Hp; nra).
    destruct (Qle_bool (1 # 2) (x / (x + 100))) eqn:E.
    + rewrite <- (py_round_inject_Z a). apply py_round_proper.
      rewrite Hx. field; repeat split; lra.
    + apply Qle_bool_iff in Hge. congruence.
  - rewrite Hp. nra.
  - rewrite Hp. nra.
Qed.

(** The decimal price is the reciprocal of the implied probability. *)
Lemma decimal_times_implied (a : Z) (d : Q) :
  american_to_decimal a = Some d -> american_to_implied_prob a * d == 1.
Proof.
  unfold american_to_decimal, american_to_implied_prob.
  destruct (Z.leb_spec 100 a) as [Ha | Ha].
  - intros [= <-].
    assert (H : 100 <= inject_Z a)
      by (change 100 with (inject_Z 100); rewrite <- Zle_Qle; lia).
    field. lra.
  - destruct (Z.eqb_spec a 0) as [| Hnz]; [discriminate|].
    intros [= <-].
    assert (H : 1 <= inject_Z (Z.abs a))
      by (change 1 with (inject_Z 1); rewrite <- Zle_Qle; lia).
    field. split; lra.
Qed.

(** C9, as the code has it.  Price to implied probability to price returns
    the price for every American price of magnitude 100 to 99,999,900
    except +100, which comes back as -100; in all these cases the implied
    probability is the same before and after. *)
Theorem american_round_trip (a : Z) :
  (100 <= Z.abs a <= 99999900)%Z ->
  implied_prob_to_american (american_to_implied_prob a)
  = (if (a =? 100)%Z then (-100)%Z else a)
  /\ american_to_implied_prob (implied_prob_to_american (american_to_implied_prob a))
     == american_to_implied_prob a.
Proof.
  intros Ha.
  assert (Hrt : implied_prob_to_american (american_to_implied_prob a)
                = (if (a =? 100)%Z then (-100)%Z else a)).
  { destruct (Z.eqb_spec a 100) as [-> | Hne]; [vm_compute; reflexivity|].
    destruct (Z_lt_le_dec a 0).
    - apply round_trip_favourite. lia.
    - apply round_trip_underdog. lia. }
  split; [exact Hrt|]. rewrite Hrt.
  destruct (Z.eqb_spec a 100) as [-> | Hne]; reflexivity.
Qed.

Lemma american_round_trip_witness :
  implied_prob_to_american (american_to_implied_prob (-150)) = (-150)%Z.
Proof.
  apply (proj1 (american_round_trip (-150) ltac:(simpl; lia))).
Defined.

(** The round trip fails at even money, and beyond the clamp window. *)
Lemma american_round_trip_fails :
  implied_prob_to_american (american_to_implied_prob 100) <> 100%Z
  /\ implied_prob_to_american (american_to_implied_prob 100000000) <> 100000000%Z.
Proof. split; vm_compute; discriminate. Qed.

End OddsFacts.

(* ================================================================== *)
(** ** Sorting, median and extrema *)
(* ================================================================== *)
Section SortingFacts.
Local Open Scope Q_scope.
Context {A : Type} (key : A -> Q).

Lemma insert_by_In (x y : A) (l : list A) :
  In y (insert_by key x l) <-> y = x \/ In y l.
Proof.
  induction l as [| z l IH]; simpl.
  - intuition.
  - destruct (Qle_bool (key x) (key z)); simpl; [intuition|].
    rewrite IH. intuition.
Qed.

Lemma sorted_by_In (y : A) (l : list A) : In y (sorted_by key l) <-> In y l.
Proof.
  induction l as [| x l IH]; simpl; [tauto|].
  rewrite insert_by_In, IH. intuition.
Qed.

Lemma insert_by_length (x : A) (l : list A) :
  length (insert_by key x l) = S (length l).
Proof.
  induction l as [| z l IH]; simpl; [reflexivity|].
  destruct (Qle_bool (key x) (key z)); simpl; congruence.
Qed.

Lemma sorted_by_length (l : list A) : length (sorted_by key l) = length l.
Proof.
  induction l as [| x l IH]; simpl; [reflexivity|].
  rewrite insert_by_length. congruence.
Qed.

End SortingFacts.

Section MedianFacts.
Local Open Scope Q_scope.

(** The median of non-empty data exists. *)
Lemma median_defined (data : list Q) :
  data <> [] -> exists m, median data = Some m.
Proof.
  intros Hne. unfold median.
  pose proof (sorted_by_length (fun v => v) data) as Hlen.
  set (s := sorted_by _ data) in *.
  assert (Hpos : (0 < length s)%nat).
  { rewrite Hlen. destruct data; [congruence | simpl; lia]. }
  destruct (Nat.eqb_spec (length s) 0); [lia|].
  assert (Hhalf : (length s / 2 < length s)%nat)
    by (apply Nat.div_lt; lia).
  destruct (nth_error s (length s / 2)) as [b|] eqn:Eb;
    [| apply nth_error_None in Eb; lia].
  destruct (Nat.odd (length s)); [eauto|].
  destruct (nth_error s (length s / 2 - 1)) as [a|] eqn:Ea;
    [eauto | apply nth_error_None in Ea; lia].
Qed.

(** The median lies between any two bounds of the data. *)
Lemma median_between (data : list Q) (lo hi m : Q) :
  (forall v, In v data -> lo <= v /\ v <= hi) ->
  median data = Some m -> lo <= m /\ m <= hi.
Proof.
  intros Hb. unfold median.
  set (s := sorted_by _ data).
  assert (Hs : forall i v, nth_error s i = Some v -> lo <= v /\ v <= hi).
  { intros i v Hi. apply Hb. apply (sorted_by_In (fun v => v)).
    eapply nth_error_In; eauto. }
  destruct (length s =? 0)%nat; [discriminate|].
  destruct (Nat.odd (length s)).
  - intros Hm. eauto.
  - destruct (nth_error s (length s / 2 - 1)) as [a|] eqn:Ea; [|discriminate].
    destruct (nth_error s (length s / 2)) as [b|] eqn:Eb; [|discriminate].
    intros [= <-].
    destruct (Hs _ _ Ea), (Hs _ _ Eb).
    split.
    + apply Qle_shift_div_l; lra.
    + apply Qle_shift_div_r; lra.
Qed.

Lemma py_min_fold_le (l : list Q) (x : Q) :
  let m := fold_left (fun m v => if Qlt_le_dec v m then v else m) l x in
  m <= x /\ forall v, In v l -> m <= v.
Proof.
  revert x. induction l as [| y l IH]; intros x; simpl.
  - split; [lra | tauto].
  - destruct (Qlt_le_dec y x) as [Hlt | Hle].
    + destruct (IH y) as [H1 H2]. split; [lra|].
      intros v [<- | Hv]; auto.
    + destruct (IH x) as [H1 H2]. split; [lra|].
      intros v [<- | Hv]; [lra | auto].
Qed.

Lemma py_max_fold_ge (l : list Q) (x : Q) :
  let m := fold_left (fun m v => if Qlt_le_dec m v then v else m) l x in
  x <= m /\ forall v, In v l -> v <= m.
Proof.
  revert x. induction l as [| y l IH]; intros x; simpl.
  - split; [lra | tauto].
  - destruct (Qlt_le_dec x y) as [Hlt | Hle].
    + destruct (IH y) as [H1 H2]. split; [lra|].
      intros v [<- | Hv]; auto.
    + destruct (IH x) as [H1 H2]. split; [lra|].
      intros v [<- | Hv]; [lra | auto].
Qed.

(** Every sample lies between [min(values)] and [max(values)]. *)
Lemma py_min_max_bound (l : list Q) (v : Q) :
  In v l -> py_min l <= v /\ v <= py_max l.
Proof.
  destruct l as [| x l]; [intros []|].
  intros Hv. unfold py_min, py_max.
  destruct (py_min_fold_le l x) as [H1 H2], (py_max_fold_ge l x) as [H3 H4].
  destruct Hv as [<- | Hv]; split; auto.
Qed.

End MedianFacts.

(* ================================================================== *)
(** ** Sums and weighted means *)
(* ================================================================== *)
Section WeightedMeanFacts.
Local Open Scope Q_scope.
Import ConsensusSpec.

Lemma fold_Qplus_acc (l : list Q) (a : Q) : fold_left Qplus l a == a + qsum l.
Proof.
  unfold qsum. revert a. induction l as [| x l IH]; intros a; simpl.
  - ring.
  - rewrite (IH (a + x)), (IH (0 + x)). ring.
Qed.

Lemma qsum_cons (x : Q) (l : list Q) : qsum (x :: l) == x + qsum l.
Proof. unfold qsum at 1. simpl. rewrite fold_Qplus_acc. ring. Qed.

Lemma qsum_Forall2 (l l' : list Q) : Forall2 Qeq l l' -> qsum l == qsum l'.
Proof.
  induction 1 as [| x y l l' Hxy _ IH]; [reflexivity|].
  rewrite !qsum_cons, Hxy, IH. reflexivity.
Qed.

Lemma pair_eq_refl_list (l : list (Q * Q)) : Forall2 pair_eq l l.
Proof. induction l; constructor; [split; reflexivity | assumption]. Qed.

Lemma qsum_products_Forall2 (l l' : list (Q * Q)) :
  Forall2 pair_eq l l' ->
  qsum (map (fun p => fst p * snd p) l) == qsum (map (fun p => fst p * snd p) l')
  /\ qsum (map snd l) == qsum (map snd l').
Proof.
  induction 1 as [| p q l l' [Hv Hw] _ [IH1 IH2]]; simpl.
  - split; reflexivity.
  - rewrite !qsum_cons, Hv, Hw, IH1, IH2. split; reflexivity.
Qed.

Lemma truthy_false_iff (x : Q) : truthy x = false <-> x == 0.
Proof.
  unfold truthy. rewrite negb_false_iff. apply Qeq_bool_iff.
Qed.

(** The source's ratio and the reference weighted mean agree on equal pairs. *)
Lemma weighted_ratio_agrees (l l' : list (Q * Q)) :
  Forall2 pair_eq l l' -> agrees (weighted_ratio l) (weighted_mean l').
Proof.
  intros H. destruct (qsum_products_Forall2 _ _ H) as [Hn Hd].
  unfold weighted_ratio, weighted_mean, truthy.
  destruct (Qeq_bool (qsum (map snd l')) 0) eqn:E'.
  - apply Qeq_bool_iff in E'.
    assert (E : Qeq_bool (qsum (map snd l)) 0 = true)
      by (apply Qeq_bool_iff; rewrite Hd; exact E').
    rewrite E. exact I.
  - destruct (Qeq_bool (qsum (map snd l)) 0) eqn:E; simpl.
    + apply Qeq_bool_iff in E. rewrite Hd in E.
      apply Qeq_bool_iff in E. congruence.
    + rewrite Hn, Hd. reflexivity.
Qed.

(** Sums of a list of pairs whose values lie in [[lo, hi]] and whose weights
    are positive. *)
Lemma weighted_sums_between (lo hi : Q) (l : list (Q * Q)) :
  Forall (fun p => (lo <= fst p /\ fst p <= hi) /\ 0 < snd p) l ->
  let num := qsum (map (fun p => fst p * snd p) l) in
  let den := qsum (map snd l) in
  0 <= den /\ lo * den <= num /\ num <= hi * den /\ (l <> [] -> 0 < den).
Proof.
  induction 1 as [| [v w] l [[Hlo Hhi] Hw] _ IH]; simpl.
  - unfold qsum; simpl. repeat split; first [lra | congruence].
  - simpl in *. destruct IH as (Hd & Hl & Hh & _).
    rewrite !qsum_cons.
    set (num := qsum (map (fun p => fst p * snd p) l)) in *.
    set (den := qsum (map snd l)) in *.
    repeat split; try nra; intros _; lra.
Qed.

(** A weighted ratio over positive weights is a float inside the range. *)
Lemma weighted_ratio_between (lo hi : Q) (l : list (Q * Q)) :
  l <> [] ->
  Forall (fun p => (lo <= fst p /\ fst p <= hi) /\ 0 < snd p) l ->
  exists r, weighted_ratio l = Ret r /\ lo <= r /\ r <= hi.
Proof.
  intros Hne Hall.
  destruct (weighted_sums_between lo hi l Hall) as (_ & Hl & Hh & Hpos).
  specialize (Hpos Hne). unfold weighted_ratio.
  set (num := qsum (map (fun p => fst p * snd p) l)) in *.
  set (den := qsum (map snd l)) in *.
  destruct (truthy den) eqn:E.
  - eexists; split; [reflexivity|]. split.
    + apply Qle_shift_div_l; assumption.
    + apply Qle_shift_div_r; assumption.
  - apply truthy_false_iff in E. lra.
Qed.

End WeightedMeanFacts.

(* ================================================================== *)
(** ** The outlier loop of [trimmed_weighted_mean] *)
(* ================================================================== *)
Section OutlierLoopFacts.
Local Open Scope Q_scope.
Import ConsensusSpec.

Lemma combine_nth_error_fst {A B : Type} (l : list A) (l' : list B) (j : nat) (p : A * B) :
  nth_error (combine l l') j = Some p -> nth_error l j = Some (fst p).
Proof.
  revert l' j. induction l as [| a l IH]; intros [| b l'] [| j]; simpl; try discriminate.
  - intros [= <-]. reflexivity.
  - apply IH.
Qed.

Lemma combine_map_fst_eq {A B : Type} (l : list A) (l' : list B) :
  length l' = length l -> map fst (combine l l') = l.
Proof.
  revert l'. induction l as [| a l IH]; intros [| b l']; simpl; try discriminate.
  - reflexivity.
  - intros [= H]. rewrite IH; auto.
Qed.

Lemma combine_map_snd_eq {A B : Type} (l : list A) (l' : list B) :
  length l' = length l -> map snd (combine l l') = l'.
Proof.
  revert l'. induction l as [| a l IH]; intros [| b l']; simpl; try discriminate.
  - reflexivity.
  - intros [= H]. rewrite IH; auto.
Qed.

Lemma filter_fst_length {B : Type} (f : Q -> bool) (l : list (Q * B)) :
  length (List.filter (fun p => f (fst p)) l) = length (List.filter f (map fst l)).
Proof.
  induction l as [| [v w] l IH]; simpl; [reflexivity|].
  destruct (f v); simpl; congruence.
Qed.

(** The loop appends the down-weighted pairs and counts the flagged ones. *)
Lemma outlier_fold (med mad : Q) (zs : list Q) (pairs : list (Q * Q)) :
  forall (start : nat) (acc : list (Q * Q)) (cnt : nat),
  (forall j p, nth_error pairs j = Some p ->
               nth (start + j) zs 0 = modified_z med mad (fst p)) ->
  fold_left (outlier_step zs) (combine (seq start (length pairs)) pairs) (acc, cnt)
  = (acc ++ map (down_weight med mad) pairs,
     (cnt + length (List.filter (fun p => is_outlier med mad (fst p)) pairs))%nat).
Proof.
  induction pairs as [| [v w] t IH]; intros start acc cnt Hz;
    cbn [length seq combine fold_left map List.filter].
  - rewrite app_nil_r, Nat.add_0_r. reflexivity.
  - pose proof (Hz 0%nat (v, w) eq_refl) as H0.
    rewrite Nat.add_0_r in H0. cbn [fst] in H0.
    assert (Hstep : outlier_step zs (acc, cnt) (start, (v, w))
                    = (acc ++ [down_weight med mad (v, w)],
                       if is_outlier med mad v then S cnt else cnt)).
    { unfold outlier_step, down_weight, is_outlier. cbn [fst snd].
      rewrite H0. destruct (Qlt_le_dec _ _); reflexivity. }
    assert (Ht : forall j p, nth_error t j = Some p ->
                 nth (S start + j) zs 0 = modified_z med mad (fst p)).
    { intros j p Hj. specialize (Hz (S j) p Hj).
      rewrite <- Hz. f_equal. lia. }
    rewrite Hstep, (IH _ _ _ Ht), <- app_assoc. cbn [app fst].
    destruct (is_outlier med mad v); cbn [length]; f_equal; lia.
Qed.

(** The loop run by [trimmed_weighted_mean], from its initial state. *)
Lemma outlier_loop (med mad : Q) (values weights : list Q) :
  length weights = length values ->
  fold_left
    (outlier_step (map (fun v => (6745 # 10000) * (v - med) / mad) values))
    (combine (seq 0 (length values)) (combine values weights)) ([], 0%nat)
  = (map (down_weight med mad) (combine values weights),
     length (List.filter (is_outlier med mad) values)).
Proof.
  intros Hlen.
  assert (Hn : length values = length (combine values weights))
    by (rewrite length_combine; lia).
  rewrite Hn at 1.
  rewrite (outlier_fold med mad).
  - cbn [app Nat.add]. f_equal.
    rewrite filter_fst_length, combine_map_fst_eq; auto.
  - intros j p Hj. apply combine_nth_error_fst in Hj. cbn [Nat.add].
    erewrite nth_error_nth; [reflexivity|].
    rewrite nth_error_map, Hj. reflexivity.
Qed.

End OutlierLoopFacts.

(* ================================================================== *)
(** ** [trimmed_weighted_mean], branch by branch *)
(* ================================================================== *)
Section ConsensusBranches.
Local Open Scope Q_scope.
Import ConsensusSpec.

(** At most three samples: the plain median. *)
Lemma twm_small (values ws : list Q) (trim : Q) :
  values <> [] -> length ws = length values -> (length values <= 3)%nat ->
  trimmed_weighted_mean values (WList ws) trim =
    match median values with
    | Some m => Ret m
    | None => Raise StatisticsError
    end.
Proof.
  intros Hne Hlen Hn. unfold trimmed_weighted_mean.
  destruct values as [| v vs]; [congruence|].
  rewrite Hlen, Nat.eqb_refl. cbv beta iota zeta.
  destruct (Nat.leb_spec (length (v :: vs)) 3); [reflexivity | lia].
Qed.

(** More than three samples: the three branches, with the loop resolved. *)
Lemma twm_large (values ws : list Q) (trim med mad : Q) :
  (3 < length values)%nat -> length ws = length values ->
  median values = Some med -> mad_of med values = Some mad ->
  trimmed_weighted_mean values (WList ws) trim =
    if Qlt_le_dec mad (1 # 1000) then
      if truthy (qsum ws)
      then Ret (qsum (map (fun p => fst p * snd p) (combine values ws)) / qsum ws)
      else Raise ZeroDivisionError
    else if Qlt_le_dec (inject_Z (Z.of_nat (length values)) * (2 # 5))
                       (inject_Z (Z.of_nat (length (List.filter (is_outlier med mad) values))))
    then weighted_ratio (hard_pairs values ws trim)
    else weighted_ratio (map (down_weight med mad) (combine values ws)).
Proof.
  intros Hn Hlen Hmed Hmad. unfold trimmed_weighted_mean.
  destruct values as [| v vs]; [simpl in Hn; lia|].
  rewrite Hlen, Nat.eqb_refl. cbv beta iota zeta.
  destruct (Nat.leb_spec (length (v :: vs)) 3); [lia|].
  unfold mad_of in Hmad. rewrite Hmed, Hmad.
  destruct (Qlt_le_dec mad (1 # 1000)); [reflexivity|].
  rewrite (outlier_loop med mad (v :: vs) ws Hlen).
  reflexivity.
Qed.

End ConsensusBranches.

(* ================================================================== *)
(** ** Consensus stays inside the sample range *)
(* ================================================================== *)
Section ConsensusRange.
Local Open Scope Q_scope.
Import ConsensusSpec.

Lemma combine_Forall {A B : Type} (P : A -> Prop) (R : B -> Prop)
      (l : list A) (l' : list B) :
  (forall a, In a l -> P a) -> Forall R l' ->
  Forall (fun p => P (fst p) /\ R (snd p)) (combine l l').
Proof.
  intros HP HR. revert l HP.
  induction HR as [| b l' Hb _ IH]; intros [| a l] HP; simpl; constructor.
  - split; [apply HP; left; reflexivity | exact Hb].
  - apply IH. intros a' Ha'. apply HP. right. exact Ha'.
Qed.

Lemma combine_fst_snd {A B : Type} (l : list (A * B)) :
  combine (map fst l) (map snd l) = l.
Proof. induction l as [| [a b] l IH]; simpl; congruence. Qed.

Lemma down_weight_fst (med mad : Q) (l : list (Q * Q)) :
  map fst (map (down_weight med mad) l) = map fst l.
Proof.
  induction l as [| p l IH]; simpl; [reflexivity|].
  rewrite IH. unfold down_weight. destruct (is_outlier med mad (fst p)); reflexivity.
Qed.

Lemma down_weight_positive (med mad : Q) (P : Q -> Prop) (l : list (Q * Q)) :
  Forall (fun p => P (fst p) /\ 0 < snd p) l ->
  Forall (fun p => P (fst p) /\ 0 < snd p) (map (down_weight med mad) l).
Proof.
  induction 1 as [| p l [Hv Hw] _ IH]; simpl; constructor; [|assumption].
  unfold down_weight. destruct (is_outlier med mad (fst p)); simpl; split; auto; lra.
Qed.

(** The two ways of writing "more than 40% of the sample". *)
Lemma fraction_test (med mad : Q) (values : list Q) :
  values <> [] ->
  (2 # 5 < outlier_fraction med mad values <->
   inject_Z (Z.of_nat (length values)) * (2 # 5)
   < inject_Z (Z.of_nat (length (List.filter (is_outlier med mad) values)))).
Proof.
  intros Hne. unfold outlier_fraction.
  set (c := inject_Z (Z.of_nat (length (List.filter _ values)))).
  assert (Hn : 0 < inject_Z (Z.of_nat (length values))).
  { change 0 with (inject_Z 0). rewrite <- Zlt_Qlt.
    destruct values; [congruence | simpl; lia]. }
  set (n := inject_Z (Z.of_nat (length values))) in *.
  assert (Hinv : 0 < / n) by (apply Qinv_lt_0_compat; exact Hn).
  assert (Hone : n * / n == 1) by (apply Qmult_inv_r; lra).
  assert (Hdiv : c / n == c * / n) by reflexivity.
  rewrite Hdiv. split; intros H; nra.
Qed.

(** C1.  For a non-empty sample with positive weights, a sample of at most
    three points yields its plain median, and both that and the result of
    the soft path (hard trimming not taken) are returned floats inside
    [[min(values), max(values)]]; on the soft path the result is a weighted
    mean of the samples under positive weights.  The three books quoting
    0.52, 0.54, 0.90 (weights 1.0, trim 0.15) give 0.54: within 0.01 of 0.53
    and well under 0.65. *)
Theorem consensus_within_sample_range :
  (forall (values ws : list Q) (trim : Q),
      values <> [] -> length ws = length values ->
      Forall (fun w => 0 < w) ws ->
      (length values <= 3)%nat \/ hard_trim_applies values = false ->
      exists r,
        trimmed_weighted_mean values (WList ws) trim = Ret r
        /\ (py_min values <= r /\ r <= py_max values)
        /\ ((length values <= 3)%nat -> median values = Some r)
        /\ ((3 < length values)%nat ->
            exists ws', length ws' = length values
                        /\ Forall (fun w => 0 < w) ws'
                        /\ agrees (Ret r) (weighted_mean (combine values ws'))))
  /\ (exists r,
        trimmed_weighted_mean [52 # 100; 54 # 100; 90 # 100] (WList [1; 1; 1]) (15 # 100)
        = Ret r
        /\ r == 54 # 100 /\ Qabs (r - (53 # 100)) <= 1 # 100 /\ r < 65 # 100).
Proof.
  split.
  2:{ exists (54 # 100). repeat split; vm_compute; congruence. }
  intros values ws trim Hne Hlen Hpos Hpath.
  assert (Hrange : forall v, In v values -> py_min values <= v /\ v <= py_max values)
    by (intros v Hv; apply py_min_max_bound; exact Hv).
  destruct (median_defined values Hne) as [med Hmed].
  destruct (le_gt_dec (length values) 3) as [Hsmall | Hbig].
  - rewrite twm_small by assumption. rewrite Hmed.
    exists med. split; [reflexivity|]. split.
    + exact (median_between values _ _ med Hrange Hmed).
    + split; [intros _; reflexivity | intros; lia].
  - destruct Hpath as [? | Hsoft]; [lia|].
    assert (Hdev : map (fun x => Qabs (x - med)) values <> [])
      by (destruct values; simpl; congruence).
    destruct (median_defined _ Hdev) as [mad Hmad].
    rewrite (twm_large values ws trim med mad) by assumption.
    unfold hard_trim_applies in Hsoft. rewrite Hmed in Hsoft.
    unfold mad_of in Hsoft. rewrite Hmad in Hsoft.
    pose proof (combine_Forall _ _ values ws Hrange Hpos) as Hall.
    assert (Hcne : combine values ws <> []).
    { destruct values, ws; simpl in *; congruence. }
    destruct (Qlt_le_dec mad (1 # 1000)) as [Hneg | Hmadpos].
    + destruct (weighted_ratio_between _ _ _ Hcne Hall) as (r & Hr & Hb).
      pose proof (weighted_ratio_agrees _ _ (pair_eq_refl_list (combine values ws))) as Hag.
      rewrite Hr in Hag. unfold weighted_ratio in Hr.
      rewrite (combine_map_snd_eq values ws Hlen) in Hr.
      destruct (truthy (qsum ws)); [|discriminate].
      injection Hr as <-.
      eexists. split; [reflexivity|]. split; [exact Hb|].
      split; [intros; lia|]. intros _. exists ws. auto.
    + destruct (Qlt_le_dec (2 # 5) (outlier_fraction med mad values)) as [? | Hfrac];
        [discriminate|].
      destruct (Qlt_le_dec _ _) as [Hc | _];
        [apply (fraction_test med mad values Hne) in Hc; lra|].
      pose proof (down_weight_positive med mad _ _ Hall) as Hall'.
      assert (Hne' : map (down_weight med mad) (combine values ws) <> [])
        by (destruct (combine values ws); simpl; congruence).
      destruct (weighted_ratio_between _ _ _ Hne' Hall') as (r & Hr & Hb).
      exists r. split; [exact Hr|]. split; [exact Hb|].
      split; [intros; lia|]. intros _.
      exists (map snd (map (down_weight med mad) (combine values ws))).
      assert (Hfst : map fst (map (down_weight med mad) (combine values ws)) = values)
        by (rewrite down_weight_fst; apply combine_map_fst_eq; exact Hlen).
      split; [rewrite <- Hfst at 2; rewrite !length_map; reflexivity|].
      split.
      * apply List.Forall_map. revert Hall'. apply List.Forall_impl.
        intros p [_ Hw]. exact Hw.
      * rewrite <- Hfst at 1. rewrite combine_fst_snd, <- Hr.
        apply weighted_ratio_agrees, pair_eq_refl_list.
Qed.

(** The range property at a five-book sample with one rogue quote. *)
Lemma consensus_within_sample_range_witness :
  exists r,
    trimmed_weighted_mean [50 # 100; 51 # 100; 52 # 100; 53 # 100; 90 # 100]
                          (WList [1; 1; 1; 1; 1]) (15 # 100) = Ret r
    /\ (50 # 100 <= r /\ r <= 90 # 100).
Proof.
  destruct (proj1 consensus_within_sample_range
              [50 # 100; 51 # 100; 52 # 100; 53 # 100; 90 # 100]
              [1; 1; 1; 1; 1] (15 # 100))
    as (r & Hr & Hb & _).
  - discriminate.
  - reflexivity.
  - repeat constructor.
  - right. vm_compute. reflexivity.
  - exists r. split; [exact Hr | exact Hb].
Defined.

End ConsensusRange.

(* ================================================================== *)
(** ** The source against the worded algorithm *)
(* ================================================================== *)
Section ConsensusRefinement.
Local Open Scope Q_scope.
Import ConsensusSpec.






End ConsensusRefinement.

(* ================================================================== *)
(** ** Clamping and two-decimal rounding *)
(* ================================================================== *)
Section ClampFacts.
Local Open Scope Q_scope.

Lemma clamp_between (x lo hi : Q) :
  lo <= hi -> lo <= clamp x lo hi /\ clamp x lo hi <= hi.
Proof.
  intros H. unfold clamp. split.
  - apply Q.le_max_l.
  - apply Q.max_lub; [exact H | apply Q.le_min_l].
Qed.

Lemma clamp_inside (x lo hi : Q) : lo <= x -> x <= hi -> clamp x lo hi == x.
Proof.
  intros Hlo Hhi. unfold clamp.
  rewrite (Q.min_r _ _ Hhi). apply Q.max_r. exact Hlo.
Qed.

Lemma clamp_mono (x y lo hi : Q) : x <= y -> clamp x lo hi <= clamp y lo hi.
Proof.
  intros H. unfold clamp.
  apply Q.max_le_compat_l, Q.min_le_compat_l. exact H.
Qed.


(** Rounding to hundredths keeps bounds that are themselves hundredths. *)
Lemma py_round2_between (a b : Z) (x : Q) :
  inject_Z a / 100 <= x -> x <= inject_Z b / 100 ->
  inject_Z a / 100 <= py_round2 x /\ py_round2 x <= inject_Z b / 100.
Proof.
  intros Ha Hb. unfold py_round2.
  assert (Hx : inject_Z a <= x * 100 /\ x * 100 <= inject_Z b).
  { assert (Ea : inject_Z a / 100 * 100 == inject_Z a) by field.
    assert (Eb : inject_Z b / 100 * 100 == inject_Z b) by field.
    split; lra. }
  destruct (py_round_between a b (x * 100) (proj1 Hx) (proj2 Hx)) as [H1 H2].
  rewrite Zle_Qle in H1, H2.
  set (r := inject_Z (py_round (x * 100))) in *.
  assert (Ea : inject_Z a / 100 == inject_Z a * (1 # 100)) by field.
  assert (Eb : inject_Z b / 100 == inject_Z b * (1 # 100)) by field.
  assert (Er : r / 100 == r * (1 # 100)) by field.
  rewrite Ea, Eb, Er. split; lra.
Qed.

End ClampFacts.

(* ================================================================== *)
(** ** Confidence score and badge tier *)
(* ================================================================== *)
Section ConfidenceFacts.
Local Open Scope Q_scope.


Lemma confidence_value (th : gmap string Z) (tp i m s : Q) :
  fst (confidence_score_from_prob th tp i m s)
  = py_round (clamp (tp + (i + m + s) * (1 # 100)) 0 1 * 100).
Proof.
  unfold confidence_score_from_prob. cbn [fst].
  apply py_round_proper.
  destruct (clamp_between (tp + (i + m + s) * (1 # 100)) 0 1 ltac:(lra)) as [H0 H1].
  rewrite (clamp_inside _ 0 1 H0 H1). reflexivity.
Qed.




End ConfidenceFacts.

(* ================================================================== *)
(** ** Correlation-adjusted Kelly stake *)
(* ================================================================== *)
Section KellyFacts.
Local Open Scope Q_scope.







End KellyFacts.

(* ================================================================== *)
(** ** Team injury pressure bump *)
(* ================================================================== *)
Section TeamPressureFacts.
Local Open Scope R_scope.
Variable team_key : string -> string.

Lemma tanh_odd (x : R) : tanh (- x) = - tanh x.
Proof.
  unfold tanh, sinh, cosh. rewrite Ropp_involutive.
  pose proof (exp_pos x). pose proof (exp_pos (- x)).
  field. Lra.lra.
Qed.

Lemma Rclamp_between (x c : R) : 0 <= c -> - c <= Rclamp x (- c) c <= c.
Proof.
  intros Hc. unfold Rclamp, Rmax, Rmin.
  destruct (Rle_dec c x); destruct (Rle_dec (- c) _); Lra.lra.
Qed.

Lemma Rclamp_odd (x c : R) : 0 <= c -> Rclamp (- x) (- c) c = - Rclamp x (- c) c.
Proof.
  intros Hc. unfold Rclamp, Rmax, Rmin.
  destruct (Rle_dec c (- x)); destruct (Rle_dec c x);
    repeat match goal with |- context [Rle_dec ?a ?b] => destruct (Rle_dec a b) end;
    Lra.lra.
Qed.

(** The raw bump is an odd function of the pressure differential. *)
Lemma bump_odd (d mx : Z) :
  Rclamp (tanh (IZR (- d) / IZR mx * 1) * (4 / 100)) (- (5 / 100)) (5 / 100)
  = - Rclamp (tanh (IZR d / IZR mx * 1) * (4 / 100)) (- (5 / 100)) (5 / 100).
Proof.
  rewrite <- Rclamp_odd by Lra.lra. f_equal.
  replace (IZR (- d) / IZR mx * 1) with (- (IZR d / IZR mx * 1))
    by (rewrite opp_IZR; unfold Rdiv; ring).
  rewrite tanh_odd. ring.
Qed.

(** C10.  For every map state and every two names the bump lies in
    [[-0.05, 0.05]], it is 0 when both pressure scores are 0, and swapping
    the two names swaps the two scores and negates differential and bump. *)
Theorem team_pressure_bump_bounded_antisymmetric
        (m : gmap string Z) (team_name opponent_name : string) :
  let '(t, o, diff, bump) := team_pressure_scores team_key m team_name opponent_name in
  (- (5 / 100) <= bump <= 5 / 100)
  /\ (get_default m (team_key team_name) 0%Z = 0%Z ->
      get_default m (team_key opponent_name) 0%Z = 0%Z -> bump = 0)
  /\ team_pressure_scores team_key m opponent_name team_name
     = (o, t, (- diff)%Z, - bump).
Proof.
  unfold team_pressure_scores.
  set (t := get_default m (team_key team_name) 0%Z).
  set (o := get_default m (team_key opponent_name) 0%Z).
  destruct (Z.eqb_spec t 0) as [Ht | Ht]; destruct (Z.eqb_spec o 0) as [Ho | Ho];
    cbn [andb].
  - split; [Lra.lra|]. split; [reflexivity|]. f_equal. Lra.lra.
  - split; [apply Rclamp_between; Lra.lra|]. split; [intros _ H; contradiction|].
    f_equal; [f_equal; lia|].
    rewrite (Z.max_comm o t).
    replace (t - o)%Z with (- (o - t))%Z by lia.
    apply bump_odd.
  - split; [apply Rclamp_between; Lra.lra|]. split; [intros H; contradiction|].
    f_equal; [f_equal; lia|].
    rewrite (Z.max_comm o t).
    replace (t - o)%Z with (- (o - t))%Z by lia.
    apply bump_odd.
  - split; [apply Rclamp_between; Lra.lra|]. split; [intros H; contradiction|].
    f_equal; [f_equal; lia|].
    rewrite (Z.max_comm o t).
    replace (t - o)%Z with (- (o - t))%Z by lia.
    apply bump_odd.
Qed.

End TeamPressureFacts.

(* ================================================================== *)
(** ** Correlation penalties are never negative *)
(* ================================================================== *)
Section PenaltyFacts.
Local Open Scope Z_scope.

Lemma dict_get_nonneg (pen : pen_dict) (k : key) :
  nonneg_dict pen -> 0 <= default 0 (dict_get key_eqb pen k).
Proof.
  induction 1 as [| [k' v] pen Hv _ IH]; simpl; [lia|].
  destruct (key_eqb k' k); simpl; [exact Hv | exact IH].
Qed.

Lemma dict_set_nonneg (pen : pen_dict) (k : key) (v : Z) :
  nonneg_dict pen -> 0 <= v -> nonneg_dict (dict_set key_eqb pen k v).
Proof.
  intros H Hv. induction H as [| [k' v'] pen Hv' Hpen IH]; simpl.
  - repeat constructor. exact Hv.
  - destruct (key_eqb k' k); constructor; auto.
Qed.

Lemma dict_setdefault_nonneg (pen : pen_dict) (k : key) :
  nonneg_dict pen -> nonneg_dict (dict_setdefault key_eqb pen k 0).
Proof.
  intros H. unfold dict_setdefault.
  destruct (dict_get key_eqb pen k); [exact H|].
  apply dict_set_nonneg; [exact H | lia].
Qed.

Lemma py_int_nonneg (x : Q) : (0 <= x)%Q -> 0 <= py_int x.
Proof.
  intros Hx. unfold py_int.
  destruct (Qlt_le_dec x 0); [lra|].
  change 0 with (Qfloor 0). apply Qfloor_resp_le. exact Hx.
Qed.

(** A fold whose every step keeps an invariant keeps it. *)
Lemma fold_left_invariant {S X : Type} (P : S -> Prop) (f : S -> X -> S)
      (l : list X) (s : S) :
  (forall s x, P s -> P (f s x)) -> P s -> P (fold_left f l s).
Proof.
  intros Hf. revert s. induction l as [| x l IH]; simpl; auto.
Qed.

Lemma player_step_nonneg (st : pen_dict * flag_dict) (entry : string * list key) :
  nonneg_dict (fst st) -> nonneg_dict (fst (player_step st entry)).
Proof.
  intros H. unfold player_step.
  destruct (1 <? length (snd entry))%nat; [|exact H].
  apply (fold_left_invariant (fun st => nonneg_dict (fst st))); [|exact H].
  intros [pen flag] [i k] Hpen. cbn [fst] in *.
  apply dict_set_nonneg; [exact Hpen|].
  pose proof (dict_get_nonneg pen k Hpen).
  assert (0 <= py_int (inject_Z (Z.min 20 (Z.of_nat i * 5))
                       * (if (1 <? distinct (map key_market (snd entry)))%nat
                          then 1 # 2 else 1))).
  { apply py_int_nonneg.
    assert (Hb : (0 <= inject_Z (Z.min 20 (Z.of_nat i * 5)))%Q)
      by (change 0%Q with (inject_Z 0); rewrite <- Zle_Qle; lia).
    destruct (1 <? distinct (map key_market (snd entry)))%nat; nra. }
  lia.
Qed.

Lemma game_step_nonneg (st : pen_dict * flag_dict) (entry : string * list key) :
  nonneg_dict (fst st) -> nonneg_dict (fst (game_step st entry)).
Proof.
  intros H. unfold game_step.
  destruct (2 <? length (snd entry))%nat; [|exact H].
  apply (fold_left_invariant (fun st => nonneg_dict (fst st))); [|exact H].
  intros [pen flag] k Hpen. cbn [fst] in *.
  apply dict_set_nonneg; [exact Hpen|].
  pose proof (dict_get_nonneg pen k Hpen). lia.
Qed.

(** Every penalty that [correlation_penalty] hands out is non-negative. *)
Lemma correlation_penalty_nonneg (rows : list row) :
  nonneg_dict (fst (correlation_penalty rows)).
Proof.
  unfold correlation_penalty.
  apply (fold_left_invariant (fun st => nonneg_dict (fst st))).
  - intros [pen flag] r Hpen. cbn [fst] in *. apply dict_setdefault_nonneg, Hpen.
  - apply (fold_left_invariant (fun st => nonneg_dict (fst st))).
    + intros st entry. apply game_step_nonneg.
    + apply (fold_left_invariant (fun st => nonneg_dict (fst st))).
      * intros st entry. apply player_step_nonneg.
      * constructor.
Qed.

Lemma total_penalty_points_nonneg (legs : list row) :
  0 <= total_penalty_points legs.
Proof.
  unfold total_penalty_points.
  pose proof (correlation_penalty_nonneg legs) as Hpen.
  apply (fold_left_invariant (fun total => 0 <= total)); [|lia].
  intros total r Ht.
  pose proof (dict_get_nonneg _ (row_key r) Hpen). lia.
Qed.

End PenaltyFacts.

(* ================================================================== *)
(** ** Parlay metrics *)
(* ================================================================== *)
Section ParlayFacts.

Lemma parlay_fold_products (legs : list row) (a b : Q) :
  let acc := fold_left (fun (acc : Q * Q) r =>
                          (fst acc * _row_true_prob r, snd acc * _row_dec_odds r)%Q)
                       legs (a, b) in
  (fst acc == a * qprod (map _row_true_prob legs))%Q
  /\ (snd acc == b * qprod (map _row_dec_odds legs))%Q.
Proof.
  revert a b. induction legs as [| r legs IH]; intros a b; simpl.
  - split; ring.
  - destruct (IH (a * _row_true_prob r)%Q (b * _row_dec_odds r)%Q) as [H1 H2].
    cbn [fst snd] in *. rewrite H1, H2. split; ring.
Qed.

Lemma qprod_nonneg (l : list Q) :
  Forall (fun x => (0 <= x)%Q) l -> (0 <= qprod l)%Q.
Proof.
  induction 1 as [| x l Hx _ IH]; simpl; [lra | nra].
Qed.

(** The independence discount lies in [[0.30, 1]]. *)
Lemma discount_between (legs : list row) :
  (3 / 10 <= _parlay_independence_discount legs <= 1)%R.
Proof.
  unfold _parlay_independence_discount.
  pose proof (total_penalty_points_nonneg legs) as Hpts.
  set (x := (IZR (- total_penalty_points legs) / 20)%R).
  assert (Hx : (x <= 0)%R).
  { unfold x. rewrite opp_IZR. apply IZR_le in Hpts. Lra.lra. }
  assert (He : (exp x <= 1)%R).
  { rewrite <- exp_0. destruct Hx as [Hlt | ->]; [|apply Rle_refl].
    left. apply exp_increasing. exact Hlt. }
  split; [apply Rmax_l|]. apply Rmax_lub; [Lra.lra | exact He].
Qed.

(** C7.  For a non-empty list of legs, the combined decimal odds are the
    product of the legs' decimal odds; the combined hit probability is the
    product of the legs' true probabilities times
    [max(0.30, exp(-total_penalty_points/20))]; the penalty points are not
    negative and the discount is at most 1, so with non-negative leg
    probabilities the combined probability does not exceed their product. *)
Theorem parlay_metrics_products (legs : list row) :
  legs <> [] ->
  let '(p, dec, ev) := _parlay_metrics legs in
  (dec == qprod (map _row_dec_odds legs))%Q
  /\ p = (Q2R (qprod (map _row_true_prob legs))
          * Rmax (3 / 10) (exp (IZR (- total_penalty_points legs) / 20)))%R
  /\ (0 <= total_penalty_points legs)%Z
  /\ (Rmax (3 / 10) (exp (IZR (- total_penalty_points legs) / 20)) <= 1)%R
  /\ (Forall (fun r => (0 <= _row_true_prob r)%Q) legs ->
      (p <= Q2R (qprod (map _row_true_prob legs)))%R).
Proof.
  intros Hne. unfold _parlay_metrics.
  destruct legs as [| r0 legs0]; [congruence|].
  set (legs := r0 :: legs0) in *.
  pose proof (parlay_fold_products legs 1 1) as Hfold.
  destruct (fold_left _ legs (1%Q, 1%Q)) as [pq dq]. cbn [fst snd] in Hfold.
  destruct Hfold as [Hp Hd].
  assert (Hp' : (pq == qprod (map _row_true_prob legs))%Q) by (rewrite Hp; ring).
  assert (Hd' : (dq == qprod (map _row_dec_odds legs))%Q) by (rewrite Hd; ring).
  pose proof (discount_between legs) as [Hlo Hhi].
  unfold _parlay_independence_discount in *.
  split; [exact Hd'|]. split; [rewrite (Qeq_eqR _ _ Hp'); reflexivity|].
  split; [apply total_penalty_points_nonneg|]. split; [exact Hhi|].
  intros Hprobs. rewrite (Qeq_eqR _ _ Hp').
  assert (H0 : (0 <= Q2R (qprod (map _row_true_prob legs)))%R).
  { rewrite <- RMicromega.Q2R_0. apply Qle_Rle, qprod_nonneg.
    apply List.Forall_map. exact Hprobs. }
  Lra.nra.
Qed.

End ParlayFacts.

Lemma parlay_metrics_products_witness :
  (fst (fst (_parlay_metrics [Samples.cand_a; Samples.cand_b]))
   <= Q2R (qprod (map _row_true_prob [Samples.cand_a; Samples.cand_b])))%R.
Proof.
  pose proof (parlay_metrics_products [Samples.cand_a; Samples.cand_b]
                                      ltac:(discriminate)) as H.
  destruct (_parlay_metrics [Samples.cand_a; Samples.cand_b]) as [[p dec] ev].
  cbn [fst]. apply H.
  repeat constructor; vm_compute; discriminate.
Defined.

Lemma team_pressure_bump_bounded_antisymmetric_witness :
  snd (team_pressure_scores (fun s => s) ∅ "BOS" "NYK") = 0%R.
Proof.
  pose proof (team_pressure_bump_bounded_antisymmetric (fun s => s) ∅ "BOS" "NYK") as H.
  destruct (team_pressure_scores (fun s => s) ∅ "BOS" "NYK") as [[[t o] d] b].
  cbn [snd]. apply H; reflexivity.
Defined.

(* ================================================================== *)
(** ** The prop branch: exclusions, penalties and EV *)
(* ================================================================== *)
Section ScanFacts.
Local Open Scope Q_scope.
Import Samples.

(** Too few contributing books: the side is dropped. *)
Lemma too_few_books_skipped (a : worker_args) (th : gmap string Z) (w : gmap string Q)
      (matchup who mk : string) (line : Q) (bm : book_map) (sd : side) (sg : signals) :
  (Z.of_nat (length (fst (fair_samples w bm sd))) < w_min_books a)%Z ->
  process_prop_side a th w matchup who mk line bm sd sg = Skip.
Proof.
  intros H. unfold process_prop_side.
  destruct (market_label mk); [|reflexivity].
  destruct (dict_get String.eqb bm FANDUEL_KEY); [|reflexivity].
  destruct (side_price sd s0); [|reflexivity].
  destruct (odds_filter_rejects (w_window_mode a) z); [reflexivity|].
  destruct (fair_samples w bm sd) as [fair_probs fair_wgts]. cbn [fst] in H.
  destruct (Z.ltb_spec (Z.of_nat (length fair_probs)) (w_min_books a)); [reflexivity | lia].
Qed.

(** Fewer than five games: the fixed penalty, whatever the minutes are. *)
Lemma thin_minutes_penalty (med iqr : Q) (n : nat) :
  (n < 5)%nat -> fst (minutes_confidence_adjust (Some (med, iqr, n))) = -5.
Proof.
  intros H. unfold minutes_confidence_adjust.
  destruct (Nat.ltb_spec n 5); [reflexivity | lia].
Qed.

(** An emitted row carries the confidence computed from the adjustments. *)
Lemma emitted_confidence (a : worker_args) (th : gmap string Z)
      (matchup who label : string) (sd : side) (line : Q) (fd : Z)
      (gaps : Z * option string * option Z * Z) (books : nat) (mp tp : Q)
      (sg : signals) (r : row) :
  score_prop_side a th matchup who label sd line fd gaps books mp tp sg = Emit r ->
  Confidence r
  = fst (if String.eqb (w_window_mode a) "plus_odds"
         then plus_odds_confidence_score tp fd (fst (fst (fst gaps))) (Z.of_nat books)
                (injury_confidence_adjust (sig_injury sg))
                (fst (minutes_confidence_adjust (sig_minutes sg)))
         else confidence_score_from_prob th tp
                (injury_confidence_adjust (sig_injury sg))
                (fst (minutes_confidence_adjust (sig_minutes sg)))
                (sig_steam sg))
  /\ exists fd_dec, american_to_decimal fd = Some fd_dec
                    /\ FD_Odds r = fd
                    /\ EV_pct r = py_round2 ((tp * fd_dec - 1) * 100).
Proof.
  unfold score_prop_side.
  destruct gaps as [[[cents_delta bb] bp] cents_delta_avg]. cbn [fst].
  destruct (minutes_confidence_adjust (sig_minutes sg)) as [min_adj min_tag].
  cbn [fst].
  destruct (american_to_decimal fd) as [fd_dec|]; [|discriminate].
  match goal with |- context [if negb ?c then Skip else _] => destruct c end;
    cbn [negb]; [|discriminate].
  match goal with |- context [let '(conf, badge) := ?e in _] =>
    destruct e as [conf badge] eqn:Econf end.
  destruct (Qlt_le_dec (inject_Z conf) (w_min_true_prob_pct a)); [discriminate|].
  intros [= <-]. cbn [Confidence FD_Odds EV_pct].
  split.
  - reflexivity.
  - exists fd_dec. repeat split; reflexivity.
Qed.

(** C3, as the code has it.  A prop side with fewer contributing books
    than the effective minimum is dropped.  A minutes read with fewer than
    five games is not a reason to drop: it gives the fixed adjustment -5.0,
    and a side that is emitted carries the confidence computed with it. *)
Theorem insufficient_sample_handling :
  (forall (window_mode : string) (min_books : Z) (min_ev : Q)
          (th : gmap string Z) (w : gmap string Q) (matchup who mk : string)
          (line : Q) (bm : book_map) (sd : side) (sg : signals),
      (Z.of_nat (length (fst (fair_samples w bm sd)))
       < effective_min_books (default pretip (WINDOW_PRESETS !! window_mode)) min_books)%Z ->
      process_prop_side (worker_args_of window_mode min_books min_ev)
                        th w matchup who mk line bm sd sg = Skip)
  /\ (forall (med iqr : Q) (n : nat),
      (n < 5)%nat -> fst (minutes_confidence_adjust (Some (med, iqr, n))) = -5)
  /\ (forall (a : worker_args) (th : gmap string Z) (matchup who label : string)
             (sd : side) (line : Q) (fd : Z) (gaps : Z * option string * option Z * Z)
             (books : nat) (mp tp : Q) (sg : signals) (med iqr : Q) (n : nat) (r : row),
      sig_minutes sg = Some (med, iqr, n) -> (n < 5)%nat ->
      score_prop_side a th matchup who label sd line fd gaps books mp tp sg = Emit r ->
      Confidence r
      = fst (if String.eqb (w_window_mode a) "plus_odds"
             then plus_odds_confidence_score tp fd (fst (fst (fst gaps))) (Z.of_nat books)
                    (injury_confidence_adjust (sig_injury sg)) (-5)
             else confidence_score_from_prob th tp
                    (injury_confidence_adjust (sig_injury sg)) (-5) (sig_steam sg))).
Proof.
  split; [| split].
  - intros. apply too_few_books_skipped. assumption.
  - apply thin_minutes_penalty.
  - intros a th matchup who label sd line fd gaps books mp tp sg med iqr n r Hm Hn He.
    destruct (emitted_confidence _ _ _ _ _ _ _ _ _ _ _ _ _ _ He) as [Hc _].
    rewrite Hc, Hm, (thin_minutes_penalty med iqr n Hn). reflexivity.
Qed.

(** Five books are asked for in the "morning" window, which lowers the
    minimum to four; three contribute. *)
Lemma insufficient_sample_handling_witness :
  process_prop_side (worker_args_of "morning" 5 2) BADGE_THRESHOLDS no_weights
                    "BOS @ NYK" "Jalen Brunson" "player_points" (49 # 2)
                    points_books SOver four_game_signals = Skip.
Proof.
  apply (proj1 insufficient_sample_handling).
  vm_compute. reflexivity.
Defined.

(** A side whose minutes read holds four games is emitted all the same,
    with confidence 57 and a LOW badge. *)
Lemma four_game_candidate_emitted :
  sig_minutes four_game_signals = Some (30, 4, 4%nat)
  /\ exists r,
       process_prop_side pretip_args BADGE_THRESHOLDS no_weights
                         "BOS @ NYK" "Jalen Brunson" "player_points" (49 # 2)
                         points_books SOver four_game_signals = Emit r
       /\ Confidence r = 57%Z /\ Badge r = LOW.
Proof.
  split; [reflexivity|].
  eexists. split; [vm_compute; reflexivity|]. split; reflexivity.
Qed.



(** The raw binary64 EV% of the break-even scenario is a negative number
    of magnitude below half a cent, so [round(..., 2)] returns zero. *)
Lemma breakeven_ev_binary64 :
  PrimFloat.ltb Binary64.breakeven_ev 0%float = true
  /\ PrimFloat.ltb (PrimFloat.abs Binary64.breakeven_ev) Binary64.half_cent = true.
Proof. split; vm_compute; reflexivity. Qed.

(** C8, at a failing input.  Two workers return one candidate each, of
    equal confidence 62 and unequal EV; with one pick asked for, the scan
    returns whichever candidate was merged first. *)
Theorem scan_output_follows_merge_order :
  Confidence cand_a = Confidence cand_b
  /\ EV_pct cand_a < EV_pct cand_b
  /\ map Player (scan_output CURRENT_KELLY_MULT [[cand_a]; [cand_b]] 2 1 1)
     = ["Jalen Brunson"%string]
  /\ map Player (scan_output CURRENT_KELLY_MULT [[cand_b]; [cand_a]] 2 1 1)
     = ["Nikola Jokic"%string].
Proof. repeat split; vm_compute; reflexivity. Qed.

End ScanFacts.

(* ================================================================== *)
(** * Further properties of the odds helpers *)
(* ================================================================== *)
Section OddsMoreFacts.
Local Open Scope Q_scope.

Lemma inject_Z_abs_pos (a : Z) : a <> 0%Z -> 1 <= inject_Z (Z.abs a).
Proof.
  intros Ha. change 1 with (inject_Z 1). rewrite <- Zle_Qle. lia.
Qed.

(** X1.  The decimal price exists for every price but 0, exceeds 1, and is
    the reciprocal of the implied probability. *)
Theorem decimal_odds_reciprocal (a : Z) :
  (american_to_decimal a = None <-> a = 0%Z)
  /\ (forall d, american_to_decimal a = Some d ->
                1 < d /\ american_to_implied_prob a * d == 1).
Proof.
  split.
  - unfold american_to_decimal.
    destruct (Z.leb_spec 100 a); [split; [discriminate | lia]|].
    destruct (Z.eqb_spec a 0); split; congruence.
  - intros d Hd. split; [| apply decimal_times_implied; exact Hd].
    unfold american_to_decimal in Hd.
    destruct (Z.leb_spec 100 a) as [Ha | Ha].
    + injection Hd as <-.
      assert (H : 100 <= inject_Z a)
        by (change 100 with (inject_Z 100); rewrite <- Zle_Qle; lia).
      assert (E : inject_Z a / 100 == inject_Z a * (1 # 100)) by field.
      rewrite E. lra.
    + destruct (Z.eqb_spec a 0) as [| Hnz]; [discriminate|].
      injection Hd as <-.
      pose proof (inject_Z_abs_pos a Hnz) as H.
      assert (0 < 100 / inject_Z (Z.abs a)).
      { apply Qlt_shift_div_l; lra. }
      lra.
Qed.

Lemma decimal_odds_reciprocal_witness :
  1 < 1 + inject_Z 150 / 100
  /\ american_to_implied_prob 150 * (1 + inject_Z 150 / 100) == 1.
Proof.
  apply (proj2 (decimal_odds_reciprocal 150) (1 + inject_Z 150 / 100)).
  reflexivity.
Defined.

(** X2.  The implied probability of a price lies in [[0, 1)], it is 0 only
    for the price 0, and the two signs of one price of magnitude at least
    100 have complementary implied probabilities. *)
Theorem implied_prob_is_probability (a : Z) :
  (0 <= american_to_implied_prob a /\ american_to_implied_prob a < 1)
  /\ (a <> 0%Z -> 0 < american_to_implied_prob a)
  /\ ((100 <= Z.abs a)%Z ->
      american_to_implied_prob a + american_to_implied_prob (- a) == 1).
Proof.
  assert (Habs : 0 <= inject_Z (Z.abs a))
    by (change 0 with (inject_Z 0); rewrite <- Zle_Qle; lia).
  split; [| split].
  - unfold american_to_implied_prob.
    destruct (Z.leb_spec 100 a) as [Ha | Ha].
    + assert (H : 100 <= inject_Z a)
        by (change 100 with (inject_Z 100); rewrite <- Zle_Qle; lia).
      split; [apply Qle_shift_div_l | apply Qlt_shift_div_r]; lra.
    + split; [apply Qle_shift_div_l | apply Qlt_shift_div_r]; lra.
  - intros Hnz. unfold american_to_implied_prob.
    destruct (Z.leb_spec 100 a) as [Ha | Ha].
    + assert (H : 100 <= inject_Z a)
        by (change 100 with (inject_Z 100); rewrite <- Zle_Qle; lia).
      apply Qlt_shift_div_l; lra.
    + pose proof (inject_Z_abs_pos a Hnz). apply Qlt_shift_div_l; lra.
  - intros Hbig.
    assert (Hx : 100 <= inject_Z (Z.abs a))
      by (change 100 with (inject_Z 100); rewrite <- Zle_Qle; lia).
    unfold american_to_implied_prob.
    destruct (Z.leb_spec 100 a) as [Ha | Ha];
      destruct (Z.leb_spec 100 (- a)) as [Hb | Hb]; try lia.
    + rewrite Z.abs_opp. rewrite (Z.abs_eq a) in * by lia. field. lra.
    + rewrite (Z.abs_neq a) in * by lia. field. lra.
Qed.

Lemma implied_prob_is_probability_witness :
  american_to_implied_prob (-150) + american_to_implied_prob (- -150) == 1.
Proof.
  apply (proj2 (proj2 (implied_prob_is_probability (-150)))).
  simpl. lia.
Defined.

(** X3.  Whatever the probability, [implied_prob_to_american] returns an
    American price: at most -100 when the probability is at least one half,
    at least +100 otherwise, and never beyond 99,999,900 in magnitude. *)
Theorem implied_prob_to_american_valid (p : Q) :
  (1 # 2 <= p ->
   (-99999900 <= implied_prob_to_american p <= -100)%Z)
  /\ (p < 1 # 2 ->
      (100 <= implied_prob_to_american p <= 99999900)%Z).
Proof.
  unfold implied_prob_to_american.
  set (c := Qmax (1 # 1000000) (Qmin (1 - (1 # 1000000)) p)).
  assert (Hc : (1 # 1000000) <= c /\ c <= 1 - (1 # 1000000))
    by (apply (clamp_between p (1 # 1000000) (1 - (1 # 1000000))); lra).
  destruct Hc as [Hlo Hhi].
  assert (Hhalf : 1 # 2 <= p <-> 1 # 2 <= c).
  { unfold c. split; intros H.
    - apply Q.max_le_iff. right. apply Q.min_glb; lra.
    - apply Q.max_le_iff in H. destruct H as [H | H]; [lra|].
      apply Q.min_glb_iff in H. lra. }
  split; intros Hp.
  - apply Hhalf in Hp. pose proof Hp as Hb. apply Qle_bool_iff in Hb. rewrite Hb.
    assert (Hinv : 0 < / (1 - c)) by (apply Qinv_lt_0_compat; lra).
    assert (Hone : (1 - c) * / (1 - c) == 1) by (apply Qmult_inv_r; lra).
    apply py_round_between; unfold Qdiv.
    + change (inject_Z (-99999900)) with (-99999900). nra.
    + change (inject_Z (-100)) with (-100). nra.
  - assert (Hlt : c < 1 # 2) by (apply Qnot_le_lt; intros H; apply Hhalf in H; lra).
    destruct (Qle_bool (1 # 2) c) eqn:E; [apply Qle_bool_iff in E; lra|].
    assert (Hinv : 0 < / c) by (apply Qinv_lt_0_compat; lra).
    assert (Hone : c * / c == 1) by (apply Qmult_inv_r; lra).
    apply py_round_between; unfold Qdiv.
    + change (inject_Z 100) with 100. nra.
    + change (inject_Z 99999900) with 99999900. nra.
Qed.

Lemma implied_prob_to_american_valid_witness :
  (100 <= implied_prob_to_american (2 # 5) <= 99999900)%Z.
Proof.
  apply (proj2 (implied_prob_to_american_valid (2 # 5))).
  reflexivity.
Defined.

(** X4.  One price is better for the bettor than another exactly when the
    gap in cents between them is positive; without a competing price the
    gap is 0. *)
Theorem better_price_iff_positive_gap (fd other : Z) :
  (price_better_for_bettor fd other = true <-> (0 < cents_diff fd (Some other))%Z)
  /\ cents_diff fd None = 0%Z.
Proof.
  split; [| reflexivity].
  unfold price_better_for_bettor, cents_diff.
  destruct (Z.leb_spec 0 fd), (Z.leb_spec 0 other),
           (Z.leb_spec fd 0), (Z.leb_spec other 0); cbn [andb];
    rewrite ?Z.ltb_lt;
    repeat match goal with |- context [(?a <? ?b)%Z] => destruct (Z.ltb_spec a b) end;
    lia.
Qed.

End OddsMoreFacts.

(* ================================================================== *)
(** * Further properties of scoring and sizing *)
(* ================================================================== *)
Section ScoringMoreFacts.
Local Open Scope Q_scope.

(** X5.  At a price paying more than the stake, the Kelly fraction is
    positive exactly when the bet has positive expected value, and it never
    exceeds the win probability; at any other price it is 0. *)
Theorem kelly_positive_iff_positive_edge (p dec : Q) :
  (1 < dec ->
   (0 < kelly_fraction p dec <-> 1 < p * dec)
   /\ (0 <= p -> p <= 1 -> kelly_fraction p dec <= p))
  /\ (dec <= 1 -> kelly_fraction p dec = 0)
  /\ 0 <= kelly_fraction p dec.
Proof.
  unfold kelly_fraction.
  split; [| split].
  - intros Hd.
    destruct (Qlt_le_dec 0 (dec - 1)) as [Hb | Hb]; [|lra].
    set (b := dec - 1) in *.
    assert (Hinv : 0 < / b) by (apply Qinv_lt_0_compat; exact Hb).
    assert (Hone : b * / b == 1) by (apply Qmult_inv_r; lra).
    assert (Hk : (b * p - (1 - p)) / b == p - (1 - p) * / b) by (field; lra).
    assert (Hedge : p * dec - 1 == b * p - (1 - p)) by (unfold b; ring).
    split.
    + rewrite Q.max_lt_iff. split.
      * intros [H | H]; [lra|]. rewrite Hk in H. nra.
      * intros H. right. rewrite Hk. nra.
    + intros H0 H1. apply Q.max_lub; [exact H0|]. rewrite Hk. nra.
  - intros Hd. destruct (Qlt_le_dec 0 (dec - 1)); [lra | reflexivity].
  - destruct (Qlt_le_dec 0 (dec - 1)); [apply Q.le_max_l | lra].
Qed.

Lemma kelly_positive_iff_positive_edge_witness :
  0 < kelly_fraction (62 # 100) (5 # 3).
Proof.
  apply (proj1 (proj1 (kelly_positive_iff_positive_edge (62 # 100) (5 # 3))
                      ltac:(reflexivity))).
  reflexivity.
Defined.

(** X6.  The confidence score never goes down when the true probability
    or any of the three adjustments goes up. *)
Theorem confidence_monotone_in_inputs (th : gmap string Z)
        (tp1 i1 m1 s1 tp2 i2 m2 s2 : Q) :
  tp1 <= tp2 -> i1 <= i2 -> m1 <= m2 -> s1 <= s2 ->
  (fst (confidence_score_from_prob th tp1 i1 m1 s1)
   <= fst (confidence_score_from_prob th tp2 i2 m2 s2))%Z.
Proof.
  intros Ht Hi Hm Hs. rewrite !confidence_value.
  apply py_round_mono.
  assert (H : clamp (tp1 + (i1 + m1 + s1) * (1 # 100)) 0 1
              <= clamp (tp2 + (i2 + m2 + s2) * (1 # 100)) 0 1)
    by (apply clamp_mono; lra).
  lra.
Qed.

Lemma confidence_monotone_in_inputs_witness :
  (fst (confidence_score_from_prob BADGE_THRESHOLDS (62 # 100) 0 (-5) 0)
   <= fst (confidence_score_from_prob BADGE_THRESHOLDS (62 # 100) 0 0 0))%Z.
Proof.
  apply confidence_monotone_in_inputs; vm_compute; discriminate.
Defined.

(** X7.  The minutes adjustment lies in [[-5, 3]]; it is positive only for
    a read of at least five games with median minutes of at least 24 and
    an IQR of at most 6, and such a player is never classed as a
    high-variance player. *)
Theorem minutes_adjust_positive_needs_data (lk : minutes_lookup) :
  (-5 <= fst (minutes_confidence_adjust (minutes_read_of lk))
   /\ fst (minutes_confidence_adjust (minutes_read_of lk)) <= 3)
  /\ (0 < fst (minutes_confidence_adjust (minutes_read_of lk)) ->
      is_high_variance_player lk = false
      /\ exists med iqr n, lk = MinutesRead med iqr n
                           /\ (5 <= n)%nat /\ 24 <= med /\ iqr <= 6).
Proof.
  destruct lk as [| | med iqr n]; cbn [minutes_read_of minutes_confidence_adjust fst].
  - split; [split; lra | intros H; lra].
  - split; [split; lra | intros H; lra].
  - unfold is_high_variance_player.
    destruct (Nat.ltb_spec n 5) as [Hn5 | Hn5]; cbn [fst].
    { split; [split; lra | intros H; lra]. }
    assert (Hratio : forall mlo ihi, mlo <= med -> iqr <= ihi -> 24 <= mlo -> ihi <= 6 ->
              (if Qlt_le_dec (4 # 10) (iqr / Qmax 1 med) then true else false) = false).
    { intros mlo ihi H1 H2 H3 H4.
      destruct (Qlt_le_dec (4 # 10) (iqr / Qmax 1 med)) as [Hr | Hr]; [|reflexivity].
      exfalso.
      assert (Hmax : Qmax 1 med == med) by (apply Q.max_r; lra).
      rewrite Hmax in Hr.
      assert (Hinv : 0 < / med) by (apply Qinv_lt_0_compat; lra).
      assert (Hone : med * / med == 1) by (apply Qmult_inv_r; lra).
      unfold Qdiv in Hr. nra. }
    destruct (n <? 7)%nat;
      repeat (match goal with
              | |- context [Qle_bool ?a ?b] =>
                  let E := fresh "E" in
                  destruct (Qle_bool a b) eqn:E;
                  [apply Qle_bool_iff in E | ]
              end; cbn [andb orb negb fst]);
      (split; [split; lra|]); intros Hpos; try lra;
      (split; [first [apply (Hratio 32 4); lra | apply (Hratio 28 5); lra
                     | apply (Hratio 24 6); lra]
              | exists med, iqr, n; repeat split; auto; lra]).
Qed.

Lemma minutes_adjust_positive_needs_data_witness :
  is_high_variance_player (MinutesRead 33 3 7) = false.
Proof.
  apply (proj2 (minutes_adjust_positive_needs_data (MinutesRead 33 3 7))).
  reflexivity.
Defined.

End ScoringMoreFacts.

(* ================================================================== *)
(** * Further properties of the signal producers *)
(* ================================================================== *)
Section TeamBumpFacts.
Local Open Scope R_scope.
Variable team_key : string -> string.

Lemma tanh_strictly_inside (x : R) : -1 < tanh x < 1.
Proof.
  unfold tanh, sinh, cosh.
  pose proof (exp_pos x) as Ha. pose proof (exp_pos (- x)) as Hb.
  set (a := exp x) in *. set (b := exp (- x)) in *.
  replace ((a - b) / 2 / ((a + b) / 2)) with ((a - b) / (a + b))
    by (field; Lra.lra).
  split.
  - apply Rmult_lt_reg_r with (a + b); [Lra.lra|].
    unfold Rdiv. rewrite Rmult_assoc, Rinv_l by Lra.lra. Lra.lra.
  - apply Rmult_lt_reg_r with (a + b); [Lra.lra|].
    unfold Rdiv. rewrite Rmult_assoc, Rinv_l by Lra.lra. Lra.lra.
Qed.

Lemma tanh_positive (x : R) : 0 < x -> 0 < tanh x.
Proof.
  intros Hx. unfold tanh, sinh, cosh.
  pose proof (exp_pos (- x)) as Hb.
  assert (Hab : exp (- x) < exp x) by (apply exp_increasing; Lra.lra).
  apply Rdiv_lt_0_compat; Lra.lra.
Qed.

Lemma tanh_zero : tanh 0 = 0.
Proof. unfold tanh, sinh. rewrite Ropp_0, exp_0. unfold Rdiv. ring. Qed.

Lemma tanh_sign (x : R) :
  (0 < tanh x <-> 0 < x) /\ (tanh x < 0 <-> x < 0) /\ (tanh x = 0 <-> x = 0).
Proof.
  destruct (Rtotal_order x 0) as [Hneg | [-> | Hpos]].
  - assert (H : 0 < tanh (- x)) by (apply tanh_positive; Lra.lra).
    rewrite tanh_odd in H. repeat split; intros; Lra.lra.
  - rewrite tanh_zero. repeat split; intros; Lra.lra.
  - pose proof (tanh_positive x Hpos). repeat split; intros; Lra.lra.
Qed.

(** X8.  The bump of [team_pressure_scores] is always strictly inside
    (-0.04, 0.04), so its clamp at 0.05 never binds, and it has the sign of
    the differential: positive exactly when the opponent carries more
    pressure, negative when the team does, 0 when both carry the same. *)
Theorem team_pressure_bump_sign
        (m : gmap string Z) (team_name opponent_name : string) :
  let '(t, o, diff, bump) := team_pressure_scores team_key m team_name opponent_name in
  (- (4 / 100) < bump < 4 / 100)
  /\ (0 < bump <-> (get_default m (team_key team_name) 0 <
                    get_default m (team_key opponent_name) 0)%Z)
  /\ (bump < 0 <-> (get_default m (team_key opponent_name) 0 <
                    get_default m (team_key team_name) 0)%Z)
  /\ (bump = 0 <-> get_default m (team_key team_name) 0%Z =
                   get_default m (team_key opponent_name) 0%Z).
Proof.
  unfold team_pressure_scores.
  set (t := get_default m (team_key team_name) 0%Z).
  set (o := get_default m (team_key opponent_name) 0%Z).
  destruct ((t =? 0) && (o =? 0))%Z eqn:E.
  - apply andb_true_iff in E. destruct E as [Ht Ho].
    apply Z.eqb_eq in Ht, Ho. rewrite Ht, Ho.
    repeat split; intros; try Lra.lra; try lia.
  - clear E.
    set (mx := Z.max 1 (Z.max t o)).
    assert (Hmx : 0 < IZR mx) by (apply IZR_lt; unfold mx; lia).
    set (r := IZR (o - t) / IZR mx * 1).
    pose proof (tanh_strictly_inside r) as Hin.
    pose proof (tanh_sign r) as (Hp & Hn & Hz).
    assert (Hclamp : Rclamp (tanh r * (4 / 100)) (- (5 / 100)) (5 / 100)
                     = tanh r * (4 / 100)).
    { unfold Rclamp, Rmax, Rmin.
      destruct (Rle_dec (5 / 100) (tanh r * (4 / 100))); [Lra.lra|].
      destruct (Rle_dec (- (5 / 100)) (tanh r * (4 / 100))); Lra.lra. }
    rewrite Hclamp.
    assert (Hinv : 0 < / IZR mx) by (apply Rinv_0_lt_compat; exact Hmx).
    assert (Hr : r = (IZR o - IZR t) * / IZR mx)
      by (unfold r, Rdiv; rewrite minus_IZR; ring).
    assert (Hrp : 0 < r <-> (t < o)%Z).
    { rewrite Hr. split; intros H.
      - apply lt_IZR. Lra.nra.
      - apply IZR_lt in H. Lra.nra. }
    assert (Hrn : r < 0 <-> (o < t)%Z).
    { rewrite Hr. split; intros H.
      - apply lt_IZR. Lra.nra.
      - apply IZR_lt in H. Lra.nra. }
    assert (Hrz : r = 0 <-> t = o).
    { split; intros H.
      - destruct (Z.lt_trichotomy t o) as [Hlt | [Heq | Hgt]]; [|exact Heq|].
        + apply Hrp in Hlt. Lra.lra.
        + apply Hrn in Hgt. Lra.lra.
      - rewrite Hr. apply (f_equal IZR) in H. Lra.nra. }
    split; [Lra.lra|]. split; [| split].
    + rewrite <- Hrp, <- Hp. split; intros; Lra.lra.
    + rewrite <- Hrn, <- Hn. split; intros; Lra.lra.
    + rewrite <- Hrz, <- Hz. split; intros; Lra.lra.
Qed.

End TeamBumpFacts.

Section PressureMapFacts.
Local Open Scope Z_scope.

(** X9.  Every team that [team_injury_pressure_map] lists has a pressure
    score of at least 1, has a non-empty name, and belongs to the team
    filter when a non-empty filter is given. *)
Theorem pressure_map_entries_positive
        (team_filter : option (gset string)) (injuries : list injury_row)
        (team : string) (score : Z) :
  team_injury_pressure_map team_filter injuries !! team = Some score ->
  1 <= score
  /\ team <> ""%string
  /\ match team_filter with
     | Some f => f = ∅ \/ team ∈ f
     | None => True
     end.
Proof.
  unfold team_injury_pressure_map.
  set (P := fun agg : gmap string Z =>
              forall k v, agg !! k = Some v ->
                1 <= v /\ k <> ""%string
                /\ match team_filter with
                   | Some f => f = ∅ \/ k ∈ f
                   | None => True
                   end).
  intros H.
  enough (HP : P (fold_left
                    (fun (agg : gmap string Z) (row : injury_row) =>
                       let canon := inj_team row in
                       if String.eqb canon "" then agg
                       else if match team_filter with
                               | Some f => negb (bool_decide (f = ∅))
                                           && negb (bool_decide (canon ∈ f))
                               | None => false
                               end then agg
                       else
                         let bucket := inj_bucket row in
                         if (bucket =? 0)%Z then agg
                         else
                           let mult := minutes_mult (inj_minutes row) in
                           let score_add := py_round (inject_Z bucket * mult) in
                           let score_add := if (score_add <=? 0)%Z then 1%Z else score_add in
                           <[ canon := (get_default agg canon 0 + score_add)%Z ]> agg)
                    injuries ∅)) by (apply HP; exact H).
  apply fold_left_invariant.
  - intros agg row Hagg. cbv zeta.
    destruct (String.eqb_spec (inj_team row) "") as [| Hname]; [exact Hagg|].
    assert (Hallowed :
              (match team_filter with
               | Some f => negb (bool_decide (f = ∅))
                           && negb (bool_decide (inj_team row ∈ f))
               | None => false
               end) = false ->
              match team_filter with
              | Some f => f = ∅ \/ inj_team row ∈ f
              | None => True
              end).
    { destruct team_filter as [f|]; [|trivial].
      intros Hf. apply andb_false_iff in Hf.
      destruct Hf as [Hf | Hf]; apply negb_false_iff, bool_decide_eq_true in Hf; auto. }
    destruct (match team_filter with
              | Some f => negb (bool_decide (f = ∅)) && negb (bool_decide (inj_team row ∈ f))
              | None => false
              end) eqn:Ef; [exact Hagg|].
    destruct (inj_bucket row =? 0); [exact Hagg|].
    intros k v Hk.
    destruct (decide (inj_team row = k)) as [<- | Hne].
    + rewrite lookup_insert_eq in Hk. injection Hk as <-.
      split; [| split; [exact Hname | apply Hallowed; reflexivity]].
      assert (H0 : 0 <= get_default agg (inj_team row) 0).
      { unfold get_default. destruct (agg !! inj_team row) as [v0|] eqn:E0; simpl; [|lia].
        destruct (Hagg _ _ E0). lia. }
      destruct (Z.leb_spec (py_round (inject_Z (inj_bucket row)
                                      * minutes_mult (inj_minutes row))) 0); lia.
    + rewrite lookup_insert_ne in Hk by exact Hne. apply Hagg. exact Hk.
  - intros k v Hk. rewrite lookup_empty in Hk. discriminate.
Qed.

Lemma pressure_map_entries_positive_witness :
  1 <= 3 /\ "BOS"%string <> ""%string /\ True.
Proof.
  apply (pressure_map_entries_positive None
           [ {| inj_team := "BOS"; inj_bucket := 2; inj_minutes := 25 |} ] "BOS" 3).
  vm_compute. reflexivity.
Defined.

End PressureMapFacts.

Section LineFacts.
Local Open Scope Q_scope.

Lemma over_count_fold (f : Z -> Q -> Z) (fd : Q) :
  (forall w ol, f w ol = if Qlt_le_dec (fd + (1 # 1000000000)) ol
                         then (w + 1)%Z else w) ->
  forall (ls : list Q) (acc : Z),
    (acc <= fold_left f ls acc <= acc + Z.of_nat (length ls))%Z
    /\ (fold_left f ls acc = (acc + Z.of_nat (length ls))%Z ->
        Forall (fun ol => fd < ol) ls).
Proof.
  intros Hf. induction ls as [| ol ls IH]; intros acc; cbn [fold_left length].
  - split; [lia | constructor].
  - rewrite Hf.
    destruct (Qlt_le_dec (fd + (1 # 1000000000)) ol) as [Hlt | Hle].
    + destruct (IH (acc + 1)%Z) as [Hb Hall].
      split; [lia|]. intros Hr. constructor; [lra|]. apply Hall. lia.
    + destruct (IH acc) as [Hb Hall].
      split; [lia|]. intros Hr. lia.
Qed.

Lemma over_step_eq (fd : Q) (w : Z) (ol : Q) :
  (let worse :=
     if over_like "Over"
        && (if Qlt_le_dec (fd + (1 # 1000000000)) ol then true else false)
     then (w + 1)%Z else w in
   if String.eqb "Over" "Under"
      && (if Qlt_le_dec ol (fd - (1 # 1000000000)) then true else false)
   then (worse + 1)%Z else worse)
  = if Qlt_le_dec (fd + (1 # 1000000000)) ol then (w + 1)%Z else w.
Proof.
  replace (over_like "Over") with true by reflexivity.
  replace (String.eqb "Over" "Under") with false by reflexivity.
  cbn [andb]. destruct (Qlt_le_dec (fd + (1 # 1000000000)) ol); reflexivity.
Qed.

Lemma qsum_above (c : Q) (ls : list Q) :
  Forall (fun ol => c < ol) ls -> ls <> [] ->
  c * inject_Z (Z.of_nat (length ls)) < qsum ls.
Proof.
  induction 1 as [| x l Hx Hl IH]; [congruence|]. intros _.
  rewrite qsum_cons. cbn [length]. rewrite Nat2Z.inj_succ.
  unfold Z.succ. rewrite inject_Z_plus. change (inject_Z 1) with 1.
  destruct l as [| y l'].
  - unfold qsum; cbn [fold_left length].
    change (inject_Z (Z.of_nat 0)) with 0. lra.
  - assert (Hne : y :: l' <> []) by discriminate. specialize (IH Hne). lra.
Qed.

(** X10.  The line advantage of the Over side is the negation of that of
    the Under side; the count of worse lines is between 0 and the number
    of other books; and when every other book's line is worse for the Over
    the line advantage of the Over is positive. *)
Theorem line_advantage_sides (fd_line : Q) (other_lines : list Q) :
  line_advantage fd_line other_lines "Over"
  == - line_advantage fd_line other_lines "Under"
  /\ (0 <= count_worse_line fd_line other_lines "Over"
      <= Z.of_nat (length other_lines))%Z
  /\ (other_lines <> [] ->
      count_worse_line fd_line other_lines "Over" = Z.of_nat (length other_lines) ->
      0 < line_advantage fd_line other_lines "Over").
Proof.
  pose proof (over_count_fold _ fd_line (over_step_eq fd_line) other_lines 0%Z)
    as [Hb Hall].
  split; [| split].
  - unfold line_advantage. destruct other_lines; [reflexivity|].
    cbn [over_like String.eqb Ascii.eqb Bool.eqb orb]. ring.
  - unfold count_worse_line. rewrite Z.add_0_l in Hb. exact Hb.
  - intros Hne Hc. unfold count_worse_line in Hc.
    rewrite Z.add_0_l in Hall. specialize (Hall Hc).
    pose proof (qsum_above fd_line other_lines Hall Hne) as Hs.
    unfold line_advantage. destruct other_lines as [| x l]; [congruence|].
    cbn [over_like String.eqb Ascii.eqb Bool.eqb orb].
    set (n := inject_Z (Z.of_nat (length (x :: l)))) in *.
    assert (Hn : 0 < n).
    { unfold n. change 0 with (inject_Z 0). rewrite <- Zlt_Qlt. simpl. lia. }
    assert (Hm : fd_line < qsum (x :: l) / n).
    { apply Qlt_shift_div_l; [exact Hn | exact Hs]. }
    lra.
Qed.

Lemma line_advantage_sides_witness :
  0 < line_advantage (49 # 2) [51 # 2; 53 # 2] "Over".
Proof.
  apply (proj2 (proj2 (line_advantage_sides (49 # 2) [51 # 2; 53 # 2]))).
  - discriminate.
  - vm_compute. reflexivity.
Defined.

End LineFacts.

Section SteamFacts.
Local Open Scope Q_scope.

Lemma fold_left_filter_skip {S X : Type} (f : S -> X -> S) (keep : X -> bool)
      (l : list X) (s : S) :
  (forall s x, keep x = false -> f s x = s) ->
  fold_left f (List.filter keep l) s = fold_left f l s.
Proof.
  intros Hskip. revert s. induction l as [| x l IH]; intros s; cbn [List.filter fold_left].
  - reflexivity.
  - destruct (keep x) eqn:E; cbn [fold_left].
    + apply IH.
    + rewrite (Hskip s x E). apply IH.
Qed.

Lemma steam_scan_sharp_only (sharp_set : list string) (rows : list tick) :
  steam_scan sharp_set (List.filter (from_sharp_book sharp_set) rows)
  = steam_scan sharp_set rows.
Proof.
  unfold steam_scan. apply fold_left_filter_skip.
  intros [earliest latest] [[ts book] price] Hk.
  unfold from_sharp_book in Hk. cbn [fst snd] in Hk. rewrite Hk. reflexivity.
Qed.

Lemma steam_moves_no_ticks (sharp_set : list string) :
  steam_moves sharp_set ([], []) = (0, 0%Z).
Proof.
  unfold steam_moves. generalize (0, 0%Z).
  induction sharp_set as [| b l IH]; intros acc; cbn [fold_left]; [reflexivity|].
  destruct acc as [t c]. cbn [fst snd dict_get]. apply IH.
Qed.

(** X11.  The steam boost is always between 0 and 2.0, and ticks of books
    outside the sharp set have no effect on it. *)
Theorem steam_boost_bounded_sharp_only (sharp_set : list string) (rows : list tick) :
  (0 <= steam_boost sharp_set rows /\ steam_boost sharp_set rows <= 2)
  /\ steam_boost sharp_set (List.filter (from_sharp_book sharp_set) rows)
     = steam_boost sharp_set rows.
Proof.
  split.
  - unfold steam_boost. destruct rows as [| r rows]; [split; lra|].
    destruct (steam_moves sharp_set (steam_scan sharp_set (r :: rows))) as [total n].
    destruct (n =? 0)%Z; [split; lra|].
    destruct (Qlt_le_dec (total / inject_Z n) (2 # 100)); [split; lra|].
    split; [apply Q.min_glb; [lra | apply Q.le_max_l] | apply Q.le_min_l].
  - unfold steam_boost.
    pose proof (steam_scan_sharp_only sharp_set rows) as Hscan.
    destruct rows as [| r rows]; [reflexivity|].
    destruct (List.filter (from_sharp_book sharp_set) (r :: rows)) as [| r' rows'] eqn:Ef.
    + rewrite <- Hscan. unfold steam_scan at 1. cbn [fold_left].
      rewrite steam_moves_no_ticks. reflexivity.
    + rewrite Hscan. reflexivity.
Qed.

End SteamFacts.

(* ================================================================== *)
(** * Further properties of sorting and of the consensus *)
(* ================================================================== *)
Section SortedFacts.
Local Open Scope Q_scope.
Context {A : Type} (key : A -> Q).

Lemma insert_by_perm (x : A) (l : list A) : Permutation (insert_by key x l) (x :: l).
Proof.
  induction l as [| y l IH]; cbn [insert_by]; [reflexivity|].
  destruct (Qle_bool (key x) (key y)); [reflexivity|].
  rewrite IH. apply perm_swap.
Qed.

Lemma sorted_by_perm (l : list A) : Permutation (sorted_by key l) l.
Proof.
  induction l as [| x l IH]; cbn [sorted_by fold_right]; [reflexivity|].
  fold (sorted_by key l). rewrite insert_by_perm, IH. reflexivity.
Qed.

Lemma insert_by_sorted (x : A) (l : list A) :
  StronglySorted (fun a b => key a <= key b) l -> StronglySorted (fun a b => key a <= key b) (insert_by key x l).
Proof.
  induction 1 as [| y l Hs IH Hy]; cbn [insert_by].
  - repeat constructor.
  - destruct (Qle_bool (key x) (key y)) eqn:E.
    + apply Qle_bool_iff in E. constructor; [constructor; assumption|].
      constructor; [exact E|].
      rewrite List.Forall_forall in *. intros z Hz.
      specialize (Hy z Hz). cbv beta in *. lra.
    + assert (Hlt : key y < key x).
      { apply Qnot_le_lt. intros H. apply Qle_bool_iff in H. congruence. }
      constructor; [exact IH|].
      rewrite List.Forall_forall in *. intros z Hz.
      apply (Permutation_in _ (insert_by_perm x l)) in Hz.
      destruct Hz as [<- | Hz]; [lra | apply Hy, Hz].
Qed.

Lemma sorted_by_sorted (l : list A) : StronglySorted (fun a b => key a <= key b) (sorted_by key l).
Proof.
  induction l as [| x l IH]; cbn [sorted_by fold_right]; [constructor|].
  apply insert_by_sorted. exact IH.
Qed.

End SortedFacts.

Section ConsensusAllPaths.
Local Open Scope Q_scope.
Import ConsensusSpec.

Lemma winsorize_keeps_range (lo hi : Q) (l : list (Q * Q)) :
  (4 <= length l <= 6)%nat ->
  Forall (ranged_pair lo hi) l -> Forall (ranged_pair lo hi) (winsorize l) /\ winsorize l <> [].
Proof.
  intros Hlen Hall.
  destruct l as [| [v0 w0] [| [v1 w1] [| [v2 w2] [| [v3 w3] l]]]];
    try (simpl in Hlen; lia).
  destruct l as [| [v4 w4] [| [v5 w5] [| p l]]]; try (simpl in Hlen; lia);
    (split; [| discriminate]);
    repeat match goal with
           | H : Forall _ (_ :: _) |- _ => inversion H; clear H; subst
           end;
    unfold winsorize; cbn [length nth Nat.sub fst snd];
    cbn -[Qplus Qmult Qle Qlt];
    unfold ranged_pair in *; cbn [fst snd] in *;
    repeat constructor; cbn [fst snd]; lra.
Qed.

Lemma Forall_firstn_keeps {X : Type} (P : X -> Prop) (n : nat) (l : list X) :
  Forall P l -> Forall P (firstn n l).
Proof.
  intros H. revert n. induction H; intros [| n]; cbn [firstn]; constructor; auto.
Qed.

Lemma Forall_skipn_keeps {X : Type} (P : X -> Prop) (n : nat) (l : list X) :
  Forall P l -> Forall P (skipn n l).
Proof.
  intros H. revert n. induction H; intros [| n]; cbn [skipn]; auto.
Qed.

Lemma Forall_py_slice {X : Type} (P : X -> Prop) (l : list X) (i j : Z) :
  Forall P l -> Forall P (py_slice l i j).
Proof.
  intros H. unfold py_slice.
  apply Forall_firstn_keeps, Forall_skipn_keeps. exact H.
Qed.

Lemma py_slice_nonempty {X : Type} (l : list X) (k : Z) :
  (0 < length l)%nat -> (0 < Z.of_nat (length l) - 2 * k)%Z ->
  py_slice l k (Z.of_nat (length l) - k) <> [].
Proof.
  intros Hpos Hk Hnil. apply (f_equal (@length X)) in Hnil.
  unfold py_slice, slice_bound in Hnil.
  rewrite List.length_firstn, List.length_skipn in Hnil. cbn [length] in Hnil.
  destruct (Z.ltb_spec k 0), (Z.ltb_spec (Z.of_nat (length l) - k) 0); lia.
Qed.

(** X12.  With positive weights, [trimmed_weighted_mean] returns a float
    inside [[min(values), max(values)]] on every path, hard trimming and
    winsorising included, whatever the trim fraction. *)
Theorem consensus_in_range_on_every_path (values ws : list Q) (trim : Q) :
  values <> [] -> length ws = length values -> Forall (fun w => 0 < w) ws ->
  exists r, trimmed_weighted_mean values (WList ws) trim = Ret r
            /\ py_min values <= r /\ r <= py_max values.
Proof.
  intros Hne Hlen Hpos.
  assert (Hrange : forall v, In v values -> py_min values <= v /\ v <= py_max values)
    by (intros v Hv; apply py_min_max_bound; exact Hv).
  destruct (median_defined values Hne) as [med Hmed].
  destruct (le_gt_dec (length values) 3) as [Hsmall | Hbig].
  - rewrite twm_small by assumption. rewrite Hmed.
    exists med. split; [reflexivity|].
    exact (median_between values _ _ med Hrange Hmed).
  - assert (Hdev : map (fun x => Qabs (x - med)) values <> [])
      by (destruct values; simpl; congruence).
    destruct (median_defined _ Hdev) as [mad Hmad].
    rewrite (twm_large values ws trim med mad) by assumption.
    pose proof (combine_Forall _ _ values ws Hrange Hpos) as Hall.
    assert (Hcne : combine values ws <> []).
    { destruct values, ws; simpl in *; congruence. }
    destruct (Qlt_le_dec mad (1 # 1000)) as [Hneg | Hmadpos].
    + destruct (weighted_ratio_between _ _ _ Hcne Hall) as (r & Hr & Hb).
      unfold weighted_ratio in Hr.
      rewrite (combine_map_snd_eq values ws Hlen) in Hr.
      destruct (truthy (qsum ws)); [|discriminate].
      injection Hr as <-. eexists. split; [reflexivity | exact Hb].
    + destruct (Qlt_le_dec _ _) as [Hhard | Hsoft].
      * assert (Hsl : length (sorted_by fst (combine values ws)) = length values)
          by (rewrite sorted_by_length, length_combine; lia).
        assert (Hsorted : Forall (ranged_pair (py_min values) (py_max values))
                                 (sorted_by fst (combine values ws))).
        { apply List.Forall_forall. intros p Hp.
          apply (proj1 (sorted_by_In fst p (combine values ws))) in Hp.
          rewrite List.Forall_forall in Hall. exact (Hall p Hp). }
        assert (Hgood : Forall (ranged_pair (py_min values) (py_max values))
                               (hard_pairs values ws trim)
                        /\ hard_pairs values ws trim <> []).
        { unfold hard_pairs.
          destruct (Nat.leb_spec (length values) 6).
          - destruct (Nat.leb_spec 4 (length values)); [|lia].
            apply winsorize_keeps_range; [lia | exact Hsorted].
          - destruct (Z.ltb_spec 0 (Z.of_nat (length values)
                       - 2 * py_int (inject_Z (Z.of_nat (length values)) * trim)))
              as [Hk | Hk].
            + split; [apply Forall_py_slice; exact Hsorted|].
              rewrite <- Hsl at 2. apply py_slice_nonempty; rewrite Hsl; [lia | exact Hk].
            + split; [exact Hsorted|].
              intros Hnil. rewrite Hnil in Hsl. simpl in Hsl. lia. }
        destruct Hgood as [Hg Hgne].
        exact (weighted_ratio_between _ _ _ Hgne Hg).
      * pose proof (down_weight_positive med mad _ _ Hall) as Hall'.
        assert (Hne' : map (down_weight med mad) (combine values ws) <> [])
          by (destruct (combine values ws); simpl; congruence).
        exact (weighted_ratio_between _ _ _ Hne' Hall').
Qed.

Lemma consensus_in_range_on_every_path_witness :
  exists r,
    trimmed_weighted_mean
      [50 # 100; 51 # 100; 52 # 100; 53 # 100; 10 # 100; 20 # 100; 90 # 100]
      (WList [1; 2; 3; 4; 5; 6; 7]) (15 # 100) = Ret r
    /\ py_min [50 # 100; 51 # 100; 52 # 100; 53 # 100; 10 # 100; 20 # 100; 90 # 100] <= r
    /\ r <= py_max [50 # 100; 51 # 100; 52 # 100; 53 # 100; 10 # 100; 20 # 100; 90 # 100].
Proof.
  apply consensus_in_range_on_every_path.
  - discriminate.
  - reflexivity.
  - repeat constructor.
Defined.

(** X13.  Without samples, or with an empty weight list, nothing is
    returned; a weight list of another length cuts both lists to the
    shorter length; a scalar weight stands for that weight on every
    sample. *)
Theorem consensus_input_shapes (values ws : list Q) (w trim : Q) :
  trimmed_weighted_mean [] (WList ws) trim = RetNone
  /\ trimmed_weighted_mean values (WList []) trim = RetNone
  /\ trimmed_weighted_mean values (WList ws) trim
     = trimmed_weighted_mean (firstn (Nat.min (length values) (length ws)) values)
                             (WList (firstn (Nat.min (length values) (length ws)) ws))
                             trim
  /\ trimmed_weighted_mean values (WScalar w) trim
     = trimmed_weighted_mean values (WList (repeat w (length values))) trim.
Proof.
  split; [reflexivity|]. split; [| split].
  - unfold trimmed_weighted_mean. destruct values as [| v vs]; [reflexivity|].
    cbn [length Nat.eqb Nat.min firstn]. reflexivity.
  - destruct (Nat.eq_dec (length ws) (length values)) as [Heq | Hneq].
    + replace (Nat.min (length values) (length ws)) with (length values) by lia.
      rewrite List.firstn_all. rewrite <- Heq, List.firstn_all. reflexivity.
    + destruct values as [| v vs]; [reflexivity|].
      remember (v :: vs) as V eqn:EV.
      remember (Nat.min (length V) (length ws)) as m eqn:Em.
      assert (Hl1 : length (firstn m V) = m)
        by (rewrite List.length_firstn; lia).
      assert (Hl2 : length (firstn m ws) = m)
        by (rewrite List.length_firstn; lia).
      unfold trimmed_weighted_mean.
      rewrite EV at 1. rewrite <- Em.
      destruct (Nat.eqb_spec (length ws) (length V)) as [|_]; [congruence|].
      destruct (firstn m V) as [| f fs] eqn:Ef; [reflexivity|].
      replace (length (firstn m ws) =? length (f :: fs))%nat with true
        by (symmetry; apply Nat.eqb_eq; lia).
      reflexivity.
  - unfold trimmed_weighted_mean. destruct values; reflexivity.
Qed.

End ConsensusAllPaths.

Section OutlierMinority.
Local Open Scope Q_scope.
Import ConsensusSpec.

Lemma filter_length_perm {X : Type} (f : X -> bool) (l l' : list X) :
  Permutation l l' -> length (List.filter f l) = length (List.filter f l').
Proof.
  induction 1 as [| x l l' _ IH | x y l | l l' l'' _ IH1 _ IH2]; cbn [List.filter].
  - reflexivity.
  - destruct (f x); cbn [length]; congruence.
  - destruct (f x), (f y); reflexivity.
  - congruence.
Qed.

Lemma filter_length_mono {X : Type} (f g : X -> bool) (l : list X) :
  (forall x, f x = true -> g x = true) ->
  (length (List.filter f l) <= length (List.filter g l))%nat.
Proof.
  intros Hfg. induction l as [| x l IH]; cbn [List.filter]; [lia|].
  destruct (f x) eqn:Ef; [rewrite (Hfg x Ef); cbn [length]; lia|].
  destruct (g x); cbn [length]; lia.
Qed.

Lemma filter_length_map {X Y : Type} (g : Y -> bool) (h : X -> Y) (l : list X) :
  length (List.filter g (map h l)) = length (List.filter (fun x => g (h x)) l).
Proof.
  induction l as [| x l IH]; cbn [map List.filter]; [reflexivity|].
  destruct (g (h x)); cbn [length]; congruence.
Qed.

(** In a sorted list, the elements strictly above the one at position [j]
    all sit after position [j]. *)
Lemma count_above_sorted (s : list Q) :
  StronglySorted (fun a b => a <= b) s ->
  forall (j : nat) (x : Q), nth_error s j = Some x ->
  (length (List.filter (fun d => if Qlt_le_dec x d then true else false) s)
   <= length s - j - 1)%nat.
Proof.
  induction 1 as [| a s Hs IH Ha]; intros j x Hj.
  - destruct j; discriminate.
  - destruct j as [| j]; cbn [nth_error] in Hj.
    + injection Hj as ->. cbn [List.filter length].
      destruct (Qlt_le_dec x x); [lra|].
      pose proof (List.filter_length_le (fun d => if Qlt_le_dec x d then true else false) s).
      lia.
    + cbn [List.filter length].
      assert (Hax : a <= x).
      { rewrite List.Forall_forall in Ha. apply Ha. eapply nth_error_In; eauto. }
      destruct (Qlt_le_dec x a); [lra|].
      specialize (IH j x Hj).
      assert (j < length s)%nat by (apply nth_error_Some; congruence). lia.
Qed.

(** The upper middle element of non-negative data is at most twice the median. *)
Lemma median_upper_middle (data : list Q) (m : Q) :
  (forall d, In d data -> 0 <= d) -> median data = Some m ->
  exists x, nth_error (sorted_by (fun v => v) data) (length data / 2) = Some x
            /\ x <= 2 * m.
Proof.
  intros Hnn. unfold median.
  rewrite (sorted_by_length (fun v => v) data).
  set (s := sorted_by (fun v => v) data).
  assert (Hs : forall i v, nth_error s i = Some v -> 0 <= v).
  { intros i v Hi. apply Hnn. apply (sorted_by_In (fun v => v)).
    eapply nth_error_In; eauto. }
  destruct (length data =? 0)%nat; [discriminate|].
  destruct (Nat.odd (length data)).
  - intros Hm. exists m. split; [exact Hm|]. specialize (Hs _ _ Hm). lra.
  - destruct (nth_error s (length data / 2 - 1)) as [a|] eqn:Ea; [|discriminate].
    destruct (nth_error s (length data / 2)) as [b|] eqn:Eb; [|discriminate].
    intros [= <-]. exists b. split; [reflexivity|].
    pose proof (Hs _ _ Ea). pose proof (Hs _ _ Eb).
    assert (E : 2 * ((a + b) / 2) == a + b) by field. lra.
Qed.

(** A flagged sample deviates from the median by more than three MADs. *)
Lemma flagged_deviation (med mad v : Q) :
  0 < mad -> is_outlier med mad v = true -> 3 * mad < Qabs (v - med).
Proof.
  intros Hmad. unfold is_outlier, modified_z.
  destruct (Qlt_le_dec (5 # 2) (Qabs ((6745 # 10000) * (v - med) / mad))) as [H|];
    [|discriminate].
  intros _.
  assert (E : Qabs ((6745 # 10000) * (v - med) / mad)
              == (6745 # 10000) * Qabs (v - med) * / mad).
  { unfold Qdiv. rewrite !Qabs_Qmult.
    rewrite (Qabs_pos (6745 # 10000)) by lra.
    rewrite (Qabs_pos (/ mad)) by (apply Qlt_le_weak, Qinv_lt_0_compat; exact Hmad).
    reflexivity. }
  rewrite E in H.
  assert (Hinv : 0 < / mad) by (apply Qinv_lt_0_compat; exact Hmad).
  assert (Hone : mad * / mad == 1) by (apply Qmult_inv_r; lra).
  pose proof (Qabs_nonneg (v - med)) as Hd.
  set (d := Qabs (v - med)) in *.
  apply Qnot_le_lt. intros Hle.
  assert (d * / mad <= 3) by nra.
  nra.
Qed.

(** The samples the loop can flag are fewer than the samples above the
    upper middle deviation. *)
Lemma flagged_count_bound (values : list Q) (med mad : Q) :
  values <> [] ->
  median (map (fun v => Qabs (v - med)) values) = Some mad -> 0 < mad ->
  (length (List.filter (is_outlier med mad) values)
   <= length values - length values / 2 - 1)%nat.
Proof.
  intros Hne Hmad Hpos.
  set (devs := map (fun v => Qabs (v - med)) values) in *.
  assert (Hnn : forall d, In d devs -> 0 <= d).
  { intros d Hd. apply in_map_iff in Hd. destruct Hd as (v & <- & _).
    apply Qabs_nonneg. }
  destruct (median_upper_middle devs mad Hnn Hmad) as (x & Hx & Hx2).
  assert (Hlen : length devs = length values) by (unfold devs; apply length_map).
  rewrite Hlen in Hx.
  pose proof (count_above_sorted _ (sorted_by_sorted (fun v => v) devs) _ _ Hx) as Hc.
  rewrite (sorted_by_length (fun v => v) devs), Hlen in Hc.
  rewrite (filter_length_perm _ _ _ (sorted_by_perm (fun v => v) devs)) in Hc.
  unfold devs in Hc. rewrite filter_length_map in Hc.
  eapply Nat.le_trans; [| exact Hc].
  apply filter_length_mono. intros v Hv.
  pose proof (flagged_deviation med mad v Hpos Hv) as Hd.
  assert (0 <= x).
  { apply Hnn. apply (sorted_by_In (fun v => v)). eapply nth_error_In; eauto. }
  destruct (Qlt_le_dec x (Qabs (v - med))); [reflexivity | lra].
Qed.

(** X14.  The outlier loop always flags fewer than half of the samples,
    so with four to six samples the test [outlier_count > n * 0.4] fails:
    hard trimming, and with it winsorising, needs at least seven samples. *)
Theorem flagged_samples_are_a_minority (values ws : list Q) (med mad : Q) :
  values <> [] -> length ws = length values ->
  median (map (fun v => Qabs (v - med)) values) = Some mad -> 0 < mad ->
  let outlier_count :=
    snd (fold_left
           (outlier_step (map (fun v => (6745 # 10000) * (v - med) / mad) values))
           (combine (seq 0 (length values)) (combine values ws)) ([], 0%nat)) in
  (2 * outlier_count < length values)%nat
  /\ ((length values <= 6)%nat ->
      ~ inject_Z (Z.of_nat (length values)) * (2 # 5)
        < inject_Z (Z.of_nat outlier_count)).
Proof.
  intros Hne Hlen Hmad Hpos.
  rewrite (outlier_loop med mad values ws Hlen). cbn [snd].
  pose proof (flagged_count_bound values med mad Hne Hmad Hpos) as Hb.
  set (c := length (List.filter (is_outlier med mad) values)) in *.
  assert (Hn : (0 < length values)%nat) by (destruct values; [congruence | simpl; lia]).
  pose proof (Nat.div_mod_eq (length values) 2) as Hdm.
  pose proof (Nat.mod_upper_bound (length values) 2 ltac:(lia)) as Hmod.
  cbv zeta. split; [lia|].
  intros H6 Hlt.
  assert (Hq : (5 * Z.of_nat c <= 2 * Z.of_nat (length values))%Z).
  { destruct (length values) as [| [| [| [| [| [| [| n]]]]]]] eqn:En;
      cbn in Hb, Hdm; lia. }
  rewrite Zle_Qle, !inject_Z_mult in Hq.
  change (inject_Z 5) with 5 in Hq. change (inject_Z 2) with 2 in Hq. lra.
Qed.

Lemma flagged_samples_are_a_minority_witness :
  let values := [50 # 100; 51 # 100; 52 # 100; 53 # 100; 90 # 100] in
  let mad := Qabs ((53 # 100) - (52 # 100)) in
  let zs := map (fun v => (6745 # 10000) * (v - (52 # 100)) / mad) values in
  let ws : list Q := [1; 1; 1; 1; 1] in
  (2 * snd (fold_left (outlier_step zs) (combine (seq 0 5) (combine values ws))
                      ([], 0%nat)) < 5)%nat.
Proof.
  apply (proj1 (flagged_samples_are_a_minority
                  [50 # 100; 51 # 100; 52 # 100; 53 # 100; 90 # 100] [1; 1; 1; 1; 1]
                  (52 # 100) (Qabs ((53 # 100) - (52 # 100)))
                  ltac:(discriminate) eq_refl ltac:(vm_compute; reflexivity) eq_refl)).
Defined.

End OutlierMinority.

(* ================================================================== *)
(** ** The prop branch: samples, blend and emitted rows *)
(* ================================================================== *)
Section SampleFacts.
Local Open Scope Q_scope.

Lemma implied_prob_range (a : Z) :
  0 <= american_to_implied_prob a /\ american_to_implied_prob a < 1.
Proof.
  assert (Habs : 0 <= inject_Z (Z.abs a))
    by (change 0 with (inject_Z 0); rewrite <- Zle_Qle; lia).
  unfold american_to_implied_prob.
  destruct (Z.leb_spec 100 a) as [Ha | Ha].
  - assert (H : 100 <= inject_Z a)
      by (change 100 with (inject_Z 100); rewrite <- Zle_Qle; lia).
    split.
    + apply Qle_shift_div_l; lra.
    + apply Qlt_shift_div_r; lra.
  - split.
    + apply Qle_shift_div_l; lra.
    + apply Qlt_shift_div_r; lra.
Qed.

(** The no-vig share of one side of a two-sided quote is a probability. *)
Lemma no_vig_share (p q : Q) :
  0 <= p -> 0 <= q -> 0 < p + q ->
  (0 <= p / (p + q) /\ p / (p + q) <= 1)
  /\ (0 <= 1 - p / (p + q) /\ 1 - p / (p + q) <= 1).
Proof.
  intros Hp Hq Hd.
  assert (H0 : 0 <= p / (p + q)) by (apply Qle_shift_div_l; lra).
  assert (H1 : p / (p + q) <= 1) by (apply Qle_shift_div_r; lra).
  repeat split; lra.
Qed.

(** The loop over the book map, run for both sides at once from related
    accumulators. *)
Lemma fair_samples_fold (w : gmap string Q) (bm : book_map) :
  forall (po wo pu wu : list Q),
  let step (sd : side) :=
    (fun (st : list Q * list Q) (entry : string * sides) =>
       let '(fair_probs, fair_wgts) := st in
       let '(b, s) := entry in
       if String.eqb b FANDUEL_KEY then st
       else match Over s, Under s with
            | Some over, Some under =>
                let p_over := american_to_implied_prob over in
                let p_under := american_to_implied_prob under in
                let denom := p_over + p_under in
                if Qlt_le_dec 0 denom then
                  let fair_over := p_over / denom in
                  let fair_under := 1 - fair_over in
                  (fair_probs ++ [match sd with SOver => fair_over | SUnder => fair_under end],
                   fair_wgts ++ [book_weight w b])
                else st
            | _, _ => st
            end) in
  length po = length wo -> wo = wu ->
  Forall2 (fun a b => a + b == 1) po pu ->
  Forall (fun a => 0 <= a /\ a <= 1) po -> Forall (fun a => 0 <= a /\ a <= 1) pu ->
  let over := fold_left (step SOver) bm (po, wo) in
  let under := fold_left (step SUnder) bm (pu, wu) in
  length (fst over) = length (snd over) /\ snd over = snd under
  /\ Forall2 (fun a b => a + b == 1) (fst over) (fst under)
  /\ Forall (fun a => 0 <= a /\ a <= 1) (fst over)
  /\ Forall (fun a => 0 <= a /\ a <= 1) (fst under)
  /\ (length (fst over) <= length po + length bm)%nat.
Proof.
  induction bm as [| [b s] bm IH]; intros po wo pu wu step Hl Hw H2 Ho Hu.
  - cbn [fold_left fst snd length]. repeat split; auto. lia.
  - cbn [fold_left length].
    assert (Hstay : forall sd st, String.eqb b FANDUEL_KEY = true \/ Over s = None
                                  \/ Under s = None -> step sd st (b, s) = st).
    { intros sd [fp fw] H. unfold step.
      destruct (String.eqb b FANDUEL_KEY); [reflexivity|].
      destruct H as [H | [H | H]]; [discriminate | rewrite H; reflexivity |].
      rewrite H. destruct (Over s); reflexivity. }
    assert (Hskip : length (fst (fold_left (step SOver) bm (po, wo))) = length (snd (fold_left (step SOver) bm (po, wo))) /\
      snd (fold_left (step SOver) bm (po, wo)) = snd (fold_left (step SUnder) bm (pu, wu)) /\
      Forall2 (fun a b => a + b == 1) (fst (fold_left (step SOver) bm (po, wo)))
              (fst (fold_left (step SUnder) bm (pu, wu))) /\
      Forall (fun a => 0 <= a /\ a <= 1) (fst (fold_left (step SOver) bm (po, wo))) /\
      Forall (fun a => 0 <= a /\ a <= 1) (fst (fold_left (step SUnder) bm (pu, wu))) /\
      (length (fst (fold_left (step SOver) bm (po, wo))) <= length po + S (length bm))%nat).
    { destruct (IH po wo pu wu Hl Hw H2 Ho Hu) as (A & B & C & D & E & F).
      repeat split; auto. eapply Nat.le_trans; [exact F | lia]. }
    destruct (String.eqb b FANDUEL_KEY) eqn:Eb;
      [rewrite !Hstay by auto; exact Hskip|].
    destruct (Over s) as [over|] eqn:Eo; [| rewrite !Hstay by auto; exact Hskip].
    destruct (Under s) as [under|] eqn:Eu; [| rewrite !Hstay by auto; exact Hskip].
    destruct (Qlt_le_dec 0 (american_to_implied_prob over + american_to_implied_prob under))
      as [Hd | Hd].
    + assert (Hstep : forall sd fp fw,
                step sd (fp, fw) (b, s)
                = (fp ++ [match sd with
                          | SOver => american_to_implied_prob over
                                     / (american_to_implied_prob over
                                        + american_to_implied_prob under)
                          | SUnder => 1 - american_to_implied_prob over
                                          / (american_to_implied_prob over
                                             + american_to_implied_prob under)
                          end],
                   fw ++ [book_weight w b])).
      { intros sd fp fw. unfold step. rewrite Eb, Eo, Eu. cbv zeta.
        destruct (Qlt_le_dec 0 _); [reflexivity | lra]. }
      rewrite !Hstep.
      pose proof (no_vig_share _ _ (proj1 (implied_prob_range over))
                               (proj1 (implied_prob_range under)) Hd) as [Hso Hsu].
      match goal with |- context [fold_left (step SOver) bm (?a, ?b)] =>
        match goal with |- context [fold_left (step SUnder) bm (?c, ?d)] =>
          destruct (IH a b c d) as (A & B & C & D & E & F) end end.
      * rewrite !length_app. cbn [length]. lia.
      * congruence.
      * apply Forall2_app; [exact H2|]. constructor; [lra | constructor].
      * apply Forall_app; split; [exact Ho|]. constructor; [exact Hso | constructor].
      * apply Forall_app; split; [exact Hu|]. constructor; [exact Hsu | constructor].
      * repeat split; auto. eapply Nat.le_trans; [exact F |]. rewrite length_app. cbn [length]. lia.
    + assert (Hstep : forall sd st, step sd st (b, s) = st).
      { intros sd [fp fw]. unfold step. rewrite Eb, Eo, Eu. cbv zeta.
        destruct (Qlt_le_dec 0 _); [lra | reflexivity]. }
      rewrite !Hstep. exact Hskip.
Qed.

(** The reference book's own entry never contributes a sample. *)
Lemma fair_samples_skip_reference (w : gmap string Q) (bm : book_map) (sd : side) :
  forall st,
  fold_left
    (fun (st : list Q * list Q) (entry : string * sides) =>
       let '(fair_probs, fair_wgts) := st in
       let '(b, s) := entry in
       if String.eqb b FANDUEL_KEY then st
       else match Over s, Under s with
            | Some over, Some under =>
                let p_over := american_to_implied_prob over in
                let p_under := american_to_implied_prob under in
                let denom := p_over + p_under in
                if Qlt_le_dec 0 denom then
                  let fair_over := p_over / denom in
                  let fair_under := 1 - fair_over in
                  (fair_probs ++ [match sd with SOver => fair_over | SUnder => fair_under end],
                   fair_wgts ++ [book_weight w b])
                else st
            | _, _ => st
            end)
    (List.filter (fun e => negb (String.eqb (fst e) FANDUEL_KEY)) bm) st
  = fold_left
    (fun (st : list Q * list Q) (entry : string * sides) =>
       let '(fair_probs, fair_wgts) := st in
       let '(b, s) := entry in
       if String.eqb b FANDUEL_KEY then st
       else match Over s, Under s with
            | Some over, Some under =>
                let p_over := american_to_implied_prob over in
                let p_under := american_to_implied_prob under in
                let denom := p_over + p_under in
                if Qlt_le_dec 0 denom then
                  let fair_over := p_over / denom in
                  let fair_under := 1 - fair_over in
                  (fair_probs ++ [match sd with SOver => fair_over | SUnder => fair_under end],
                   fair_wgts ++ [book_weight w b])
                else st
            | _, _ => st
            end)
    bm st.
Proof.
  induction bm as [| [b s] bm IH]; intros [fp fw]; [reflexivity|].
  cbn [List.filter fst fold_left].
  destruct (String.eqb b FANDUEL_KEY) eqn:Eb; cbn [negb].
  - apply IH.
  - cbn [fold_left]. rewrite Eb. apply IH.
Qed.

(** X15.  The no-vig samples of a prop side: one weight per sample, at most
    one sample per book; every sample is a probability; the Over and the
    Under samples of one market come from the same books, carry the same
    weights and add up to 1 pairwise; and the reference book's own quote
    has no part in them. *)
Theorem fair_samples_complementary (w : gmap string Q) (bm : book_map) :
  let over := fair_samples w bm SOver in
  let under := fair_samples w bm SUnder in
  length (fst over) = length (snd over)
  /\ (length (fst over) <= length bm)%nat
  /\ snd over = snd under
  /\ Forall2 (fun a b => a + b == 1) (fst over) (fst under)
  /\ Forall (fun a => 0 <= a /\ a <= 1) (fst over)
  /\ Forall (fun a => 0 <= a /\ a <= 1) (fst under)
  /\ (forall sd,
        fair_samples w (List.filter (fun e => negb (String.eqb (fst e) FANDUEL_KEY)) bm) sd
        = fair_samples w bm sd).
Proof.
  cbv zeta.
  destruct (fair_samples_fold w bm [] [] [] [] eq_refl eq_refl
              ltac:(constructor) ltac:(constructor) ltac:(constructor))
    as (A & B & C & D & E & F).
  unfold fair_samples.
  repeat split; auto.
  intros sd. apply fair_samples_skip_reference.
Qed.

(** X16.  The blended true probability exists exactly when there is a
    sample; it then stays within 0.10 of the median sample and within 0.05
    of the sample range, whatever the consensus and the model say. *)
Theorem blended_true_prob_bounds (fair_probs : list Q) (market_prob : Q) (sg : signals) :
  (blended_true_prob fair_probs market_prob sg = None <-> fair_probs = [])
  /\ (forall tp, blended_true_prob fair_probs market_prob sg = Some tp ->
        exists p_med,
          median fair_probs = Some p_med
          /\ p_med - (10 # 100) <= tp /\ tp <= p_med + (10 # 100)
          /\ py_min fair_probs - (5 # 100) <= tp
          /\ tp <= py_max fair_probs + (5 # 100)).
Proof.
  split.
  - unfold blended_true_prob. cbv zeta. split.
    + destruct fair_probs as [| v l]; [reflexivity|].
      destruct (median_defined (v :: l) ltac:(discriminate)) as [m ->]. discriminate.
    + intros ->. reflexivity.
  - intros tp. unfold blended_true_prob. cbv zeta.
    destruct (median fair_probs) as [p_med|] eqn:Em; [|discriminate].
    intros [= <-]. exists p_med. split; [reflexivity|].
    assert (Hne : fair_probs <> []) by (intros ->; discriminate).
    assert (Hmed : py_min fair_probs <= p_med /\ p_med <= py_max fair_probs).
    { apply (median_between fair_probs); [|exact Em].
      intros v Hv. apply py_min_max_bound. exact Hv. }
    set (x := _ * market_prob + _).
    set (lo := py_min fair_probs) in *. set (hi := py_max fair_probs) in *.
    destruct Hmed as [H1 H2].
    repeat split.
    + apply Q.le_max_r.
    + apply Q.max_lub; [apply Q.le_min_r | lra].
    + apply Q.max_le_iff. left. apply Q.min_glb; [apply Q.le_max_l | lra].
    + apply Q.max_lub; [|lra].
      eapply Qle_trans; [apply Q.le_min_l|].
      apply Q.max_lub; [lra | apply Q.le_min_l].
Qed.

Lemma blended_true_prob_bounds_witness :
  let tp := (64 # 100) + (5 # 100) in
  exists p_med,
    median [60 # 100; 62 # 100; 64 # 100] = Some p_med
    /\ p_med - (10 # 100) <= tp /\ tp <= p_med + (10 # 100)
    /\ py_min [60 # 100; 62 # 100; 64 # 100] - (5 # 100) <= tp
    /\ tp <= py_max [60 # 100; 62 # 100; 64 # 100] + (5 # 100).
Proof.
  apply (proj2 (blended_true_prob_bounds [60 # 100; 62 # 100; 64 # 100] 1
                  {| sig_cv := 7 # 10; sig_negative_binomial := 1;
                     sig_poisson := 1; sig_injury := None;
                     sig_minutes := None; sig_steam := 0 |})).
  vm_compute. reflexivity.
Defined.

End SampleFacts.

Section EmittedRows.
Local Open Scope Q_scope.
Import Samples.

(** What the filters of [score_prop_side] leave on an emitted row. *)
Lemma scored_row_passes_filters (a : worker_args) (th : gmap string Z)
      (matchup who label : string) (sd : side) (line : Q) (fd : Z)
      (gaps : Z * option string * option Z * Z) (books : nat) (mp tp : Q)
      (sg : signals) (r : row) :
  score_prop_side a th matchup who label sd line fd gaps books mp tp sg = Emit r ->
  (FD_Odds r = fd /\ fd <> 0%Z /\ Books_Used r = books)
  /\ (Matchup r = matchup /\ Player r = who /\ Market r = label
      /\ Side r = side_name sd /\ Line r = line)
  /\ w_min_true_prob_pct a <= inject_Z (Confidence r)
  /\ (0 < w_min_true_prob_pct a -> w_min_true_prob_pct a <= True_Prob_pct r)
  /\ (w_require_ev a = true -> w_min_ev a <= EV_pct r)
  /\ (w_require_gap a = true -> (w_min_gap_cents a <= Gap_cents r)%Z)
  /\ (0 <= Kelly_pct r /\ Kelly_pct r <= KELLY_CAP_PCT).
Proof.
  unfold score_prop_side.
  destruct gaps as [[[cents_delta bb] bp] cents_delta_avg].
  destruct (minutes_confidence_adjust (sig_minutes sg)) as [min_adj min_tag].
  destruct (american_to_decimal fd) as [fd_dec|] eqn:Ed; [|discriminate].
  match goal with |- context [if negb (?e && ?p && ?v) then Skip else _] =>
    destruct e eqn:Ee; [|discriminate];
    destruct p eqn:Ep; [|discriminate];
    destruct v eqn:Ev; [|discriminate] end.
  cbn [andb negb].
  match goal with |- context [let '(conf, badge) := ?e in _] =>
    destruct e as [conf badge] end.
  destruct (Qlt_le_dec (inject_Z conf) (w_min_true_prob_pct a)) as [|Hconf];
    [discriminate|].
  intros [= <-].
  cbn [FD_Odds Books_Used Matchup Player Market Side Line Confidence
       True_Prob_pct EV_pct Gap_cents Kelly_pct].
  split; [| split; [| split; [| split; [| split; [| split]]]]].
  - repeat split. intros ->. discriminate.
  - repeat split.
  - exact Hconf.
  - intros Hpos. destruct (Qlt_le_dec 0 (w_min_true_prob_pct a)); [|lra].
    apply Qle_bool_iff. exact Ep.
  - intros Hr. rewrite Hr in Ev. apply Qle_bool_iff. exact Ev.
  - intros Hr. rewrite Hr in Ee.
    destruct (String.eqb (w_window_mode a) "morning").
    + apply andb_prop in Ee. destruct Ee as [Ee _]. apply Z.leb_le. exact Ee.
    + apply Z.leb_le. exact Ee.
  - assert (H : inject_Z 0 / 100
                <= Qmin KELLY_CAP_PCT
                        (Qmax 0 (kelly_fraction tp fd_dec * CURRENT_KELLY_MULT * 100))
                /\ Qmin KELLY_CAP_PCT
                        (Qmax 0 (kelly_fraction tp fd_dec * CURRENT_KELLY_MULT * 100))
                   <= inject_Z 250 / 100).
    { split.
      - apply Q.min_glb; [vm_compute; discriminate|].
        eapply Qle_trans; [| apply Q.le_max_l]. vm_compute. discriminate.
      - eapply Qle_trans; [apply Q.le_min_l|]. vm_compute. discriminate. }
    destruct (py_round2_between 0 250 _ (proj1 H) (proj2 H)) as [H0 H1].
    split.
    + eapply Qle_trans; [| exact H0]. vm_compute. discriminate.
    + eapply Qle_trans; [exact H1|]. vm_compute. discriminate.
Qed.

(** X17.  Every prop row that the event worker emits passed every filter:
    its odds are the reference book's price for that side, non-zero and
    inside the window's odds range; at least the effective minimum of books
    contributed; its confidence is at least the window's probability
    threshold, and so is its true probability when that threshold is
    positive; its EV% and best gap meet the minima when the window asks for
    them; and its Kelly% lies within [[0, 2.5]]. *)
Theorem emitted_row_passes_filters (a : worker_args) (th : gmap string Z)
        (w : gmap string Q) (matchup who mk : string) (line : Q) (bm : book_map)
        (sd : side) (sg : signals) (r : row) :
  process_prop_side a th w matchup who mk line bm sd sg = Emit r ->
  (exists s, dict_get String.eqb bm FANDUEL_KEY = Some s
             /\ side_price sd s = Some (FD_Odds r))
  /\ FD_Odds r <> 0%Z
  /\ odds_filter_rejects (w_window_mode a) (FD_Odds r) = false
  /\ Books_Used r = length (fst (fair_samples w bm sd))
  /\ (w_min_books a <= Z.of_nat (Books_Used r))%Z
  /\ market_label mk = Some (Market r)
  /\ (Matchup r = matchup /\ Player r = who /\ Side r = side_name sd
      /\ Line r = line)
  /\ w_min_true_prob_pct a <= inject_Z (Confidence r)
  /\ (0 < w_min_true_prob_pct a -> w_min_true_prob_pct a <= True_Prob_pct r)
  /\ (w_require_ev a = true -> w_min_ev a <= EV_pct r)
  /\ (w_require_gap a = true -> (w_min_gap_cents a <= Gap_cents r)%Z)
  /\ (0 <= Kelly_pct r /\ Kelly_pct r <= KELLY_CAP_PCT).
Proof.
  unfold process_prop_side.
  destruct (market_label mk) as [label|]; [|discriminate].
  destruct (dict_get String.eqb bm FANDUEL_KEY) as [s|]; [|discriminate].
  destruct (side_price sd s) as [fd|] eqn:Efd; [|discriminate].
  destruct (odds_filter_rejects (w_window_mode a) fd) eqn:Ew; [discriminate|].
  destruct (fair_samples w bm sd) as [fair_probs fair_wgts]. cbn [fst].
  destruct (Z.ltb_spec (Z.of_nat (length fair_probs)) (w_min_books a)) as [|Hb];
    [discriminate|].
  destruct (trimmed_weighted_mean fair_probs (WList fair_wgts) (w_trim_used a))
    as [market_prob | |]; try discriminate.
  destruct (blended_true_prob fair_probs market_prob sg) as [true_prob|];
    [|discriminate].
  intros He. apply scored_row_passes_filters in He.
  destruct He as ((Hfd & Hz & Hbk) & (Hm & Hp & Hl & Hs & Hln) & Hconf & Htp
                  & Hev & Hgap & Hk).
  rewrite Hfd, Hbk, Hl.
  split; [exists s; split; [reflexivity | exact Efd]|].
  repeat split; auto; apply Hk.
Qed.

Lemma emitted_row_passes_filters_witness :
  w_min_true_prob_pct pretip_args <= inject_Z 57.
Proof.
  pose (r := {| Matchup := "BOS @ NYK"; Player := "Jalen Brunson"; Market := "Points";
                Side := "Over"; Line := 49 # 2; FD_Odds := -150;
                Gap_cents := 35; Avg_Gap_cents := 40; Books_Used := 3;
                Fair_Prob_pct := 6209 # 100; True_Prob_pct := 6208 # 100;
                EV_pct := 347 # 100; Confidence := 57; Badge := LOW;
                Kelly_pct := 250 # 100; Corr := FlagOK;
                Min_Med_IQR := Some (30, 4, 4%nat); Steam := false |}).
  assert (He : process_prop_side pretip_args BADGE_THRESHOLDS no_weights
                 "BOS @ NYK" "Jalen Brunson" "player_points" (49 # 2)
                 points_books SOver four_game_signals = Emit r)
    by (vm_compute; reflexivity).
  pose proof (emitted_row_passes_filters _ _ _ _ _ _ _ _ _ _ _ He) as H.
  exact (proj1 (proj2 (proj2 (proj2 (proj2 (proj2 (proj2 (proj2 H)))))))).
Defined.

(** X18.  The odds window of the props branch: in the "pretip" window a
    reference price passes exactly when it lies in [[-240, -140]], in the
    "plus_odds" window exactly when it lies in [[100, 400]], and in any
    other window every price passes. *)
Theorem odds_window_of_each_mode (fd : Z) :
  (odds_filter_rejects "pretip" fd = false <-> (-240 <= fd <= -140)%Z)
  /\ (odds_filter_rejects "plus_odds" fd = false <-> (100 <= fd <= 400)%Z)
  /\ (forall wm : string,
        wm <> "pretip"%string -> wm <> "plus_odds"%string ->
        odds_filter_rejects wm fd = false).
Proof.
  assert (Hp : WINDOW_PRESETS !! "pretip"%string = Some pretip)
    by (vm_compute; reflexivity).
  assert (Hq : WINDOW_PRESETS !! "plus_odds"%string = Some plus_odds)
    by (vm_compute; reflexivity).
  split; [| split].
  - unfold odds_filter_rejects. rewrite Hp.
    cbn [String.eqb Ascii.eqb Bool.eqb orb andb mode pretip fd_odds_min fd_odds_max default
         from_option]. unfold Datatypes.id.
    destruct (Z.leb_spec (-240) fd), (Z.leb_spec fd (-140)); cbn [andb negb];
      split; intros; try lia; try discriminate; reflexivity.
  - unfold odds_filter_rejects. rewrite Hq.
    cbn [String.eqb Ascii.eqb Bool.eqb orb andb mode plus_odds fd_odds_min fd_odds_max
         default from_option]. unfold Datatypes.id.
    destruct (Z.leb_spec 100 fd), (Z.leb_spec fd 400); cbn [andb negb];
      split; intros; try lia; try discriminate; reflexivity.
  - intros wm H1 H2. unfold odds_filter_rejects.
    destruct (String.eqb_spec wm "pretip"); [congruence|].
    destruct (String.eqb_spec wm "plus_odds"); [congruence|].
    reflexivity.
Qed.

Lemma odds_window_of_each_mode_witness :
  odds_filter_rejects "morning" 250 = false.
Proof.
  apply (proj2 (proj2 (odds_window_of_each_mode 250))); discriminate.
Defined.

End EmittedRows.

(* ================================================================== *)
(** ** Ranking: portfolio caps and the order of the output *)
(* ================================================================== *)
Section SublistFacts.
Context {X : Type}.

Lemma sublist_In_keeps (l1 l2 : list X) (x : X) :
  sublist l1 l2 -> In x l1 -> In x l2.
Proof.
  induction 1 as [| y l1 l2 _ IH | y l1 l2 _ IH]; cbn [In]; intuition.
Qed.




Lemma py_slice_sublist (l : list X) (i j : Z) : sublist (py_slice l i j) l.
Proof.
  unfold py_slice.
  eapply (@transitivity _ sublist _); [apply sublist_take | apply sublist_drop].
Qed.


End SublistFacts.

Section CapsFacts.
Variables max_per_game max_per_player : Z.
Variable step : list row * gmap string Z * gmap string Z -> row
                -> list row * gmap string Z * gmap string Z.
Hypothesis step_eq : forall out by_game by_player r,
  step (out, by_game, by_player) r
  = if (max_per_game <=? get_default by_game (Matchup r) 0)%Z
    then (out, by_game, by_player)
    else if (max_per_player <=? get_default by_player (Player r) 0)%Z
    then (out, by_game, by_player)
    else (out ++ [r],
          <[ Matchup r := (get_default by_game (Matchup r) 0 + 1)%Z ]> by_game,
          <[ Player r := (get_default by_player (Player r) 0 + 1)%Z ]> by_player).

Lemma get_default_insert (m : gmap string Z) (k k' : string) (v : Z) :
  get_default (<[ k := v ]> m) k' 0%Z
  = if String.eqb k k' then v else get_default m k' 0%Z.
Proof.
  unfold get_default. rewrite lookup_insert.
  destruct (String.eqb_spec k k'), (decide (k = k')); try congruence; reflexivity.
Qed.

Lemma in_game_snoc (g : string) (l : list row) (r : row) :
  in_game g (l ++ [r])
  = (in_game g l + if String.eqb (Matchup r) g then 1 else 0)%nat.
Proof.
  unfold in_game. rewrite List.filter_app, length_app. cbn [List.filter].
  destruct (String.eqb (Matchup r) g); reflexivity.
Qed.

Lemma of_player_snoc (p : string) (l : list row) (r : row) :
  of_player p (l ++ [r])
  = (of_player p l + if String.eqb (Player r) p then 1 else 0)%nat.
Proof.
  unfold of_player. rewrite List.filter_app, length_app. cbn [List.filter].
  destruct (String.eqb (Player r) p); reflexivity.
Qed.

Lemma caps_step_keeps_invariant (st : list row * gmap string Z * gmap string Z) (r : row) :
  caps_invariant max_per_game max_per_player st ->
  caps_invariant max_per_game max_per_player (step st r).
Proof.
  destruct st as [[out bg] bp]. intros (Hg & Hp & Hcg & Hcp).
  rewrite step_eq.
  destruct (Z.leb_spec max_per_game (get_default bg (Matchup r) 0%Z)) as [|Hlg];
    [repeat split; assumption|].
  destruct (Z.leb_spec max_per_player (get_default bp (Player r) 0%Z)) as [|Hlp];
    [repeat split; assumption|].
  unfold caps_invariant. repeat split.
  - intros g. rewrite get_default_insert, in_game_snoc.
    destruct (String.eqb_spec (Matchup r) g) as [<-|]; rewrite Hg; lia.
  - intros p. rewrite get_default_insert, of_player_snoc.
    destruct (String.eqb_spec (Player r) p) as [<-|]; rewrite Hp; lia.
  - intros g. rewrite in_game_snoc. specialize (Hcg g).
    destruct (String.eqb_spec (Matchup r) g) as [<-|]; [rewrite Hg in Hlg|]; lia.
  - intros p. rewrite of_player_snoc. specialize (Hcp p).
    destruct (String.eqb_spec (Player r) p) as [<-|]; [rewrite Hp in Hlp|]; lia.
Qed.

Lemma caps_fold_sublist (rows : list row) :
  forall st, exists kept,
    fst (fst (fold_left step rows st)) = fst (fst st) ++ kept /\ sublist kept rows.
Proof.
  induction rows as [| r rows IH]; intros [[out bg] bp]; cbn [fold_left fst].
  - exists []. rewrite app_nil_r. split; [reflexivity | constructor].
  - destruct (IH (step (out, bg, bp) r)) as (kept & Hk & Hs). rewrite Hk.
    rewrite step_eq.
    destruct (max_per_game <=? get_default bg (Matchup r) 0)%Z;
      [exists kept; split; [reflexivity | constructor; exact Hs]|].
    destruct (max_per_player <=? get_default bp (Player r) 0)%Z;
      [exists kept; split; [reflexivity | constructor; exact Hs]|].
    exists (r :: kept). cbn [fst]. rewrite <- app_assoc. split; [reflexivity|].
    constructor. exact Hs.
Qed.

(** When no cap binds on the rows still to come, all of them are kept. *)
Lemma caps_fold_keeps_all (rows : list row) :
  forall st, caps_invariant max_per_game max_per_player st ->
  (forall g, (Z.of_nat (in_game g (fst (fst st) ++ rows)) <= max_per_game)%Z) ->
  (forall p, (Z.of_nat (of_player p (fst (fst st) ++ rows)) <= max_per_player)%Z) ->
  fst (fst (fold_left step rows st)) = fst (fst st) ++ rows.
Proof.
  induction rows as [| r rows IH]; intros [[out bg] bp] Hinv Hg Hp; cbn [fold_left fst] in *.
  - rewrite app_nil_r. reflexivity.
  - pose proof (caps_step_keeps_invariant (out, bg, bp) r Hinv) as Hinv'.
    destruct Hinv as (Ig & Ip & _ & _).
    assert (Hstep : step (out, bg, bp) r
                    = (out ++ [r],
                       <[ Matchup r := (get_default bg (Matchup r) 0 + 1)%Z ]> bg,
                       <[ Player r := (get_default bp (Player r) 0 + 1)%Z ]> bp)).
    { rewrite step_eq.
      specialize (Hg (Matchup r)). specialize (Hp (Player r)).
      unfold in_game in Hg. unfold of_player in Hp.
      rewrite List.filter_app, length_app in Hg, Hp. cbn [List.filter] in Hg, Hp.
      rewrite String.eqb_refl in Hg, Hp. cbn [length] in Hg, Hp.
      fold (in_game (Matchup r) out) in Hg. fold (of_player (Player r) out) in Hp.
      destruct (Z.leb_spec max_per_game (get_default bg (Matchup r) 0%Z));
        [rewrite Ig in *; lia|].
      destruct (Z.leb_spec max_per_player (get_default bp (Player r) 0%Z));
        [rewrite Ip in *; lia|].
      reflexivity. }
    rewrite Hstep in *.
    rewrite (IH _ Hinv'); cbn [fst]; rewrite <- ?app_assoc; auto.
Qed.

End CapsFacts.

Section RankingFacts.
Local Open Scope Q_scope.

Lemma caps_invariant_start (mg mp : Z) : caps_invariant mg mp ([], ∅, ∅).
Proof.
  unfold caps_invariant, get_default, in_game, of_player. cbn [List.filter length].
  repeat split; intros; rewrite ?lookup_empty; cbn; lia.
Qed.

(** What the greedy filter guarantees, in one statement. *)
Lemma enforce_portfolio_caps_facts (rows : list row) (mg mp : Z) :
  sublist (enforce_portfolio_caps rows mg mp) rows
  /\ (forall g, (Z.of_nat (in_game g (enforce_portfolio_caps rows mg mp))
                 <= Z.max 0 mg)%Z)
  /\ (forall p, (Z.of_nat (of_player p (enforce_portfolio_caps rows mg mp))
                 <= Z.max 0 mp)%Z)
  /\ ((forall g, (Z.of_nat (in_game g rows) <= mg)%Z) ->
      (forall p, (Z.of_nat (of_player p rows) <= mp)%Z) ->
      enforce_portfolio_caps rows mg mp = rows).
Proof.
  unfold enforce_portfolio_caps.
  match goal with |- context [fold_left ?f rows _] => set (step := f) end.
  assert (step_eq : forall out bg bp r,
    step (out, bg, bp) r
    = if (mg <=? get_default bg (Matchup r) 0)%Z then (out, bg, bp)
      else if (mp <=? get_default bp (Player r) 0)%Z then (out, bg, bp)
      else (out ++ [r],
            <[ Matchup r := (get_default bg (Matchup r) 0 + 1)%Z ]> bg,
            <[ Player r := (get_default bp (Player r) 0 + 1)%Z ]> bp))
    by reflexivity.
  pose proof (fold_left_invariant (caps_invariant mg mp) step rows ([], ∅, ∅)
                (caps_step_keeps_invariant mg mp step step_eq)
                (caps_invariant_start mg mp)) as Hinv.
  destruct (caps_fold_sublist mg mp step step_eq rows ([], ∅, ∅)) as (kept & Hk & Hs).
  pose proof (caps_fold_keeps_all mg mp step step_eq rows ([], ∅, ∅)
                (caps_invariant_start mg mp)) as Hall.
  destruct (fold_left step rows ([], ∅, ∅)) as [[out bg] bp].
  cbn [fst app] in *. subst out.
  destruct Hinv as (_ & _ & Hcg & Hcp).
  repeat split; auto.
Qed.

(** X19.  [enforce_portfolio_caps] keeps a subsequence of its input, in
    the input's order; the output holds at most [max_per_game] rows of any
    game and at most [max_per_player] rows of any player (none at all when
    a cap is zero or negative); and an input that already respects both
    caps is returned unchanged. *)
Theorem portfolio_caps_enforced (rows : list row) (max_per_game max_per_player : Z) :
  let out := enforce_portfolio_caps rows max_per_game max_per_player in
  sublist out rows
  /\ (forall g, (Z.of_nat (in_game g out) <= Z.max 0 max_per_game)%Z)
  /\ (forall p, (Z.of_nat (of_player p out) <= Z.max 0 max_per_player)%Z)
  /\ ((forall g, (Z.of_nat (in_game g rows) <= max_per_game)%Z) ->
      (forall p, (Z.of_nat (of_player p rows) <= max_per_player)%Z) ->
      out = rows).
Proof. apply enforce_portfolio_caps_facts. Qed.

Lemma portfolio_caps_enforced_witness :
  enforce_portfolio_caps [Samples.cand_a; Samples.cand_b] 2 1
  = [Samples.cand_a; Samples.cand_b].
Proof.
  apply (proj2 (proj2 (proj2
           (portfolio_caps_enforced [Samples.cand_a; Samples.cand_b] 2 1)))).
  - intros g. unfold in_game. cbn [List.filter Matchup Samples.cand_a Samples.cand_b].
    repeat destruct (String.eqb _ g); cbn [length]; lia.
  - intros p. unfold of_player. cbn [List.filter Player Samples.cand_a Samples.cand_b].
    change (String.eqb "Jalen Brunson" p) with (String.eqb (Player Samples.cand_a) p).
    destruct (String.eqb_spec (Player Samples.cand_a) p) as [<-|];
      [vm_compute; discriminate|].
    destruct (String.eqb _ p); cbn [length]; lia.
Defined.

End RankingFacts.

Section RankOutput.
Local Open Scope Q_scope.



End RankOutput.

(* ================================================================== *)
(** ** Correlation penalties: who is penalised *)
(* ================================================================== *)
Section CorrelationEntries.

Lemma key_eqb_refl (k : key) : key_eqb k k = true.
Proof.
  destruct k as [[[[m p] mk] s] l]. unfold key_eqb.
  rewrite !String.eqb_refl. cbn [andb]. apply Qeq_bool_iff. reflexivity.
Qed.

Lemma dict_set_defined {V : Type} (d : list (key * V)) (k : key) (v : V) :
  dict_get key_eqb (dict_set key_eqb d k v) k = Some v.
Proof.
  induction d as [| [k' v'] d IH]; cbn [dict_set dict_get].
  - rewrite key_eqb_refl. reflexivity.
  - destruct (key_eqb k' k) eqn:E; cbn [dict_get]; rewrite E; [reflexivity | exact IH].
Qed.

Lemma dict_set_keeps_defined {V : Type} (d : list (key * V)) (k k' : key) (v : V) :
  dict_get key_eqb d k' <> None ->
  dict_get key_eqb (dict_set key_eqb d k v) k' <> None.
Proof.
  induction d as [| [k0 v0] d IH]; cbn [dict_set dict_get]; [congruence|].
  destruct (key_eqb k0 k) eqn:E; cbn [dict_get];
    destruct (key_eqb k0 k'); auto; discriminate.
Qed.

Lemma dict_setdefault_defined {V : Type} (d : list (key * V)) (k : key) (v : V) :
  dict_get key_eqb (dict_setdefault key_eqb d k v) k <> None.
Proof.
  unfold dict_setdefault.
  destruct (dict_get key_eqb d k) eqn:E; [congruence|].
  rewrite dict_set_defined. discriminate.
Qed.

Lemma dict_setdefault_keeps_defined {V : Type} (d : list (key * V)) (k k' : key) (v : V) :
  dict_get key_eqb d k' <> None ->
  dict_get key_eqb (dict_setdefault key_eqb d k v) k' <> None.
Proof.
  unfold dict_setdefault.
  destruct (dict_get key_eqb d k); [auto|]. apply dict_set_keeps_defined.
Qed.

(** The closing loop gives every row's key an entry in both dictionaries. *)
Lemma setdefault_loop_defined (rows : list row) :
  forall (st : pen_dict * flag_dict) (r : row),
  In r rows
  \/ (dict_get key_eqb (fst st) (row_key r) <> None
      /\ dict_get key_eqb (snd st) (row_key r) <> None) ->
  let st' :=
    fold_left
      (fun (st : pen_dict * flag_dict) r =>
         let '(pen, flag) := st in
         (dict_setdefault key_eqb pen (row_key r) 0%Z,
          dict_setdefault key_eqb flag (row_key r) FlagOK))
      rows st in
  dict_get key_eqb (fst st') (row_key r) <> None
  /\ dict_get key_eqb (snd st') (row_key r) <> None.
Proof.
  induction rows as [| r0 rows IH]; intros [pen flag] r H; cbn [fold_left].
  - destruct H as [[] | H]. exact H.
  - apply IH. cbn [fst snd] in *.
    destruct H as [[-> | H] | [H1 H2]].
    + right. split; apply dict_setdefault_defined.
    + left. exact H.
    + right. split; apply dict_setdefault_keeps_defined; assumption.
Qed.

(** X21.  [correlation_penalty] gives every candidate's key an entry in
    both of its dictionaries, with a non-negative number of points; and a
    pool of one candidate gets 0 points and the flag "OK". *)
Theorem correlation_penalty_covers_rows (rows : list row) :
  (forall r, In r rows ->
     exists pts flag,
       dict_get key_eqb (fst (correlation_penalty rows)) (row_key r) = Some pts
       /\ (0 <= pts)%Z
       /\ dict_get key_eqb (snd (correlation_penalty rows)) (row_key r) = Some flag)
  /\ (forall r, correlation_penalty [r]
                = ([(row_key r, 0%Z)], [(row_key r, FlagOK)])).
Proof.
  split.
  - intros r Hr.
    pose proof (correlation_penalty_nonneg rows) as Hnn.
    pose proof (dict_get_nonneg _ (row_key r) Hnn) as Hpts.
    unfold correlation_penalty in *.
    match goal with |- context [fold_left ?f rows ?st] =>
      pose proof (setdefault_loop_defined rows st r (or_introl Hr)) as [H1 H2] end.
    cbv zeta in H1, H2.
    match type of H1 with dict_get key_eqb (fst ?e) _ <> None =>
      destruct (dict_get key_eqb (fst e) (row_key r)) as [pts|] eqn:E1; [|congruence];
      destruct (dict_get key_eqb (snd e) (row_key r)) as [fl|] eqn:E2; [|congruence]
    end.
    exists pts, fl. cbn [default from_option id] in Hpts. repeat split; auto.
  - intros r. unfold correlation_penalty, group_append.
    cbn [fold_left dict_get dict_set default from_option app].
    unfold player_step, game_step. cbn [snd length Nat.ltb Nat.leb fold_left].
    unfold dict_setdefault. cbn [dict_get dict_set]. reflexivity.
Qed.

Lemma correlation_penalty_covers_rows_witness :
  exists pts flag,
    dict_get key_eqb (fst (correlation_penalty [Samples.cand_a; Samples.cand_b]))
             (row_key Samples.cand_b) = Some pts
    /\ (0 <= pts)%Z
    /\ dict_get key_eqb (snd (correlation_penalty [Samples.cand_a; Samples.cand_b]))
                (row_key Samples.cand_b) = Some flag.
Proof.
  apply (proj1 (correlation_penalty_covers_rows [Samples.cand_a; Samples.cand_b])).
  right. left. reflexivity.
Defined.

End CorrelationEntries.

Section SamePlayerPair.

Lemma distinct_pair (a b : string) :
  distinct [a; b] = if String.eqb a b then 1%nat else 2%nat.
Proof.
  unfold distinct. cbn [list_to_set].
  destruct (String.eqb_spec a b) as [<- | Hne].
  - rewrite (right_id_L ∅ (∪)), (idemp_L (∪)). apply size_singleton.
  - rewrite (right_id_L ∅ (∪)), size_union
      by (apply disjoint_singleton_l, not_elem_of_singleton; exact Hne).
    rewrite !size_singleton. reflexivity.
Qed.

Lemma game_step_small (st : pen_dict * flag_dict) (entry : string * list key) :
  (length (snd entry) <= 2)%nat -> game_step st entry = st.
Proof.
  intros H. unfold game_step.
  destruct (Nat.ltb_spec 2 (length (snd entry))); [lia | reflexivity].
Qed.

(** X22.  A pool of two different bets on the same player: the bet that
    comes first in the pool gets no penalty points, the second one gets 5
    points when both are on the same market and 2 when the markets differ;
    both are flagged "P2". *)
Theorem second_bet_on_a_player_is_penalised (r1 r2 : row) :
  Player r2 = Player r1 ->
  key_eqb (row_key r1) (row_key r2) = false ->
  correlation_penalty [r1; r2]
  = ([(row_key r1, 0%Z);
      (row_key r2, if String.eqb (Market r1) (Market r2) then 5%Z else 2%Z)],
     [(row_key r1, FlagP 2); (row_key r2, FlagP 2)]).
Proof.
  intros Hp Hk.
  assert (Hk1 := key_eqb_refl (row_key r1)).
  assert (Hk2 := key_eqb_refl (row_key r2)).
  unfold correlation_penalty.
  assert (Ebp : fold_left (fun d r => group_append d (Player r) (row_key r)) [r1; r2] []
                = [(Player r1, [row_key r1; row_key r2])]).
  { cbn [fold_left]. unfold group_append.
    cbn [dict_get dict_set default from_option id app].
    rewrite Hp, String.eqb_refl. cbn [default from_option id app]. reflexivity. }
  assert (Eplayer : fold_left player_step [(Player r1, [row_key r1; row_key r2])] ([], [])
                    = ([(row_key r1, 0%Z);
                        (row_key r2,
                         if String.eqb (Market r1) (Market r2) then 5%Z else 2%Z)],
                       [(row_key r1, FlagP 2); (row_key r2, FlagP 2)])).
  { cbn [fold_left]. unfold player_step. cbn [snd length Nat.ltb Nat.leb map].
    change (key_market (row_key r1)) with (Market r1).
    change (key_market (row_key r2)) with (Market r2).
    rewrite distinct_pair.
    cbn [seq combine fold_left dict_get dict_set default from_option id].
    rewrite Hk. cbn [dict_get dict_set default from_option id].
    destruct (String.eqb (Market r1) (Market r2)); reflexivity. }
  assert (Egame : forall st,
            fold_left game_step
              (fold_left (fun d r => group_append d (Matchup r) (row_key r))
                         [r1; r2] []) st = st).
  { intros st. cbn [fold_left]. unfold group_append.
    cbn [dict_get dict_set default from_option id app].
    destruct (String.eqb (Matchup r1) (Matchup r2));
      cbn [dict_get dict_set default from_option id app fold_left];
      repeat (rewrite game_step_small; [| cbn [snd length]; lia]); reflexivity. }
  rewrite Ebp, Eplayer, Egame. cbn [fold_left].
  unfold dict_setdefault. cbn [dict_get].
  rewrite Hk1. cbn [dict_get]. rewrite Hk, Hk2. reflexivity.
Qed.

Lemma second_bet_on_a_player_is_penalised_witness :
  correlation_penalty
    [Samples.scored_row "BOS @ NYK" "Jalen Brunson" "Points" (49 # 2) (-150) 62
                        (333 # 100) 62 MED;
     Samples.scored_row "BOS @ NYK" "Jalen Brunson" "Assists" (13 # 2) (-120) 60
                        (250 # 100) 60 MED]
  = ([(("BOS @ NYK", "Jalen Brunson", "Points", "Over", 49 # 2)%string, 0%Z);
      (("BOS @ NYK", "Jalen Brunson", "Assists", "Over", 13 # 2)%string, 2%Z)],
     [(("BOS @ NYK", "Jalen Brunson", "Points", "Over", 49 # 2)%string, FlagP 2);
      (("BOS @ NYK", "Jalen Brunson", "Assists", "Over", 13 # 2)%string, FlagP 2)]).
Proof.
  apply (second_bet_on_a_player_is_penalised
           (Samples.scored_row "BOS @ NYK" "Jalen Brunson" "Points" (49 # 2) (-150) 62
                               (333 # 100) 62 MED)
           (Samples.scored_row "BOS @ NYK" "Jalen Brunson" "Assists" (13 # 2) (-120) 60
                               (250 # 100) 60 MED));
    reflexivity.
Defined.

End SamePlayerPair.

(* ================================================================== *)
(** ** Daily picks: locks, lotto tickets and parlays *)
(* ================================================================== *)
Section PairSortFacts.
Import Picks.
Context {A : Type} (key : A -> Z * Z).







End PairSortFacts.

Section TopOfSorted.
Context {X : Type}.

Lemma py_slice_head (l : list X) (n : Z) :
  (0 <= n)%Z -> py_slice l 0 n = firstn (Z.to_nat n) l.
Proof.
  intros Hn. unfold py_slice, slice_bound.
  destruct (Z.ltb_spec 0 0); [lia|]. destruct (Z.ltb_spec n 0); [lia|].
  replace (Z.to_nat (Z.min 0 (Z.of_nat (length l)))) with 0%nat by lia.
  cbn [skipn]. rewrite Nat.sub_0_r.
  destruct (Z.le_ge_cases n (Z.of_nat (length l))).
  - rewrite Z.min_l by lia. reflexivity.
  - rewrite Z.min_r by lia. rewrite Nat2Z.id.
    rewrite List.firstn_all. rewrite List.firstn_all2 by lia. reflexivity.
Qed.



End TopOfSorted.

Section PickSelection.
Import Picks.
Local Open Scope Z_scope.



End PickSelection.

Section ParlayLegs.
Import Picks.
Local Open Scope Q_scope.

Lemma py_int_mono (x y : Q) : x <= y -> (py_int x <= py_int y)%Z.
Proof.
  intros H. unfold py_int.
  destruct (Qlt_le_dec x 0), (Qlt_le_dec y 0).
  - apply Qceiling_resp_le, H.
  - apply Z.le_trans with 0%Z.
    + change 0%Z with (Qceiling 0). apply Qceiling_resp_le. lra.
    + change 0%Z with (Qfloor 0). apply Qfloor_resp_le. lra.
  - lra.
  - apply Qfloor_resp_le, H.
Qed.

Lemma py_int_inject_Z (z : Z) : py_int (inject_Z z) = z.
Proof.
  unfold py_int. destruct (Qlt_le_dec (inject_Z z) 0);
    [apply Qceiling_Z | apply Qfloor_Z].
Qed.

Lemma leg_decimal_at_least_1 (fd : Z) :
  1 <= leg_decimal fd /\ (leg_decimal fd == 1 <-> fd = 0%Z).
Proof.
  unfold leg_decimal. destruct (Z.leb_spec 0 fd) as [H | H].
  - assert (Hq : 0 <= inject_Z fd)
      by (change 0 with (inject_Z 0); rewrite <- Zle_Qle; exact H).
    assert (E : inject_Z fd / 100 * 100 == inject_Z fd) by field.
    assert (Hd : 0 <= inject_Z fd / 100) by (apply Qle_shift_div_l; lra).
    split; [lra|]. split.
    + intros H1. assert (H0 : inject_Z fd == inject_Z 0)
        by (change (inject_Z 0) with 0; lra).
      apply inject_Z_injective. exact H0.
    + intros ->. reflexivity.
  - assert (Hq : 0 < inject_Z (Z.abs fd))
      by (change 0 with (inject_Z 0); rewrite <- Zlt_Qlt; lia).
    assert (Hd : 0 < 100 / inject_Z (Z.abs fd)) by (apply Qlt_shift_div_l; lra).
    split; [lra|]. split; [lra | lia].
Qed.

Lemma total_decimal_fold (combo : list row) :
  forall a b : Q, 0 < a ->
  let st :=
    fold_left
      (fun (st : Q * Q) (leg : row) =>
         let '(total_decimal, total_prob) := st in
         (total_decimal * leg_decimal (FD_Odds leg),
          total_prob * (inject_Z (Confidence leg) / 100)))
      combo (a, b) in
  a <= fst st /\ (fst st == a <-> Forall (fun r => FD_Odds r = 0%Z) combo).
Proof.
  induction combo as [| r combo IH]; intros a b Ha; cbn [fold_left fst].
  - split; [lra|]. split; [constructor | reflexivity].
  - destruct (leg_decimal_at_least_1 (FD_Odds r)) as [Hd Hd1].
    set (d := leg_decimal (FD_Odds r)) in *.
    assert (Had : a <= a * d) by nra.
    destruct (IH (a * d) (b * (inject_Z (Confidence r) / 100)) ltac:(nra)) as [Hle Hiff].
    cbv zeta in Hle, Hiff.
    set (td := fst (fold_left _ combo _)) in *.
    split; [lra|]. split.
    + intros Heq.
      assert (Hd' : d <= 1).
      { apply Qnot_lt_le. intros Hlt.
        assert (0 < a * (d - 1)) by (apply Qmult_lt_0_compat; lra). lra. }
      constructor.
      * apply Hd1. lra.
      * apply Hiff. lra.
    + intros Hall. inversion Hall as [| ? ? H0 Hrest]; subst.
      apply Hd1 in H0. apply Hiff in Hrest.
      assert (a * d == a) by (rewrite H0; ring). lra.
Qed.

Lemma total_prob_fold (combo : list row) :
  Forall (fun r => (0 <= Confidence r <= 100)%Z) combo ->
  forall a b : Q, 0 <= b ->
  let st :=
    fold_left
      (fun (st : Q * Q) (leg : row) =>
         let '(total_decimal, total_prob) := st in
         (total_decimal * leg_decimal (FD_Odds leg),
          total_prob * (inject_Z (Confidence leg) / 100)))
      combo (a, b) in
  0 <= snd st /\ snd st <= b
  /\ forall leg, In leg combo -> snd st * 100 <= b * inject_Z (Confidence leg).
Proof.
  induction 1 as [| r combo Hr Hall IH]; intros a b Hb; cbn [fold_left snd].
  - split; [lra|]. split; [lra|]. intros leg [].
  - assert (Hc : 0 <= inject_Z (Confidence r) /\ inject_Z (Confidence r) <= 100).
    { change 0 with (inject_Z 0). change 100 with (inject_Z 100).
      rewrite <- !Zle_Qle. exact Hr. }
    set (c := inject_Z (Confidence r)) in *.
    assert (E : c / 100 * 100 == c) by field.
    assert (H0 : 0 <= c / 100) by (apply Qle_shift_div_l; lra).
    assert (H1 : c / 100 <= 1) by (apply Qle_shift_div_r; lra).
    destruct (IH (a * leg_decimal (FD_Odds r)) (b * (c / 100)) ltac:(nra))
      as (Hnn & Hle & Hlegs).
    cbv zeta in Hnn, Hle, Hlegs.
    set (tp := snd (fold_left _ combo _)) in *.
    split; [exact Hnn|]. split; [nra|].
    intros leg [<- | Hleg].
    + fold c. nra.
    + specialize (Hlegs leg Hleg).
      assert (0 <= inject_Z (Confidence leg)).
      { rewrite List.Forall_forall in Hall. specialize (Hall leg Hleg).
        change 0 with (inject_Z 0). rewrite <- Zle_Qle. lia. }
      assert (Hb' : b * (c / 100) <= b) by nra.
      pose proof (Qmult_le_compat_r _ _ (inject_Z (Confidence leg)) Hb' ltac:(assumption)).
      lra.
Qed.

Lemma discount_power_between (m : nat) :
  0 < Qpower (85 # 100) (Z.of_nat m) /\ Qpower (85 # 100) (Z.of_nat m) <= 1.
Proof.
  split; [apply Qpower_0_lt; reflexivity|].
  induction m as [| m IH]; [discriminate|].
  rewrite Nat2Z.inj_succ. unfold Z.succ.
  rewrite Qpower_plus by discriminate.
  assert (0 < Qpower (85 # 100) (Z.of_nat m)) by (apply Qpower_0_lt; reflexivity).
  change (Qpower (85 # 100) 1) with (85 # 100). nra.
Qed.

Lemma ranked_rows (l : list row) :
  map snd (ranked l) = l /\ map fst (ranked l) = seq 1 (length l).
Proof.
  unfold ranked. generalize 1%nat.
  induction l as [| r l IH]; intros n; cbn [length seq combine map fst snd];
    [split; reflexivity|].
  destruct (IH (S n)) as [H1 H2]. rewrite H1, H2. split; reflexivity.
Qed.

(** What [calc_parlay] returns, in one statement. *)
Lemma calc_parlay_facts (combo : list row) :
  (calc_parlay combo = None <-> Forall (fun r => FD_Odds r = 0%Z) combo)
  /\ (forall p, calc_parlay combo = Some p ->
        legs p = length combo
        /\ map snd (details p) = combo
        /\ map fst (details p) = seq 1 (length combo)
        /\ ((100 <= combined_odds p)%Z \/ (combined_odds p <= -100)%Z)
        /\ (combo <> [] ->
            Forall (fun r => (0 <= Confidence r <= 100)%Z) combo ->
            (0 <= confidence p)%Z
            /\ forall leg, In leg combo -> (confidence p <= Confidence leg)%Z)).
Proof.
  unfold calc_parlay.
  pose proof (total_decimal_fold combo 1 1 ltac:(reflexivity)) as Hd.
  pose proof (fun H => total_prob_fold combo H 1 1 ltac:(discriminate)) as Hp.
  cbv zeta in Hd, Hp. fold (leg_products combo) in Hd, Hp.
  destruct (leg_products combo) as [td tp]. cbn [fst snd] in Hd, Hp.
  destruct Hd as [Hge Hone].
  set (tp' := tp * Qpower (85 # 100) (Z.of_nat (length combo) - 1)).
  assert (Hconf : combo <> [] ->
            Forall (fun r => (0 <= Confidence r <= 100)%Z) combo ->
            (0 <= py_int (tp' * 100))%Z
            /\ forall leg, In leg combo -> (py_int (tp' * 100) <= Confidence leg)%Z).
  { intros Hne Hall. destruct (Hp Hall) as (H0 & H1 & Hlegs).
    assert (Hpw : 0 < Qpower (85 # 100) (Z.of_nat (length combo) - 1)
                  /\ Qpower (85 # 100) (Z.of_nat (length combo) - 1) <= 1).
    { destruct combo as [| r0 rest]; [congruence|].
      replace (Z.of_nat (length (r0 :: rest)) - 1)%Z with (Z.of_nat (length rest))
        by (cbn [length]; lia).
      apply discount_power_between. }
    set (pw := Qpower _ _) in *.
    split.
    - apply py_int_nonneg. unfold tp'. nra.
    - intros leg Hleg. specialize (Hlegs leg Hleg).
      rewrite <- (py_int_inject_Z (Confidence leg)).
      apply py_int_mono. unfold tp'. nra. }
  destruct (Qle_bool 2 td) eqn:E2.
  - apply Qle_bool_iff in E2. split.
    + split; [discriminate|]. intros Hall. apply Hone in Hall. lra.
    + intros p [= <-]. cbn [legs details combined_odds confidence].
      destruct (ranked_rows combo) as [R1 R2].
      repeat split; auto.
      * left. apply Z.le_trans with (py_int (inject_Z 100));
          [rewrite py_int_inject_Z; lia|].
        apply py_int_mono. change (inject_Z 100) with 100. lra.
      * apply Hconf; assumption.
      * apply Hconf; assumption.
  - assert (Hlt : td < 2).
    { apply Qnot_le_lt. intros H. apply Qle_bool_iff in H. congruence. }
    destruct (Qeq_bool (td - 1) 0) eqn:E1.
    + apply Qeq_bool_iff in E1. split.
      * split; [| reflexivity]. intros _. apply Hone. lra.
      * discriminate.
    + assert (Hne : ~ td - 1 == 0).
      { intros H. apply Qeq_bool_iff in H. congruence. }
      split.
      * split; [discriminate|]. intros Hall. apply Hone in Hall. lra.
      * intros p [= <-]. cbn [legs details combined_odds confidence].
        destruct (ranked_rows combo) as [R1 R2].
        repeat split; auto.
        -- right. apply Z.le_trans with (py_int (inject_Z (-100)));
             [| rewrite py_int_inject_Z; lia].
           apply py_int_mono. change (inject_Z (-100)) with (-100).
           assert (Hpos : 0 < td - 1) by lra.
           assert (E : -100 / (td - 1) * (td - 1) == -100) by (field; lra).
           assert (Hinv : 0 < / (td - 1)) by (apply Qinv_lt_0_compat; exact Hpos).
           unfold Qdiv in *. set (i := / (td - 1)) in *. nra.
        -- apply Hconf; assumption.
        -- apply Hconf; assumption.
Qed.

(** X24.  [calc_parlay] raises exactly when every leg has odds 0.
    Otherwise the parlay lists its legs in order with ranks from 1, its
    combined odds are valid American odds (at least +100 or at most -100),
    and, for legs with confidence within [[0, 100]], its confidence is
    non-negative and no higher than the confidence of any leg. *)
Theorem calc_parlay_sound (combo : list row) :
  (calc_parlay combo = None <-> Forall (fun r => FD_Odds r = 0%Z) combo)
  /\ (forall p, calc_parlay combo = Some p ->
        legs p = length combo
        /\ map snd (details p) = combo
        /\ map fst (details p) = seq 1 (length combo)
        /\ ((100 <= combined_odds p)%Z \/ (combined_odds p <= -100)%Z)
        /\ (combo <> [] ->
            Forall (fun r => (0 <= Confidence r <= 100)%Z) combo ->
            (0 <= confidence p)%Z
            /\ forall leg, In leg combo -> (confidence p <= Confidence leg)%Z)).
Proof. apply calc_parlay_facts. Qed.

Lemma calc_parlay_sound_witness :
  exists p, calc_parlay [Samples.cand_a; Samples.cand_b] = Some p
            /\ (0 <= confidence p)%Z
            /\ (confidence p <= Confidence Samples.cand_b)%Z.
Proof.
  eexists. split; [vm_compute; reflexivity|].
  destruct (proj2 (calc_parlay_sound [Samples.cand_a; Samples.cand_b]) _ eq_refl)
    as (_ & _ & _ & _ & H).
  destruct (H ltac:(discriminate)
              ltac:(repeat constructor; vm_compute; discriminate)) as [H0 H1].
  split; [exact H0 | apply H1; right; left; reflexivity].
Defined.

End ParlayLegs.

Section ParlaySearch.
Import Picks.
Local Open Scope Z_scope.

Lemma combinations_zero {X : Type} (l : list X) : combinations l 0 = [[]].
Proof. destruct l; reflexivity. Qed.

Lemma combinations_spec {X : Type} (l : list X) :
  forall (k : nat) (c : list X),
  In c (combinations l k) -> length c = k /\ sublist c l.
Proof.
  induction l as [| x l IH]; intros k c Hc.
  - destruct k; cbn [combinations In] in Hc; [| destruct Hc].
    destruct Hc as [<- | []]. split; [reflexivity | constructor].
  - destruct k as [| k].
    + rewrite combinations_zero in Hc. destruct Hc as [<- | []].
      split; [reflexivity | apply sublist_nil_l].
    + cbn [combinations] in Hc. apply in_app_or in Hc. destruct Hc as [Hc | Hc].
      * apply in_map_iff in Hc. destruct Hc as (c' & <- & Hc').
        destruct (IH k c' Hc') as [Hlen Hsub].
        split; [cbn [length]; lia | constructor; exact Hsub].
      * destruct (IH (S k) c Hc) as [Hlen Hsub].
        split; [exact Hlen | constructor; exact Hsub].
Qed.

Lemma combinations_nonempty {X : Type} (l : list X) :
  forall k : nat, (k <= length l)%nat -> combinations l k <> [].
Proof.
  induction l as [| x l IH]; intros k Hk.
  - cbn [length] in Hk. replace k with 0%nat by lia. discriminate.
  - destruct k as [| k]; [rewrite combinations_zero; discriminate|].
    cbn [combinations length] in *.
    specialize (IH k ltac:(lia)).
    destruct (combinations l k); [congruence | discriminate].
Qed.

(** The search loop from any state: it fails when some combination
    fails; otherwise no combination beats the final confidence, and the
    final parlay is the starting one or a combination that beat it. *)
Lemma best_parlay_fold (combos : list (list row)) :
  forall (best : option parlay) (best_conf : Z),
  match
    fold_left
      (fun (st : option (option parlay * Z)) (combo : list row) =>
         match st with
         | None => None
         | Some (best, best_conf) =>
             match calc_parlay combo with
             | None => None
             | Some p =>
                 if (best_conf <? confidence p)%Z then Some (Some p, confidence p)
                 else Some (best, best_conf)
             end
         end)
      combos (Some (best, best_conf))
  with
  | None => exists c, In c combos /\ calc_parlay c = None
  | Some (best', best_conf') =>
      best_conf <= best_conf'
      /\ (forall c, In c combos ->
            exists p, calc_parlay c = Some p /\ confidence p <= best_conf')
      /\ ((best' = best /\ best_conf' = best_conf)
          \/ exists c p, In c combos /\ calc_parlay c = Some p
                         /\ best' = Some p /\ confidence p = best_conf'
                         /\ best_conf < best_conf')
  end.
Proof.
  induction combos as [| c combos IH]; intros best bc; cbn [fold_left].
  - split; [lia|]. split; [intros c []|]. left. split; reflexivity.
  - destruct (calc_parlay c) as [p|] eqn:Ep.
    + destruct (Z.ltb_spec bc (confidence p)) as [Hlt | Hge].
      * specialize (IH (Some p) (confidence p)).
        match goal with |- match ?e with _ => _ end =>
          destruct e as [[best' bc']|] end.
        -- destruct IH as (Hle & Hall & Hfrom).
           split; [lia|]. split.
           ++ intros c' [<- | Hc']; [exists p; split; [exact Ep | lia] | apply Hall, Hc'].
           ++ right. destruct Hfrom as [[-> ->] | (c' & p' & Hc' & Ep' & -> & Hconf & Hlt')].
              ** exists c, p. repeat split; auto. left. reflexivity.
              ** exists c', p'. repeat split; auto; [right; exact Hc' | lia].
        -- destruct IH as (c' & Hc' & Ep'). exists c'. split; [right; exact Hc' | exact Ep'].
      * specialize (IH best bc).
        match goal with |- match ?e with _ => _ end =>
          destruct e as [[best' bc']|] end.
        -- destruct IH as (Hle & Hall & Hfrom).
           split; [lia|]. split.
           ++ intros c' [<- | Hc']; [exists p; split; [exact Ep | lia] | apply Hall, Hc'].
           ++ destruct Hfrom as [[-> ->] | (c' & p' & Hc' & Ep' & -> & Hconf & Hlt')].
              ** left. split; reflexivity.
              ** right. exists c', p'. repeat split; auto. right. exact Hc'.
        -- destruct IH as (c' & Hc' & Ep'). exists c'. split; [right; exact Hc' | exact Ep'].
    + match goal with |- match fold_left ?f combos None with _ => _ end =>
        assert (E : fold_left f combos None = None)
          by (clear; induction combos; cbn [fold_left]; auto);
        rewrite E end.
      exists c. split; [left; reflexivity | exact Ep].
Qed.

Lemma best_parlay_facts (pool : list row) (k : nat) :
  match best_parlay pool k with
  | None => exists c, In c (combinations pool k) /\ calc_parlay c = None
  | Some (best, best_conf) =>
      (forall c, In c (combinations pool k) ->
         exists p, calc_parlay c = Some p /\ confidence p <= best_conf)
      /\ match best with
         | None => best_conf = 0
         | Some p =>
             confidence p = best_conf /\ 0 < best_conf
             /\ exists c, In c (combinations pool k) /\ calc_parlay c = Some p
         end
  end.
Proof.
  unfold best_parlay.
  pose proof (best_parlay_fold (combinations pool k) None 0) as H.
  match type of H with match ?e with _ => _ end =>
    destruct e as [[best bc]|] end; [| exact H].
  destruct H as (Hle & Hall & Hfrom). split; [exact Hall|].
  destruct Hfrom as [[-> ->] | (c & p & Hc & Ep & -> & Hconf & Hlt)]; [reflexivity|].
  split; [exact Hconf|]. split; [exact Hlt|]. exists c. split; assumption.
Qed.

(** X25.  One search loop of [_build_parlays].  It raises only when some
    combination has odds 0 on every leg.  Otherwise no combination of [k]
    rows of the pool has a higher confidence than the one returned; a
    parlay is returned exactly when that confidence is positive, and it
    then has [k] legs, taken from the pool in the pool's order. *)
Theorem best_parlay_is_best (pool : list row) (k : nat) :
  match best_parlay pool k with
  | None =>
      exists c, In c (combinations pool k) /\ Forall (fun r => FD_Odds r = 0) c
  | Some (best, best_conf) =>
      (forall c, In c (combinations pool k) ->
         exists p, calc_parlay c = Some p /\ confidence p <= best_conf)
      /\ match best with
         | None => best_conf = 0
         | Some p =>
             confidence p = best_conf /\ 0 < best_conf
             /\ legs p = k /\ sublist (map snd (details p)) pool
         end
  end.
Proof.
  pose proof (best_parlay_facts pool k) as H.
  destruct (best_parlay pool k) as [[best bc]|].
  - destruct H as [Hall Hbest]. split; [exact Hall|].
    destruct best as [p|]; [| exact Hbest].
    destruct Hbest as (Hconf & Hpos & c & Hc & Ep).
    destruct (combinations_spec pool k c Hc) as [Hlen Hsub].
    destruct (proj2 (calc_parlay_facts c) p Ep) as (Hlegs & Hdet & _).
    repeat split; auto; congruence.
  - destruct H as (c & Hc & Ep). exists c. split; [exact Hc|].
    apply (proj1 (calc_parlay_facts c)), Ep.
Qed.

Lemma calc_parlay_confidence (c : list row) (p : parlay) :
  calc_parlay c = Some p ->
  confidence p
  = py_int (snd (leg_products c)
            * Qpower (85 # 100) (Z.of_nat (length c) - 1) * 100)%Q.
Proof.
  unfold calc_parlay. destruct (leg_products c) as [td tp]. cbn [snd].
  destruct (Qle_bool 2 td); [intros [= <-]; reflexivity|].
  destruct (Qeq_bool (td - 1) 0); [discriminate|].
  intros [= <-]. reflexivity.
Qed.

Lemma total_prob_lower (combo : list row) :
  Forall (fun r => 50 <= Confidence r) combo ->
  forall a b : Q, (0 <= b)%Q ->
  (b <= snd (fold_left
               (fun (st : Q * Q) (leg : row) =>
                  let '(total_decimal, total_prob) := st in
                  (total_decimal * leg_decimal (FD_Odds leg),
                   total_prob * (inject_Z (Confidence leg) / 100)))%Q
               combo (a, b))
        * inject_Z (2 ^ Z.of_nat (length combo)))%Q.
Proof.
  induction 1 as [| r combo Hr Hall IH]; intros a b Hb; cbn [fold_left snd length].
  - change (inject_Z (2 ^ Z.of_nat 0)) with 1%Q. lra.
  - assert (Hc : (50 <= inject_Z (Confidence r))%Q)
      by (change 50%Q with (inject_Z 50); rewrite <- Zle_Qle; exact Hr).
    set (c := inject_Z (Confidence r)) in *.
    assert (E : (c / 100 * 100 == c)%Q) by field.
    assert (Hhalf : (1 # 2 <= c / 100)%Q) by (apply Qle_shift_div_l; lra).
    specialize (IH (a * leg_decimal (FD_Odds r))%Q (b * (c / 100))%Q ltac:(nra)).
    set (tp := snd (fold_left _ combo _)) in *.
    rewrite Nat2Z.inj_succ, Z.pow_succ_r by lia. rewrite inject_Z_mult.
    change (inject_Z 2) with 2%Q.
    set (pw := inject_Z (2 ^ Z.of_nat (length combo))) in *. nra.
Qed.

(** Up to four legs of confidence 50 to 100, not all at odds 0, always
    make a parlay of positive confidence. *)
Lemma sure_parlay (c : list row) :
  (1 <= length c <= 4)%nat ->
  Forall (fun r => 50 <= Confidence r <= 100 /\ FD_Odds r <> 0) c ->
  exists p, calc_parlay c = Some p /\ 1 <= confidence p.
Proof.
  intros Hlen Hall.
  destruct (calc_parlay c) as [p|] eqn:Ep.
  - exists p. split; [reflexivity|].
    rewrite (calc_parlay_confidence c p Ep).
    assert (Hlo : Forall (fun r => 50 <= Confidence r) c)
      by (eapply List.Forall_impl; [| exact Hall]; cbv beta; intros; lia).
    assert (Hbd : Forall (fun r => 0 <= Confidence r <= 100) c)
      by (eapply List.Forall_impl; [| exact Hall]; cbv beta; intros; lia).
    pose proof (total_prob_lower c Hlo 1%Q 1%Q ltac:(discriminate)) as Hlow.
    destruct (total_prob_fold c Hbd 1%Q 1%Q ltac:(discriminate)) as (Hnn & _ & _).
    cbv zeta in Hnn. fold (leg_products c) in Hlow, Hnn.
    set (tp := snd (leg_products c)) in *.
    apply Z.le_trans with (py_int (inject_Z 1)); [rewrite py_int_inject_Z; lia|].
    apply py_int_mono. change (inject_Z 1) with 1%Q.
    destruct (length c) as [| [| [| [| [| n]]]]]; try lia.
    + change (inject_Z (2 ^ Z.of_nat 1)) with 2%Q in Hlow.
      change (Qpower (85 # 100) (Z.of_nat 1 - 1)) with 1%Q. lra.
    + change (inject_Z (2 ^ Z.of_nat 2)) with 4%Q in Hlow.
      change (Qpower (85 # 100) (Z.of_nat 2 - 1)) with (85 # 100)%Q. lra.
    + change (inject_Z (2 ^ Z.of_nat 3)) with 8%Q in Hlow.
      replace (Qpower (85 # 100) (Z.of_nat 3 - 1)) with (7225 # 10000)%Q
        by reflexivity. lra.
    + change (inject_Z (2 ^ Z.of_nat 4)) with 16%Q in Hlow.
      replace (Qpower (85 # 100) (Z.of_nat 4 - 1)) with (614125 # 1000000)%Q
        by reflexivity. lra.
  - exfalso. apply (proj1 (calc_parlay_facts c)) in Ep.
    destruct c as [| r c]; [cbn [length] in Hlen; lia|].
    inversion Ep; inversion Hall; subst. tauto.
Qed.

Lemma best_parlay_found (pool : list row) (k : nat) :
  (1 <= k <= 4)%nat -> (k <= length pool)%nat ->
  Forall (fun r => 50 <= Confidence r <= 100 /\ FD_Odds r <> 0) pool ->
  exists p best_conf, best_parlay pool k = Some (Some p, best_conf).
Proof.
  intros Hk Hlen Hall.
  assert (Hsure : forall c, In c (combinations pool k) ->
                    exists p, calc_parlay c = Some p /\ 1 <= confidence p).
  { intros c Hc. destruct (combinations_spec pool k c Hc) as [Hl Hsub].
    apply sure_parlay; [lia|].
    rewrite List.Forall_forall in *. intros r Hr.
    apply Hall. eapply sublist_In_keeps; eauto. }
  pose proof (best_parlay_facts pool k) as H.
  destruct (best_parlay pool k) as [[best bc]|].
  - destruct H as [Hmax Hbest].
    destruct best as [p|]; [exists p, bc; reflexivity|]. exfalso.
    pose proof (combinations_nonempty pool k Hlen) as Hne.
    destruct (combinations pool k) as [| c0 cs]; [congruence|].
    destruct (Hmax c0 (or_introl eq_refl)) as (p & Ep & Hle).
    destruct (Hsure c0 (or_introl eq_refl)) as (p' & Ep' & Hge).
    rewrite Ep in Ep'. injection Ep' as <-. lia.
  - exfalso. destruct H as (c & Hc & Ep).
    destruct (Hsure c Hc) as (p & Ep' & _). congruence.
Qed.

Lemma best_parlay_legs (pool : list row) (k : nat) (p : parlay) (best_conf : Z) :
  best_parlay pool k = Some (Some p, best_conf) ->
  legs p = k /\ 0 < confidence p /\ length (details p) = k
  /\ sublist (map snd (details p)) pool
  /\ (100 <= combined_odds p \/ combined_odds p <= -100).
Proof.
  intros E. pose proof (best_parlay_facts pool k) as H. rewrite E in H.
  destruct H as (_ & Hconf & Hpos & c & Hc & Ep).
  destruct (combinations_spec pool k c Hc) as [Hlen Hsub].
  destruct (proj2 (calc_parlay_facts c) p Ep) as (Hlegs & Hdet & _ & Hodds & _).
  split; [congruence|]. split; [lia|].
  split; [rewrite <- (length_map snd), Hdet; exact Hlen|].
  split; [rewrite Hdet; exact Hsub | exact Hodds].
Qed.

Lemma build_parlays_facts (picks : list row) :
  ((length picks < 4)%nat -> _build_parlays picks = Some [])
  /\ (forall ps, _build_parlays picks = Some ps ->
        sublist (map legs ps) [2; 3; 4]%nat
        /\ forall p, In p ps ->
             0 < confidence p
             /\ length (details p) = legs p
             /\ sublist (map snd (details p)) picks
             /\ (100 <= combined_odds p \/ combined_odds p <= -100))
  /\ ((4 <= length picks)%nat ->
      Forall (fun r => 50 <= Confidence r <= 100 /\ FD_Odds r <> 0) picks ->
      exists p2 p3 p4,
        _build_parlays picks = Some [p2; p3; p4]
        /\ legs p2 = 2%nat /\ legs p3 = 3%nat /\ legs p4 = 4%nat).
Proof.
  unfold _build_parlays. split; [| split].
  - intros H. destruct (Nat.ltb_spec (length picks) 4); [reflexivity | lia].
  - intros ps. destruct (length picks <? 4)%nat.
    { intros [= <-]. split; [apply sublist_nil_l | intros p []]. }
    assert (Hone : forall n k p bc,
              best_parlay (py_slice picks 0 n) k = Some (Some p, bc) ->
              legs p = k /\ 0 < confidence p /\ length (details p) = legs p
              /\ sublist (map snd (details p)) picks
              /\ (100 <= combined_odds p \/ combined_odds p <= -100)).
    { intros n k p bc E. apply best_parlay_legs in E.
      destruct E as (H1 & H2 & H3 & H4 & H5). repeat split; auto; try congruence.
      eapply (@transitivity _ sublist _); [exact H4 | apply py_slice_sublist]. }
    destruct (best_parlay (py_slice picks 0 8) 2) as [[b2 c2]|] eqn:E2; [|discriminate].
    destruct (best_parlay (py_slice picks 0 10) 3) as [[b3 c3]|] eqn:E3; [|discriminate].
    destruct (best_parlay (py_slice picks 0 12) 4) as [[b4 c4]|] eqn:E4; [|discriminate].
    intros [= <-].
    destruct b2 as [p2|], b3 as [p3|], b4 as [p4|]; cbn [append_if_found app map];
      repeat match goal with
             | E : best_parlay _ _ = Some (Some _, _) |- _ => apply Hone in E
             end;
      (split; [intuition (try congruence);
               repeat match goal with H : legs _ = _ |- _ => rewrite H; clear H end;
               repeat constructor
              | intros p Hp; cbn [In] in Hp; intuition (subst; auto)]).
  - intros Hlen Hall.
    destruct (Nat.ltb_spec (length picks) 4); [lia|].
    assert (Hpool : forall n k, (4 <= n)%Z -> (1 <= k <= 4)%nat ->
              exists p bc, best_parlay (py_slice picks 0 n) k = Some (Some p, bc)
                           /\ legs p = k).
    { intros n k Hn Hk.
      destruct (best_parlay_found (py_slice picks 0 n) k Hk) as (p & bc & E).
      - rewrite py_slice_head by lia. rewrite List.length_firstn. lia.
      - rewrite List.Forall_forall in *. intros r Hr.
        apply Hall. eapply sublist_In_keeps; [apply py_slice_sublist | exact Hr].
      - exists p, bc. split; [exact E|]. apply best_parlay_legs in E. apply E. }
    destruct (Hpool 8 2%nat ltac:(lia) ltac:(lia)) as (p2 & c2 & E2 & L2).
    destruct (Hpool 10 3%nat ltac:(lia) ltac:(lia)) as (p3 & c3 & E3 & L3).
    destruct (Hpool 12 4%nat ltac:(lia) ltac:(lia)) as (p4 & c4 & E4 & L4).
    rewrite E2, E3, E4. exists p2, p3, p4. repeat split; assumption.
Qed.

(** X26.  [_build_parlays] returns no parlay for fewer than four picks.
    What it returns is at most one parlay each of 2, 3 and 4 legs, in
    that order, each of positive confidence, with valid American odds and
    with legs taken from the picks in their order.  From four or more
    picks of confidence 50 to 100 and non-zero odds it returns exactly
    one parlay of each size. *)
Theorem build_parlays_shape (picks : list row) :
  ((length picks < 4)%nat -> _build_parlays picks = Some [])
  /\ (forall ps, _build_parlays picks = Some ps ->
        sublist (map legs ps) [2; 3; 4]%nat
        /\ forall p, In p ps ->
             0 < confidence p
             /\ length (details p) = legs p
             /\ sublist (map snd (details p)) picks
             /\ (100 <= combined_odds p \/ combined_odds p <= -100))
  /\ ((4 <= length picks)%nat ->
      Forall (fun r => 50 <= Confidence r <= 100 /\ FD_Odds r <> 0) picks ->
      exists p2 p3 p4,
        _build_parlays picks = Some [p2; p3; p4]
        /\ legs p2 = 2%nat /\ legs p3 = 3%nat /\ legs p4 = 4%nat).
Proof. apply build_parlays_facts. Qed.

Lemma build_parlays_shape_witness :
  _build_parlays [Samples.cand_a; Samples.cand_b] = Some [].
Proof.
  apply (proj1 (build_parlays_shape [Samples.cand_a; Samples.cand_b])).
  cbn [length]. lia.
Defined.

End ParlaySearch.

Section DailyPicks.
Import Picks.
Local Open Scope Z_scope.

Lemma parlay_pool_member (rows chosen_locks chosen_lotto : list row) (r : row) :
  In r (parlay_pool_of rows chosen_locks chosen_lotto) ->
  In r rows /\ (-200 <= FD_Odds r <= 150 /\ 50 <= Confidence r)
  /\ ~ In r chosen_locks /\ ~ In r chosen_lotto.
Proof.
  unfold parlay_pool_of. rewrite sorted_by_In, List.filter_In.
  intros [Hr Hf]. apply andb_true_iff in Hf. destruct Hf as [Hused Hleg].
  unfold is_parlay_leg in Hleg. rewrite !andb_true_iff, !Z.leb_le in Hleg.
  assert (Hnot : ~ In r (chosen_locks ++ chosen_lotto)).
  { intros Hin. apply negb_true_iff in Hused.
    assert (Ht : key_in (row_key r) (map row_key (chosen_locks ++ chosen_lotto)) = true).
    { unfold key_in. apply existsb_exists. exists (row_key r).
      split; [apply in_map, Hin | apply key_eqb_refl]. }
    congruence. }
  split; [exact Hr|]. split; [lia|].
  split; intros Hin; apply Hnot, in_or_app; [left | right]; exact Hin.
Qed.

(** X27.  The daily picks, from the rows of one scan.  Unless the parlay
    builder failed, locks and lotto tickets are the selected rows with
    ranks counted from 1.  There are at most nine picks in all.  Every leg
    of a parlay is a scanned row with odds in [[-200, 150]] and confidence
    of at least 50 that is neither a lock nor a lotto ticket.  When no
    scanned row has odds 0 or a confidence above 100, the builder does not
    fail, and there are either no parlays or exactly three. *)
Theorem daily_picks_composition (rows : list row) :
  let out := generate_picks_json rows in
  (error out = false ->
     (map snd (locks out) = locks_of rows
      /\ map fst (locks out) = seq 1 (length (locks_of rows)))
     /\ (map snd (lotto_tickets out) = lotto_tickets_of rows
         /\ map fst (lotto_tickets out) = seq 1 (length (lotto_tickets_of rows))))
  /\ (length (locks out) + length (lotto_tickets out) + length (parlays out) <= 9)%nat
  /\ (forall p leg, In p (parlays out) -> In leg (map snd (details p)) ->
        In leg rows /\ (-200 <= FD_Odds leg <= 150 /\ 50 <= Confidence leg)
        /\ ~ In leg (locks_of rows) /\ ~ In leg (lotto_tickets_of rows))
  /\ (Forall (fun r => FD_Odds r <> 0 /\ Confidence r <= 100) rows ->
      error out = false
      /\ (length (parlays out) = 0%nat \/ length (parlays out) = 3%nat)).
Proof.
  unfold generate_picks_json.
  set (ls := locks_of rows). set (ts := lotto_tickets_of rows).
  set (pool := py_slice (parlay_pool_of rows ls ts) 0 15).
  assert (Hls : (length ls <= 3)%nat).
  { unfold ls, locks_of. rewrite py_slice_head by lia. rewrite List.length_firstn. lia. }
  assert (Hts : (length ts <= 3)%nat).
  { unfold ts, lotto_tickets_of. rewrite py_slice_head by lia.
    rewrite List.length_firstn. lia. }
  assert (Hrk : forall l, length (ranked l) = length l).
  { intros l. rewrite <- (length_map snd). f_equal. apply ranked_rows. }
  assert (Hpool : forall r, In r pool ->
            In r rows /\ (-200 <= FD_Odds r <= 150 /\ 50 <= Confidence r)
            /\ ~ In r ls /\ ~ In r ts).
  { intros r Hr. apply (parlay_pool_member rows ls ts).
    eapply sublist_In_keeps; [apply py_slice_sublist | exact Hr]. }
  destruct (build_parlays_facts pool) as (Hfew & Hshape & Hfull).
  cbv zeta. split; [| split; [| split]].
  - destruct (_build_parlays pool); cbn [error locks lotto_tickets]; [|discriminate].
    intros _. split; apply ranked_rows.
  - destruct (_build_parlays pool) as [ps|] eqn:Eb;
      cbn [locks lotto_tickets parlays length]; [| lia].
    destruct (Hshape ps eq_refl) as [Hlegs _].
    apply sublist_length in Hlegs. rewrite length_map in Hlegs. cbn [length] in Hlegs.
    rewrite !Hrk. lia.
  - destruct (_build_parlays pool) as [ps|] eqn:Eb; cbn [parlays]; [| intros p leg []].
    intros p leg Hp Hleg.
    destruct (Hshape ps eq_refl) as [_ Hps].
    destruct (Hps p Hp) as (_ & _ & Hsub & _).
    apply Hpool. eapply sublist_In_keeps; eauto.
  - intros Hrows.
    destruct (Nat.lt_ge_cases (length pool) 4) as [Hlt | Hge].
    + rewrite (Hfew Hlt). cbn [error parlays length]. split; [reflexivity | left; reflexivity].
    + destruct (Hfull Hge) as (p2 & p3 & p4 & -> & _).
      * rewrite List.Forall_forall in *. intros r Hr.
        destruct (Hpool r Hr) as (Hin & Hodds & _).
        specialize (Hrows r Hin). lia.
      * cbn [error parlays length]. split; [reflexivity | right; reflexivity].
Qed.

Lemma daily_picks_composition_witness :
  map snd (locks (generate_picks_json [Samples.cand_a; Samples.cand_b]))
  = locks_of [Samples.cand_a; Samples.cand_b].
Proof.
  apply (proj1 (daily_picks_composition [Samples.cand_a; Samples.cand_b])).
  vm_compute. reflexivity.
Defined.

End DailyPicks.

(* ================================================================== *)
(** ** Window presets and the price gap *)
(* ================================================================== *)
Section WindowFacts.
Local Open Scope Q_scope.

(** X28.  The head of [scan_props].  The effective minimum of books is at
    least 1.  A window name that is not a preset gets the thresholds of
    the "pretip" preset, but not its odds window: no reference price is
    rejected. *)
Theorem unknown_window_uses_pretip_thresholds (wm : string) (min_books : Z) (min_ev : Q) :
  (1 <= w_min_books (worker_args_of wm min_books min_ev))%Z
  /\ (wm <> "morning"%string -> wm <> "pretip"%string -> wm <> "plus_odds"%string ->
      worker_args_of wm min_books min_ev
      = {| w_min_books := w_min_books (worker_args_of "pretip" min_books min_ev);
           w_trim_used := 15 # 100;
           w_min_ev := min_ev;
           w_window_mode := wm;
           w_require_ev := false;
           w_require_gap := false;
           w_min_gap_cents := 0;
           w_min_avg_gap_cents := 0;
           w_min_true_prob_pct := 55 |}
      /\ forall fd, odds_filter_rejects wm fd = false).
Proof.
  split.
  - unfold worker_args_of, effective_min_books. cbn [w_min_books]. lia.
  - intros H1 H2 H3.
    assert (Hnone : WINDOW_PRESETS !! wm = None).
    { unfold WINDOW_PRESETS.
      rewrite !lookup_insert_ne by congruence. apply lookup_empty. }
    assert (Hp : WINDOW_PRESETS !! "pretip"%string = Some pretip)
      by (vm_compute; reflexivity).
    split.
    + unfold worker_args_of. rewrite Hnone, Hp. reflexivity.
    + intros fd. unfold odds_filter_rejects.
      destruct (String.eqb_spec wm "pretip"); [congruence|].
      destruct (String.eqb_spec wm "plus_odds"); [congruence|].
      reflexivity.
Qed.

Lemma unknown_window_uses_pretip_thresholds_witness :
  odds_filter_rejects "evening" (-300) = false.
Proof.
  apply (proj2 (unknown_window_uses_pretip_thresholds "evening" 3 0)
               ltac:(discriminate) ltac:(discriminate) ltac:(discriminate)).
Defined.

End WindowFacts.

Section GapFacts.
Variables (fd : Z) (sd : side).
Local Open Scope Z_scope.

Lemma same_sign_better (p q : Z) :
  Bool.eqb (0 <=? p) (0 <=? fd) = true -> Bool.eqb (0 <=? q) (0 <=? fd) = true ->
  price_better_for_bettor p q = (q <? p).
Proof.
  intros Hp Hq. apply Bool.eqb_prop in Hp, Hq. unfold price_better_for_bettor.
  destruct (Z.leb_spec 0 fd), (Z.leb_spec 0 p), (Z.leb_spec 0 q); try discriminate;
    cbn [andb]; [reflexivity|].
  destruct (Z.leb_spec p 0), (Z.leb_spec q 0); try lia. cbn [andb].
  destruct (Z.ltb_spec (Z.abs p) (Z.abs q)), (Z.ltb_spec q p); try lia; reflexivity.
Qed.

Lemma same_sign_gap (p : Z) :
  Bool.eqb (0 <=? p) (0 <=? fd) = true -> cents_diff fd (Some p) = fd - p.
Proof.
  intros Hp. apply Bool.eqb_prop in Hp. unfold cents_diff.
  destruct (Z.leb_spec 0 fd), (Z.leb_spec 0 p); try discriminate;
    cbn [andb]; [reflexivity|].
  destruct (Z.leb_spec fd 0), (Z.leb_spec p 0); try lia. cbn [andb]. lia.
Qed.

(** The scan over the book map: the running best price is the highest
    same-sign price quoted so far by a book other than the reference. *)
Lemma best_price_fold (suf : list (string * sides)) :
  forall (pre : list (string * sides)) (st : option string * option Z * list Z),
  (let '(best_book, best_price, others) := st in
   match best_book with
   | None =>
       best_price = None /\ others = []
       /\ forall b s p, In (b, s) pre -> String.eqb b FANDUEL_KEY = false ->
            side_price sd s = Some p -> Bool.eqb (0 <=? p) (0 <=? fd) = false
   | Some b =>
       exists s bp,
         In (b, s) pre /\ String.eqb b FANDUEL_KEY = false
         /\ side_price sd s = Some bp /\ best_price = Some bp
         /\ Bool.eqb (0 <=? bp) (0 <=? fd) = true
         /\ forall b' s' p, In (b', s') pre -> String.eqb b' FANDUEL_KEY = false ->
              side_price sd s' = Some p -> Bool.eqb (0 <=? p) (0 <=? fd) = true ->
              p <= bp
   end) ->
  let '(best_book, best_price, others) :=
    fold_left
      (fun (st : option string * option Z * list Z) (entry : string * sides) =>
         let '(best_book, best_price, others) := st in
         let '(b, s) := entry in
         if String.eqb b FANDUEL_KEY then st
         else match side_price sd s with
              | None => st
              | Some p =>
                  if negb (Bool.eqb (0 <=? p)%Z (0 <=? fd)%Z) then st
                  else
                    let better :=
                      match best_book, best_price with
                      | None, _ => true
                      | Some _, Some bp => price_better_for_bettor p bp
                      | Some _, None => true
                      end in
                    if better then (Some b, Some p, others ++ [p])
                    else (best_book, best_price, others ++ [p])
              end)
      suf st in
  match best_book with
  | None =>
      best_price = None /\ others = []
      /\ forall b s p, In (b, s) (pre ++ suf) -> String.eqb b FANDUEL_KEY = false ->
           side_price sd s = Some p -> Bool.eqb (0 <=? p) (0 <=? fd) = false
  | Some b =>
      exists s bp,
        In (b, s) (pre ++ suf) /\ String.eqb b FANDUEL_KEY = false
        /\ side_price sd s = Some bp /\ best_price = Some bp
        /\ Bool.eqb (0 <=? bp) (0 <=? fd) = true
        /\ forall b' s' p, In (b', s') (pre ++ suf) -> String.eqb b' FANDUEL_KEY = false ->
             side_price sd s' = Some p -> Bool.eqb (0 <=? p) (0 <=? fd) = true ->
             p <= bp
  end.
Proof.
  induction suf as [| [b s] suf IH]; intros pre [[bb bpr] others] Hinv.
  - cbn [fold_left]. rewrite app_nil_r. exact Hinv.
  - cbn [fold_left].
    replace (pre ++ (b, s) :: suf) with ((pre ++ [(b, s)]) ++ suf)
      by (rewrite <- app_assoc; reflexivity).
    apply IH. clear IH.
    destruct (String.eqb b FANDUEL_KEY) eqn:Eb.
    { destruct bb as [b0|].
      - destruct Hinv as (s0 & bp & Hin & Hb0 & Hs0 & Hbp & Hsign & Hmax).
        exists s0, bp. repeat split; auto; [apply in_or_app; left; exact Hin|].
        intros b' s' p Hin' Hb' Hs' Hp. apply in_app_or in Hin'.
        destruct Hin' as [Hin' | [[= <- <-] | []]]; [eapply Hmax; eauto | congruence].
      - destruct Hinv as (Hbp & Ho & Hno). repeat split; auto.
        intros b' s' p Hin' Hb' Hs' . apply in_app_or in Hin'.
        destruct Hin' as [Hin' | [[= <- <-] | []]]; [eapply Hno; eauto | congruence]. }
    destruct (side_price sd s) as [p|] eqn:Es.
    2:{ destruct bb as [b0|].
      - destruct Hinv as (s0 & bp & Hin & Hb0 & Hs0 & Hbp & Hsign & Hmax).
        exists s0, bp. repeat split; auto; [apply in_or_app; left; exact Hin|].
        intros b' s' p Hin' Hb' Hs' Hp. apply in_app_or in Hin'.
        destruct Hin' as [Hin' | [[= <- <-] | []]]; [eapply Hmax; eauto | congruence].
      - destruct Hinv as (Hbp & Ho & Hno). repeat split; auto.
        intros b' s' p Hin' Hb' Hs'. apply in_app_or in Hin'.
        destruct Hin' as [Hin' | [[= <- <-] | []]]; [eapply Hno; eauto | congruence]. }
    destruct (Bool.eqb (0 <=? p) (0 <=? fd)) eqn:Ep; cbn [negb].
    2:{ destruct bb as [b0|].
      - destruct Hinv as (s0 & bp & Hin & Hb0 & Hs0 & Hbp & Hsign & Hmax).
        exists s0, bp. repeat split; auto; [apply in_or_app; left; exact Hin|].
        intros b' s' p' Hin' Hb' Hs' Hp. apply in_app_or in Hin'.
        destruct Hin' as [Hin' | [[= <- <-] | []]]; [eapply Hmax; eauto | congruence].
      - destruct Hinv as (Hbp & Ho & Hno). repeat split; auto.
        intros b' s' p' Hin' Hb' Hs'. apply in_app_or in Hin'.
        destruct Hin' as [Hin' | [[= <- <-] | []]]; [eapply Hno; eauto | congruence]. }
    destruct bb as [b0|].
    + destruct Hinv as (s0 & bp & Hin & Hb0 & Hs0 & Hbp & Hsign & Hmax).
      subst bpr. rewrite (same_sign_better p bp Ep Hsign).
      destruct (Z.ltb_spec bp p) as [Hlt | Hge].
      * exists s, p. repeat split; auto; [apply in_or_app; right; left; reflexivity|].
        intros b' s' p' Hin' Hb' Hs' Hp'. apply in_app_or in Hin'.
        destruct Hin' as [Hin' | [[= <- <-] | []]].
        -- specialize (Hmax b' s' p' Hin' Hb' Hs' Hp'). lia.
        -- assert (p' = p) by congruence. lia.
      * exists s0, bp. repeat split; auto; [apply in_or_app; left; exact Hin|].
        intros b' s' p' Hin' Hb' Hs' Hp'. apply in_app_or in Hin'.
        destruct Hin' as [Hin' | [[= <- <-] | []]].
        -- eapply Hmax; eauto.
        -- assert (p' = p) by congruence. lia.
    + destruct Hinv as (Hbp & Ho & Hno).
      exists s, p. repeat split; auto; [apply in_or_app; right; left; reflexivity|].
      intros b' s' p' Hin' Hb' Hs' Hp'. apply in_app_or in Hin'.
      destruct Hin' as [Hin' | [[= <- <-] | []]].
      * specialize (Hno b' s' p' Hin' Hb' Hs'). congruence.
      * assert (p' = p) by congruence. lia.
Qed.

End GapFacts.

Section GapTheorem.
Local Open Scope Z_scope.

(** X29.  The best gap of a prop side.  When no other book quotes the side
    with the sign of the reference price, there is no best book and both
    gaps are 0.  Otherwise the best price is the highest such quote, the
    best book is a book that quotes it, and the best gap is the reference
    price minus the best price: it is positive exactly when the reference
    book pays more than every comparable competitor. *)
Theorem best_gap_is_least_gap (bm : book_map) (fd : Z) (sd : side) :
  let '(gap, book, price, avg_gap) := _best_and_avg_gap bm fd sd in
  match book with
  | None =>
      price = None /\ gap = 0 /\ avg_gap = 0
      /\ forall b s p, In (b, s) bm -> String.eqb b FANDUEL_KEY = false ->
           side_price sd s = Some p -> Bool.eqb (0 <=? p) (0 <=? fd) = false
  | Some b =>
      exists s bp,
        In (b, s) bm /\ String.eqb b FANDUEL_KEY = false
        /\ side_price sd s = Some bp /\ price = Some bp
        /\ Bool.eqb (0 <=? bp) (0 <=? fd) = true
        /\ (forall b' s' p, In (b', s') bm -> String.eqb b' FANDUEL_KEY = false ->
              side_price sd s' = Some p -> Bool.eqb (0 <=? p) (0 <=? fd) = true ->
              p <= bp)
        /\ (b <> ""%string -> gap = fd - bp)
  end.
Proof.
  unfold _best_and_avg_gap.
  pose proof (best_price_fold fd sd bm [] (None, None, [])) as H.
  cbn [app] in H.
  match type of H with context [fold_left ?f bm ?s] =>
    destruct (fold_left f bm s) as [[bb bpr] others] end.
  specialize (H ltac:(repeat split; auto; intros b s p [])).
  destruct bb as [b|].
  - destruct H as (s & bp & Hin & Hb & Hs & -> & Hsign & Hmax).
    exists s, bp. repeat split; auto.
    intros Hne. destruct (String.eqb_spec b ""); [congruence|].
    apply same_sign_gap. exact Hsign.
  - destruct H as (-> & -> & Hno). repeat split; auto.
Qed.

Lemma best_gap_is_least_gap_witness :
  fst (fst (fst (_best_and_avg_gap Samples.points_books (-150) SOver))) = 35.
Proof.
  pose proof (best_gap_is_least_gap Samples.points_books (-150) SOver) as H.
  destruct (_best_and_avg_gap Samples.points_books (-150) SOver)
    as [[[gap book] price] avg] eqn:E.
  cbn [fst]. vm_compute in E. injection E as <- <- <- <-.
  destruct H as (s & bp & _ & _ & _ & [= <-] & _ & _ & Hgap).
  rewrite Hgap by discriminate. reflexivity.
Defined.

End GapTheorem.

Lemma best_parlay_is_best_witness :
  exists p best_conf,
    Picks.best_parlay [Samples.cand_a; Samples.cand_b] 2 = Some (Some p, best_conf)
    /\ Picks.legs p = 2%nat.
Proof.
  pose proof (best_parlay_is_best [Samples.cand_a; Samples.cand_b] 2) as H.
  destruct (Picks.best_parlay [Samples.cand_a; Samples.cand_b] 2)
    as [[[p|] bc]|] eqn:E; try (vm_compute in E; discriminate).
  exists p, bc. split; [reflexivity | apply H].
Defined.
